(** * svg2pdf.js: a shallow embedding of [src/svg2pdf.js] and its properties

    The development follows the source file top to bottom.  JavaScript values
    are modelled as the code uses them:

    - a JS number is [NaN], a signed infinity or an exact rational kept in
      lowest terms ([num]); IEEE rounding and the distinction between the two
      zeros are outside the model;
    - a JS string is a [string] whose characters stand for code units below
      256;
    - [undefined] read from an array or a missing field is the number [NaN]
      wherever the code only does arithmetic or a truthiness test on it;
    - a thrown [TypeError] is the [Throw] outcome of the rendering monad, and a
      loop that does not terminate exhausts every amount of fuel. *)

From Stdlib Require Import QArith Qreduction Qabs Lqa.
From stdpp Require Import base option list gmap strings.
From Stdlib Require Import Ascii String DecimalString.
From Stdlib Require DecimalNat DecimalFacts.

Local Open Scope string_scope.
Local Open Scope list_scope.
Local Open Scope Z_scope.

(** ** JavaScript numbers *)

Inductive num : Type :=
  | NaN
  | Inf (negative : bool)
  | Fin (q : Q).

Module Num.

Definition of_Z (z : Z) : num := Fin (z # 1).

Definition qzero (q : Q) : bool := Qnum q =? 0.
Definition qneg (q : Q) : bool := Qnum q <? 0.

Definition add (x y : num) : num :=
  match x, y with
  | NaN, _ | _, NaN => NaN
  | Inf s, Inf s' => if Bool.eqb s s' then Inf s else NaN
  | Inf s, Fin _ | Fin _, Inf s => Inf s
  | Fin a, Fin b => Fin (Qred (a + b))
  end.

Definition neg (x : num) : num :=
  match x with
  | NaN => NaN
  | Inf s => Inf (negb s)
  | Fin a => Fin (Qred (- a))
  end.

Definition sub (x y : num) : num := add x (neg y).

Definition mul (x y : num) : num :=
  match x, y with
  | NaN, _ | _, NaN => NaN
  | Inf s, Inf s' => Inf (xorb s s')
  | Inf s, Fin a | Fin a, Inf s => if qzero a then NaN else Inf (xorb s (qneg a))
  | Fin a, Fin b => Fin (Qred (a * b))
  end.

Definition div (x y : num) : num :=
  match x, y with
  | NaN, _ | _, NaN => NaN
  | Inf _, Inf _ => NaN
  | Inf s, Fin b => Inf (xorb s (qneg b))
  | Fin _, Inf _ => Fin 0
  | Fin a, Fin b =>
      if qzero b then (if qzero a then NaN else Inf (qneg a))
      else Fin (Qred (a / b))
  end.

(** ToBoolean on a number: [NaN] and zero are falsy. *)
Definition truthy (x : num) : bool :=
  match x with
  | NaN => false
  | Inf _ => true
  | Fin a => negb (qzero a)
  end.

(** [x || y] on numbers. *)
Definition or (x y : num) : num := if truthy x then x else y.

Definition eqb (x y : num) : bool :=
  match x, y with
  | Inf s, Inf s' => Bool.eqb s s'
  | Fin a, Fin b => Qeq_bool a b
  | _, _ => false
  end.

Definition ltb (x y : num) : bool :=
  match x, y with
  | NaN, _ | _, NaN => false
  | Inf s, Inf s' => s && negb s'
  | Inf s, Fin _ => s
  | Fin _, Inf s => negb s
  | Fin a, Fin b => match a ?= b with Lt => true | _ => false end%Q
  end.

Definition is_fin (x : num) : Prop :=
  match x with Fin _ => True | _ => False end.

(** The rational a finite number stands for (0 otherwise). *)
Definition toQ (x : num) : Q :=
  match x with Fin a => a | _ => 0%Q end.

End Num.

Declare Scope num_scope.
Delimit Scope num_scope with num.
Bind Scope num_scope with num.
Infix "+" := Num.add : num_scope.
Infix "-" := Num.sub : num_scope.
Infix "*" := Num.mul : num_scope.
Infix "/" := Num.div : num_scope.
Notation "- x" := (Num.neg x) : num_scope.
Notation "x '|||' y" := (Num.or x y) (at level 50, left associativity) : num_scope.

(** Integer literals of the source. *)
Abbreviation n0 := (Fin 0%Q).
Abbreviation n1 := (Fin 1%Q).

(** ** Characters and the string primitives the source relies on *)

Module Chr.

Definition code (c : ascii) : N := N_of_ascii c.

(** [\s] of a regular expression, also what [trim] and [parseFloat] strip. *)
Definition is_space (c : ascii) : bool :=
  let n := code c in
  ((9 <=? n) && (n <=? 13) || (n =? 32) || (n =? 160))%N.

(** [.] of a regular expression matches everything but a line terminator. *)
Definition is_line_terminator (c : ascii) : bool :=
  let n := code c in ((n =? 10) || (n =? 13))%N.

(** [\d] *)
Definition is_digit (c : ascii) : bool :=
  let n := code c in ((48 <=? n) && (n <=? 57))%N.

Definition digit_val (c : ascii) : Z := Z.of_N (code c) - 48.

Definition is_upper (c : ascii) : bool :=
  let n := code c in ((65 <=? n) && (n <=? 90))%N.

Definition is_lower (c : ascii) : bool :=
  let n := code c in ((97 <=? n) && (n <=? 122))%N.

(** [[a-zA-Z]] *)
Definition is_letter (c : ascii) : bool := is_upper c || is_lower c.

(** [\w] *)
Definition is_word (c : ascii) : bool :=
  is_letter c || is_digit c || (code c =? 95)%N.

Definition to_lower (c : ascii) : ascii :=
  if is_upper c then ascii_of_N (code c + 32) else c.

Definition eqb (a b : ascii) : bool := (code a =? code b)%N.

End Chr.

Module Str.

Fixpoint to_lower (s : string) : string :=
  match s with
  | EmptyString => EmptyString
  | String c s' => String (Chr.to_lower c) (to_lower s')
  end.

Fixpoint rev_onto (s acc : string) : string :=
  match s with
  | EmptyString => acc
  | String c s' => rev_onto s' (String c acc)
  end.

Definition rev (s : string) : string := rev_onto s EmptyString.

Fixpoint drop_spaces (s : string) : string :=
  match s with
  | String c s' => if Chr.is_space c then drop_spaces s' else s
  | EmptyString => EmptyString
  end.

(** [String.prototype.trim] *)
Definition trim (s : string) : string :=
  rev (drop_spaces (rev (drop_spaces s))).

(** If [p] is a prefix of [s], what follows it. *)
Fixpoint strip_prefix (p s : string) : option string :=
  match p, s with
  | EmptyString, _ => Some s
  | String a p', String b s' =>
      if Chr.eqb a b then strip_prefix p' s' else None
  | String _ _, EmptyString => None
  end.

(** [s.indexOf(p) >= 0] *)
Fixpoint contains (p s : string) : bool :=
  match strip_prefix p s with
  | Some _ => true
  | None =>
      match s with
      | EmptyString => false
      | String _ s' => contains p s'
      end
  end.

(** [s.replace(p, "")] with a string pattern: the first occurrence of [p]
    is removed, and [s] is returned as it is when [p] does not occur. *)
Fixpoint remove_first (p s : string) : string :=
  match strip_prefix p s with
  | Some rest => rest
  | None =>
      match s with
      | EmptyString => EmptyString
      | String c s' => String c (remove_first p s')
      end
  end.

(** The longest prefix of [s] without a line terminator. *)
Fixpoint line_of (s : string) : string :=
  match s with
  | EmptyString => EmptyString
  | String c s' =>
      if Chr.is_line_terminator c then EmptyString else String c (line_of s')
  end.

(** The text before the last [")"] of [s] that has at least one character
    before it: what the greedy group of [(.+)\)] captures on the line [s]. *)
Fixpoint before_last_rparen (s : string) : option string :=
  match s with
  | EmptyString => None
  | String c s' =>
      match before_last_rparen s' with
      | Some g => Some (String c g)
      | None =>
          match s' with
          | String ")" _ => Some (String c EmptyString)
          | _ => None
          end
      end
  end.

End Str.

(** ** Numeric literals: [parseFloat] *)

Module Lit.

(** Reads a run of decimal digits, continuing the value [acc]; returns the
    value, the number of digits read and the rest. *)
Fixpoint digits (s : string) (acc : Z) (n : Z) : Z * Z * string :=
  match s with
  | String c s' =>
      if Chr.is_digit c then digits s' (10 * acc + Chr.digit_val c) (n + 1)
      else (acc, n, s)
  | EmptyString => (acc, n, s)
  end.

Definition pow10 (e : Z) : Q :=
  if 0 <=? e then (10 ^ e # 1)%Q else (1 # Z.to_pos (10 ^ (- e)))%Q.

(** [m * 10^e], negated when [neg]. *)
Definition decimal_value (neg : bool) (m e : Z) : num :=
  Fin (Qred (((if neg then - m else m) # 1) * pow10 e)).

Definition is_e (c : ascii) : bool :=
  (Chr.code c =? 101)%N || (Chr.code c =? 69)%N.

(** ExponentPart, when one is there: [e] or [E], a sign, at least one digit. *)
Definition exponent (s : string) : Z * string :=
  match s with
  | String c s1 =>
      if is_e c then
        let '(sg, s2) :=
          match s1 with
          | String "+" r => (false, r)
          | String "-" r => (true, r)
          | _ => (false, s1)
          end in
        let '(v, n, rest) := digits s2 0 0 in
        if n =? 0 then (0, s) else ((if sg then - v else v), rest)
      else (0, s)
  | EmptyString => (0, s)
  end.

(** StrUnsignedDecimalLiteral without [Infinity]: mantissa, power of ten
    and the rest, for the longest prefix of [s] that is a literal. *)
Definition unsigned_decimal (s : string) : option (Z * Z * string) :=
  let '(i, ni, s1) := digits s 0 0 in
  match s1 with
  | String "." s2 =>
      let '(f, nf, s3) := digits s2 i 0 in
      if (ni =? 0) && (nf =? 0) then None
      else let '(e, rest) := exponent s3 in Some (f, e - nf, rest)
  | _ =>
      if ni =? 0 then None
      else let '(e, rest) := exponent s1 in Some (i, e, rest)
  end.

(** StrDecimalLiteral: the value of the longest prefix and the rest. *)
Definition str_decimal_literal (s : string) : option (num * string) :=
  let '(neg, s1) :=
    match s with
    | String "+" r => (false, r)
    | String "-" r => (true, r)
    | _ => (false, s)
    end in
  match Str.strip_prefix "Infinity" s1 with
  | Some rest => Some (Inf neg, rest)
  | None =>
      match unsigned_decimal s1 with
      | Some (m, e, rest) => Some (decimal_value neg m e, rest)
      | None => None
      end
  end.

End Lit.

(** The global [parseFloat] applied to a string. *)
Definition parseFloat (s : string) : num :=
  match Lit.str_decimal_literal (Str.drop_spaces s) with
  | Some (v, _) => v
  | None => NaN
  end.

(** [parseFloat] applied to an attribute that may be missing:
    [parseFloat(undefined)] and [parseFloat(null)] are [NaN]. *)
Definition parseFloat_opt (s : option string) : num :=
  match s with
  | Some s => parseFloat s
  | None => parseFloat "undefined"
  end.

(** ** [parseFloats] (source lines 277-280) *)

(** [str.replace(/[^eE]-/g, " -")]: every character other than [e] and [E]
    that is followed by a minus sign is replaced, with that sign, by [" -"]. *)
Fixpoint replace_minus (s : string) : string :=
  match s with
  | EmptyString => EmptyString
  | String c t =>
      match t with
      | String "-" s' =>
          if Lit.is_e c then String c (replace_minus t)
          else String " " (String "-" (replace_minus s'))
      | _ => String c (replace_minus t)
      end
  end.

(** [str.split(/\s*\s|,\s*/)]: a separator is a maximal run of white space,
    or a comma with the white space after it.  [cur] is the piece being read
    (reversed), [sep] says that the white space of a separator is being
    skipped. *)
Fixpoint split_go (s : string) (cur : string) (sep : bool) : list string :=
  match s with
  | EmptyString => [Str.rev cur]
  | String c s' =>
      if Chr.is_space c then
        if sep then split_go s' cur true
        else Str.rev cur :: split_go s' EmptyString true
      else if Chr.eqb c "," then Str.rev cur :: split_go s' EmptyString true
      else split_go s' (String c cur) false
  end.

Definition split_floats (s : string) : list string := split_go s EmptyString false.

Definition parseFloats (str : string) : list num :=
  map parseFloat (split_floats (Str.trim (replace_minus str))).

(** [m[i]] on an array of numbers: out of range the read gives [undefined],
    which the arithmetic and the truthiness tests of the source turn into
    [NaN]. *)
Definition idx (m : list num) (i : nat) : num := nth i m NaN.

(** ** Affine matrices *)

(** [new _pdf.Matrix(a, b, c, d, e, f)] *)
Record Matrix : Type := mkMatrix {
  m_a : num; m_b : num; m_c : num; m_d : num; m_e : num; m_f : num
}.

(** [_pdf.unitMatrix] *)
Definition unitMatrix : Matrix := mkMatrix n1 n0 n0 n1 n0 n0.

(** Modelled from the spec: [_pdf.matrixMult] belongs to the PDF backend, which
    is not under src/.  The spec's AffineMatrix composes so that in
    [compose(new, accumulated)] the matrix [new] takes effect in the local
    frame established by [accumulated]; with the row vectors of
    [multVecMatrix] (source lines 282-290) that is the matrix product
    [m1 * m2]: a point goes through [m1] first and through [m2] next. *)
Definition matrixMult (m1 m2 : Matrix) : Matrix :=
  mkMatrix
    (m_a m1 * m_a m2 + m_b m1 * m_c m2)%num
    (m_a m1 * m_b m2 + m_b m1 * m_d m2)%num
    (m_c m1 * m_a m2 + m_d m1 * m_c m2)%num
    (m_c m1 * m_b m2 + m_d m1 * m_d m2)%num
    (m_e m1 * m_a m2 + m_f m1 * m_c m2 + m_e m2)%num
    (m_e m1 * m_b m2 + m_f m1 * m_d m2 + m_f m2)%num.

Definition point : Type := num * num.

(** multiplies a vector with a matrix: vec' = vec * matrix *)
Definition multVecMatrix (vec : point) (matrix : Matrix) : point :=
  let x := vec.1 in
  let y := vec.2 in
  ((m_a matrix * x + m_c matrix * y + m_e matrix)%num,
   (m_b matrix * x + m_d matrix * y + m_f matrix)%num).

(** The functions of [Math] that the source calls.  ECMAScript leaves their
    values implementation-approximated, so they are an interface here. *)
Class MathLib : Type := {
  Math_PI : num;
  Math_cos : num -> num;
  Math_sin : num -> num;
  Math_tan : num -> num;
  Math_atan2 : num -> num -> num
}.

(** ** [parseTransform] (source lines 214-275) *)

(** [/name\((.+)\)/.exec(s)]: the leftmost place where [name(] is followed, on
    the same line, by at least one character and a closing parenthesis; the
    group is greedy and runs to the last such parenthesis.  Returns
    [match[0]] and [match[1]]. *)
Fixpoint exec_call (name : string) (s : string) : option (string * string) :=
  let here :=
    match Str.strip_prefix (name +:+ "(") s with
    | Some rest =>
        match Str.before_last_rparen (Str.line_of rest) with
        | Some g => Some (name +:+ "(" +:+ g +:+ ")", g)
        | None => None
        end
    | None => None
    end in
  match here with
  | Some r => Some r
  | None =>
      match s with
      | EmptyString => None
      | String _ s' => exec_call name s'
      end
  end.

Section ParseTransform.

Context `{MathLib}.

(** The state of the loop: what is left of [transformString], and
    [resultMatrix]. *)
Definition tstate : Type := string * Matrix.

(** One [if (match) { ... }] block of the loop body: [build] makes the new
    [resultMatrix] from the captured group and the old one. *)
Definition on_match (name : string) (build : string -> Matrix -> Matrix)
    (st : tstate) : tstate :=
  match exec_call name st.1 with
  | Some (m0, g) => (Str.remove_first m0 st.1, build g st.2)
  | None => st
  end.

Definition build_matrix (g : string) (resultMatrix : Matrix) : Matrix :=
  let m := parseFloats g in
  matrixMult
    (mkMatrix (idx m 0) (idx m 1) (idx m 2) (idx m 3) (idx m 4) (idx m 5))
    resultMatrix.

Definition build_rotate (g : string) (resultMatrix : Matrix) : Matrix :=
  let m := parseFloats g in
  let a := (Math_PI * idx m 0 / Num.of_Z 180)%num in
  let resultMatrix :=
    matrixMult
      (mkMatrix (Math_cos a) (Math_sin a) (- Math_sin a)%num (Math_cos a) n0 n0)
      resultMatrix in
  if Num.truthy (idx m 1) && Num.truthy (idx m 2) then
    let t1 := mkMatrix n1 n0 n0 n1 (idx m 1) (idx m 2) in
    let t2 := mkMatrix n1 n0 n0 n1 (- idx m 1)%num (- idx m 2)%num in
    matrixMult t2 (matrixMult resultMatrix t1)
  else resultMatrix.

Definition build_translate (g : string) (resultMatrix : Matrix) : Matrix :=
  let m := parseFloats g in
  matrixMult (mkMatrix n1 n0 n0 n1 (idx m 0) (idx m 1 ||| n0)%num) resultMatrix.

Definition build_scale (g : string) (resultMatrix : Matrix) : Matrix :=
  let m := parseFloats g in
  let m1 := if negb (Num.truthy (idx m 1)) then idx m 0 else idx m 1 in
  matrixMult (mkMatrix (idx m 0) n0 n0 m1 n0 n0) resultMatrix.

Definition build_skewX (g : string) (resultMatrix : Matrix) : Matrix :=
  let m := parseFloat g in
  matrixMult (mkMatrix n1 n0 (Math_tan m) n1 n0 n0) resultMatrix.

Definition build_skewY (g : string) (resultMatrix : Matrix) : Matrix :=
  let m := parseFloat g in
  matrixMult (mkMatrix n1 (Math_tan m) n0 n1 n0 n0) resultMatrix.

(** The body of the [while] loop: the six regular expressions are tried in
    the order of the source, each on what the ones before it left. *)
Definition parseTransform_body (st : tstate) : tstate :=
  let st := on_match "matrix" build_matrix st in
  let st := on_match "rotate" build_rotate st in
  let st := on_match "translate" build_translate st in
  let st := on_match "scale" build_scale st in
  let st := on_match "skewX" build_skewX st in
  on_match "skewY" build_skewY st.

(** [while (transformString.length > 0) { body }; return resultMatrix]:
    [None] when [fuel] iterations did not empty the string. *)
Fixpoint parseTransform_loop (fuel : nat) (st : tstate) : option Matrix :=
  match st.1 with
  | EmptyString => Some st.2
  | String _ _ =>
      match fuel with
      | O => None
      | S fuel' => parseTransform_loop fuel' (parseTransform_body st)
      end
  end.

(** [transformString] is [None] for an attribute that is not there
    ([null] or [undefined]). *)
Definition parseTransform (fuel : nat) (transformString : option string)
    : option Matrix :=
  match transformString with
  | None | Some EmptyString => Some unitMatrix
  | Some s => parseTransform_loop fuel (s, unitMatrix)
  end.

End ParseTransform.

(** ** Path segments (source lines 17-115) *)

(** An entry of [pathSegList].  A coordinate the command does not have is
    [undefined] in the source; every use of one is arithmetic, so it is
    [NaN] here. *)
Record PathSeg : Type := mkPathSeg {
  pathSegTypeAsLetter : ascii;
  seg_x : num; seg_y : num;
  seg_x1 : num; seg_y1 : num;
  seg_x2 : num; seg_y2 : num
}.

Definition emptySeg (type : ascii) : PathSeg :=
  mkPathSeg type NaN NaN NaN NaN NaN NaN.

Definition with_xy (x y : num) (s : PathSeg) : PathSeg :=
  mkPathSeg (pathSegTypeAsLetter s) x y (seg_x1 s) (seg_y1 s) (seg_x2 s) (seg_y2 s).
Definition with_1 (x1 y1 : num) (s : PathSeg) : PathSeg :=
  mkPathSeg (pathSegTypeAsLetter s) (seg_x s) (seg_y s) x1 y1 (seg_x2 s) (seg_y2 s).
Definition with_2 (x2 y2 : num) (s : PathSeg) : PathSeg :=
  mkPathSeg (pathSegTypeAsLetter s) (seg_x s) (seg_y s) (seg_x1 s) (seg_y1 s) x2 y2.

(** [cmd] is one of the letters of [set]: ["sScC".indexOf(cmd) >= 0] for a
    one-letter [cmd]. *)
Fixpoint one_of (set : string) (cmd : ascii) : bool :=
  match set with
  | EmptyString => false
  | String c set' => Chr.eqb c cmd || one_of set' cmd
  end.

(** The [switch (type)] of [getPathSegList], with its fall-through from
    [c]/[C] to [s]/[S] and on to the end-point cases. *)
Definition makePathSeg (type : ascii) (coords : list num) : PathSeg :=
  let pathSeg := emptySeg type in
  if one_of "hH" type then
    mkPathSeg type (idx coords 0) NaN NaN NaN NaN NaN
  else if one_of "vV" type then
    mkPathSeg type NaN (idx coords 0) NaN NaN NaN NaN
  else if one_of "cC" type then
    with_xy (idx coords 1) (idx coords 0)
      (with_2 (idx coords 3) (idx coords 2)
        (with_1 (idx coords 5) (idx coords 4) pathSeg))
  else if one_of "sS" type then
    with_xy (idx coords 1) (idx coords 0)
      (with_2 (idx coords 3) (idx coords 2) pathSeg)
  else if one_of "tTlLmM" type then
    with_xy (idx coords 1) (idx coords 0) pathSeg
  else if one_of "qQ" type then
    with_xy (idx coords 1) (idx coords 0)
      (with_1 (idx coords 3) (idx coords 2) pathSeg)
  else pathSeg.

(** The [while (match = regex.exec(d))] loop: the expression finds the next
    letter and takes the characters up to the following letter as its
    arguments.  [args] holds the characters read since the letter [cur]
    (reversed). *)
Fixpoint segs_go (d : string) (cur : option ascii) (args : string) : list PathSeg :=
  let flush :=
    match cur with
    | Some type => [makePathSeg type (rev (parseFloats (Str.rev args)))]
    | None => []
    end in
  match d with
  | EmptyString => flush
  | String c d' =>
      if Chr.is_letter c then flush ++ segs_go d' (Some c) EmptyString
      else segs_go d' cur (String c args)
  end.

(** [getPathSegList] when the node has no native [pathSegList]: [d] is the
    value of [getAttribute("d")], and a missing attribute is the text
    ["null"] to [regex.exec]. *)
Definition parse_d (d : option string) : list PathSeg :=
  segs_go (default "null" d) None EmptyString.

(** mirrors p1 at p2 *)
Definition mirrorPoint (p1 p2 : point) : point :=
  let dx := (p2.1 - p1.1)%num in
  let dy := (p2.2 - p1.2)%num in
  ((p1.1 + Num.of_Z 2 * dx)%num, (p1.2 + Num.of_Z 2 * dy)%num).

(** ratio to convert quadratic bezier curves to cubic ones *)
Definition cToQ : num := (Num.of_Z 2 / Num.of_Z 3)%num.

(** returns from + (2/3) * (to - from) *)
Definition toCubic (from to : point) : point :=
  ((cToQ * (to.1 - from.1) + from.1)%num, (cToQ * (to.2 - from.2) + from.2)%num).

(** [list.getItem(i - 1)] for [i > 0]. *)
Definition getItem (list : list PathSeg) (i : nat) : option PathSeg := nth_error list i.

(** extracts a control point from a previous path segment (for t,T,s,S
    segments).  [prev] is only inspected under [i > 0]; were the entry
    missing there, the read of its letter would throw, which cannot happen
    for [i] within the list. *)
Definition getControlPointFromPrevious
    (i : nat) (from : point) (list : list PathSeg) (prevX prevY : num) : point :=
  match i with
  | O => (from.1, from.2)
  | S i' =>
      match getItem list i' with
      | Some prev =>
          if one_of "CS" (pathSegTypeAsLetter prev) then
            mirrorPoint (seg_x2 prev, seg_y2 prev) from
          else if one_of "cs" (pathSegTypeAsLetter prev) then
            mirrorPoint ((seg_x2 prev + prevX)%num, (seg_y2 prev + prevY)%num) from
          else (from.1, from.2)
      | None => (from.1, from.2)
      end
  end.

(** ** Scope prefixes and the definitions map (source lines 117-152) *)

(** The object made by [new SvgPrefix(prefix)]: its [prefix] and the counter
    [id] that [nextChild] increments. *)
Record SvgPrefix : Type := mkSvgPrefix {
  prefix_get : string;
  prefix_id : nat
}.

Definition newSvgPrefix (prefix : string) : SvgPrefix := mkSvgPrefix prefix 0.

Definition nat_to_string (n : nat) : string :=
  DecimalString.NilZero.string_of_uint (Nat.to_uint n).

(** [nextChild]: the prefix of the child, and the object itself after
    [this.id++]. *)
Definition nextChild (p : SvgPrefix) : SvgPrefix * SvgPrefix :=
  (newSvgPrefix ("_" +:+ nat_to_string (prefix_id p) +:+ "_" +:+ prefix_get p),
   mkSvgPrefix (prefix_get p) (S (prefix_id p))).

Module Seg.

Fixpoint skip_digits (s : string) : string :=
  match s with
  | String c s' => if Chr.is_digit c then skip_digits s' else s
  | EmptyString => EmptyString
  end.

(** A match of [/_\d+_/] at the head of [s]: what follows it. *)
Definition here (s : string) : option string :=
  match s with
  | String "_" (String d s') =>
      if Chr.is_digit d then
        match skip_digits s' with
        | String "_" rest => Some rest
        | _ => None
        end
      else None
  | _ => None
  end.

(** [id.replace(/_\d+_/, "")] when the expression matches: the leftmost
    match is removed.  [None] when [regExp.exec(id)] is [null]. *)
Fixpoint strip (s : string) : option string :=
  match here s with
  | Some rest => Some rest
  | None =>
      match s with
      | EmptyString => None
      | String c s' => String c <$> strip s'
      end
  end.

End Seg.

(** The members that a plain object inherits from [Object.prototype].
    [defs] is made as [{}] and filled by assignments [defs[id] = node]; a
    map stands for the object with these properties of its own and with
    [Object.prototype] as its prototype.  (The one assignment that adds no
    property, [defs["__proto__"] = node], is kept as a key like the
    others.) *)
Definition object_prototype_members : list string :=
  ["constructor"; "hasOwnProperty"; "isPrototypeOf"; "propertyIsEnumerable";
   "toLocaleString"; "toString"; "valueOf"; "__proto__";
   "__defineGetter__"; "__defineSetter__"; "__lookupGetter__";
   "__lookupSetter__"].

Definition inherited (id : string) : bool :=
  existsb (String.eqb id) object_prototype_members.

Section Defs.

(** What the map holds: in the source, DOM nodes. *)
Context {V : Type}.

(** What [defs[id]] reads from the plain object [defs = {}]: a property
    of its own, put there by [putGradient]; a member that every plain
    object inherits from [Object.prototype]; or [undefined]. *)
Inductive member : Type :=
  | Own (node : V)
  | Inherited
  | Undefined.

(** [defs[id]]: an own property shadows an inherited member. *)
Definition read_defs (defs : gmap string V) (id : string) : member :=
  match defs !! id with
  | Some node => Own node
  | None => if inherited id then Inherited else Undefined
  end.

(** The [while (!defs[id] && regExp.exec(id))] loop.  A node and an
    inherited member are both truthy and stop it.  Every round shortens
    [id], so [length id] rounds are enough ([getFromDefs_member_unfold]). *)
Fixpoint getFromDefs_loop (fuel : nat) (id : string) (defs : gmap string V)
    : member :=
  match read_defs defs id with
  | Undefined =>
      match fuel with
      | O => Undefined
      | S fuel' =>
          match Seg.strip id with
          | Some id' => getFromDefs_loop fuel' id' defs
          | None => Undefined
          end
      end
  | found => found
  end.

(** returns the node for the specified id or incrementally removes prefixes
    to search "higher" levels: the value the source function returns. *)
Definition getFromDefs_member (id : string) (defs : gmap string V) : member :=
  getFromDefs_loop (String.length id) id defs.

(** The node that [getFromDefs] returns, when it returns a node.  The one
    caller reads [tagName.toLowerCase()] of the result, which throws a
    TypeError for an inherited member as it does for [undefined]. *)
Definition getFromDefs (id : string) (defs : gmap string V) : option V :=
  match getFromDefs_member id defs with
  | Own node => Some node
  | Inherited | Undefined => None
  end.

(** clones the defs object: a new object with the same own properties. *)
Definition cloneDefs (defs : gmap string V) : gmap string V := defs.

End Defs.

(** ** The document tree *)

(** A DOM node is an object with an identity: the tree is a store of elements
    addressed by [loc], so that a clone and its original are told apart and a
    [removeChild] is a write. *)
Definition loc : Type := nat.

Record Element : Type := mkElement {
  tagName : string;
  (** the attributes, as [getAttribute] and jQuery's [attr] read them *)
  attributes : list (string * string);
  (** the properties of [node.style] that are set *)
  style : list (string * string);
  (** the element children, in document order *)
  children : list loc;
  parentNode : option loc;
  (** what jQuery's [text()] returns *)
  textContent : string;
  (** the native [pathSegList], in the browsers that still have one *)
  pathSegList : option (list PathSeg)
}.

Definition emptyElement (tag : string) : Element :=
  mkElement tag [] [] [] None EmptyString None.

Definition set_children (kids : list loc) (e : Element) : Element :=
  mkElement (tagName e) (attributes e) (style e) kids (parentNode e)
    (textContent e) (pathSegList e).

Definition set_parentNode (p : option loc) (e : Element) : Element :=
  mkElement (tagName e) (attributes e) (style e) (children e) p
    (textContent e) (pathSegList e).

Definition set_attribute (name value : string) (e : Element) : Element :=
  mkElement (tagName e) ((name, value) :: attributes e) (style e) (children e)
    (parentNode e) (textContent e) (pathSegList e).

Fixpoint assoc (name : string) (l : list (string * string)) : option string :=
  match l with
  | [] => None
  | (k, v) :: l' => if String.eqb k name then Some v else assoc name l'
  end.

(** [n.attr(name)] and [node.getAttribute(name)]: the value, or [undefined]
    (respectively [null]) when the attribute is not there. *)
Definition attr (e : Element) (name : string) : option string :=
  assoc name (attributes e).

Definition hasAttribute (e : Element) (name : string) : bool :=
  bool_decide (is_Some (attr e name)).

(** ToBoolean of a value that is a string, [undefined] or [null]. *)
Definition truthy_str (s : option string) : bool :=
  match s with
  | Some (String _ _) => true
  | _ => false
  end.

(** [a || b] on such values. *)
Definition or_str (a b : option string) : option string :=
  if truthy_str a then a else b.

(** returns an attribute of a node, either from the node directly or from css *)
Definition getAttribute (node : Element) (propertyNode : string) : option string :=
  or_str (attr node propertyNode) (assoc propertyNode (style node)).

(** [node.tagName.toLowerCase()] *)
Definition tag (e : Element) : string := Str.to_lower (tagName e).

(** jQuery's [n.is("a,b,c")] for a list of tag names. *)
Definition is_ (e : Element) (tags : list string) : bool :=
  existsb (String.eqb (tag e)) tags.

(** ["" + v] for a value that may be [undefined]. *)
Definition str_of (v : option string) : string := default "undefined" v.

(** ToNumber of a string: the whole trimmed text has to be a numeric literal,
    and the empty text is 0. *)
Module ToNum.

Definition hex_val (c : ascii) : option Z :=
  let n := Chr.code c in
  if Chr.is_digit c then Some (Z.of_N n - 48)
  else if ((97 <=? n) && (n <=? 102))%N then Some (Z.of_N n - 87)
  else if ((65 <=? n) && (n <=? 70))%N then Some (Z.of_N n - 55)
  else None.

(** The value of [s] read in [base], when [s] is a non-empty run of digits
    of that base. *)
Fixpoint radix (base : Z) (s : string) (acc : Z) (seen : bool) : option Z :=
  match s with
  | EmptyString => if seen then Some acc else None
  | String c s' =>
      match hex_val c with
      | Some v => if v <? base then radix base s' (base * acc + v) true else None
      | None => None
      end
  end.

Definition prefixed (s : string) : option (option Z) :=
  match s with
  | String "0" (String c r) =>
      if one_of "xX" c then Some (radix 16 r 0 false)
      else if one_of "oO" c then Some (radix 8 r 0 false)
      else if one_of "bB" c then Some (radix 2 r 0 false)
      else None
  | _ => None
  end.

Definition of_string (s : string) : num :=
  let t := Str.trim s in
  match t with
  | EmptyString => n0
  | _ =>
      match prefixed t with
      | Some (Some v) => Num.of_Z v
      | Some None => NaN
      | None =>
          match Lit.str_decimal_literal t with
          | Some (v, EmptyString) => v
          | _ => NaN
          end
      end
  end.

(** ToNumber of an attribute value: [undefined] is [NaN]. *)
Definition of_attr (s : option string) : num :=
  match s with
  | Some s => of_string s
  | None => NaN
  end.

End ToNum.

(** [/url\(#(\w+)\)/.exec(s)]: the group of the leftmost match. *)
Module Url.

Fixpoint span_word (s : string) : string * string :=
  match s with
  | EmptyString => (EmptyString, EmptyString)
  | String c s' =>
      if Chr.is_word c then let '(a, r) := span_word s' in (String c a, r)
      else (EmptyString, s)
  end.

Definition here (s : string) : option string :=
  match Str.strip_prefix "url(#" s with
  | Some rest =>
      match span_word rest with
      | (String c w, String ")" _) => Some (String c w)
      | _ => None
      end
  | None => None
  end.

Fixpoint exec (s : string) : option string :=
  match here s with
  | Some g => Some g
  | None =>
      match s with
      | EmptyString => None
      | String _ s' => exec s'
      end
  end.

End Url.

(** ** The PDF backend and the other collaborators *)

(** A value that is a string, a number or [undefined], where the source hands
    one on without looking at it. *)
Inductive jsval : Type :=
  | VUndef
  | VStr (s : string)
  | VNum (n : num).

Definition val_of (s : option string) : jsval :=
  match s with Some s => VStr s | None => VUndef end.

(** [a || n] for an attribute [a] and a number [n]. *)
Definition val_or (a : option string) (n : num) : jsval :=
  if truthy_str a then val_of a else VNum n.

(** What [new RGBColor(s)] exposes. *)
Record RGBColor_t : Type := mkRGB {
  rgb_ok : bool; rgb_r : num; rgb_g : num; rgb_b : num
}.

(** An entry of the [lines] array handed to [_pdf.path]. *)
Inductive lineop : Type :=
  | op_m (c : point)
  | op_l (c : point)
  | op_c (c1 c2 c3 : point)
  | op_h.

(** [new _pdf.Pattern(type, coords, colors, gState)]; [gState] is the opacity
    of the [GState], when there is one. *)
Record Pattern : Type := mkPattern {
  pat_type : string;
  pat_coords : list jsval;
  pat_colors : list (num * (num * num * num));
  pat_gState : option num
}.

(** The calls the source makes on [_pdf], with their arguments. *)
Module Pdf.

Inductive call : Type :=
  | saveGraphicsState
  | restoreGraphicsState
  | beginFormObject (x y w h : num) (m : Matrix)
  | endFormObject (id : string)
  | doFormObject (id : string) (m : Matrix)
  | setCurrentTransformationMatrix (m : Matrix)
  | setGState (opacity : num)
  | setFillColor (r g b : num)
  | setDrawColor (r g b : num)
  | setTextColor (r g b : num)
  | setLineWidth (w : num)
  | setLineCap (s : string)
  | setLineJoin (s : string)
  | setLineDashPattern (pattern : list num) (offset : num)
  | setFont (name : string)
  | setFontType (type : option string)
  | setFontSize (size : num)
  | text (x y : num) (s : string) (m : Matrix)
  | path (lines : list lineop) (colorMode : option string)
      (gradient : option string) (gradientMatrix : option Matrix)
  | roundedRect (x y w h rx ry : num) (colorMode : option string)
      (gradient : option string) (gradientMatrix : option Matrix)
  | ellipse (cx cy rx ry : num) (colorMode : option string)
      (gradient : option string) (gradientMatrix : option Matrix)
  | line (x1 y1 x2 y2 : num)
  | addImage (data : string) (format : string) (x y w h : num)
  | addPattern (id : string) (pattern : Pattern).

End Pdf.

(** What a call gives: the value it returns, or the error it throws. *)
Inductive outcome (A : Type) : Type :=
  | Ok (a : A)
  | Throw (error : string).
Arguments Ok {A} a.
Arguments Throw {A} error.

(** The collaborators that are not part of the repository: the color
    parser, the backend's registry of form objects (asked with the calls the
    backend has received so far), the browser's text measurement and the
    canvas encoder.  The two measurements are calls into the browser that
    can throw: [getBBox] does for an element that is not rendered. *)
Class Collaborators : Type := {
  RGBColor : option string -> RGBColor_t;
  getFormObject : list Pdf.call -> string -> option (num * num);
  getBBox_width : Element -> outcome num;
  getComputedTextLength : Element -> outcome num;
  toDataURL : option string -> num -> num -> string
}.

(** ** The state the source works on, and the monad of the traversal *)

Record World : Type := mkWorld {
  (** the nodes of every document *)
  w_nodes : gmap loc Element;
  (** the next unused address *)
  w_next : loc;
  (** [document.body] *)
  w_body : loc;
  (** the calls [_pdf] has received, oldest first *)
  w_pdf : list Pdf.call;
  (** the global [p] that [getLinesFromPath] assigns without declaring it;
      [None] until the first assignment *)
  w_p : option point
}.

(** A computation returns a value or throws, in a new state; it gives [None]
    when it needs more than the fuel it was given, that is, when the source
    does not return. *)
Definition M (A : Type) : Type := World -> option (outcome A * World).

#[global] Instance M_ret : MRet M := fun A a w => Some (Ok a, w).

#[global] Instance M_bind : MBind M := fun A B k m w =>
  match m w with
  | Some (Ok a, w') => k a w'
  | Some (Throw e, w') => Some (Throw e, w')
  | None => None
  end.

Definition throw {A : Type} (e : string) : M A := fun w => Some (Throw e, w).

Definition diverge {A : Type} : M A := fun _ => None.

Definition get_world : M World := fun w => Some (Ok w, w).

Definition set_world (f : World -> World) : M unit := fun w => Some (Ok tt, f w).

(** A pure computation that may throw. *)
Definition lift {A : Type} (r : outcome A) : M A :=
  match r with
  | Ok a => mret a
  | Throw e => throw e
  end.

(** A pure computation that may not return. *)
Definition lift_fuel {A : Type} (r : option A) : M A :=
  match r with
  | Some a => mret a
  | None => diverge
  end.

Definition TypeError : string := "TypeError".

(** The state after one more call on [_pdf]. *)
Definition add_call (c : Pdf.call) (w : World) : World :=
  mkWorld (w_nodes w) (w_next w) (w_body w) (w_pdf w ++ [c]) (w_p w).

Definition with_p (p : point) (w : World) : World :=
  mkWorld (w_nodes w) (w_next w) (w_body w) (w_pdf w) (Some p).

Definition with_nodes (nodes : gmap loc Element) (next : loc) (w : World) : World :=
  mkWorld nodes next (w_body w) (w_pdf w) (w_p w).

(** A call on [_pdf]. *)
Definition emit (c : Pdf.call) : M unit := set_world (add_call c).

Definition set_p (p : point) : M unit := set_world (with_p p).

(** Reading the global [p]: a [ReferenceError] while it was never assigned. *)
Definition get_p : M point :=
  w ← get_world;
  match w_p w with
  | Some p => mret p
  | None => throw "ReferenceError"
  end.

(** The element at an address.  Every address the traversal meets comes out
    of the store; for one that is not in it the read gives an empty element. *)
Definition node_at (w : World) (l : loc) : Element :=
  default (emptyElement EmptyString) (w_nodes w !! l).

Definition get_node (l : loc) : M Element :=
  w ← get_world; mret (node_at w l).

Definition write_node (l : loc) (f : Element -> Element) (w : World) : World :=
  with_nodes (<[l := f (node_at w l)]> (w_nodes w)) (w_next w) w.

Definition update_node (l : loc) (f : Element -> Element) : M unit :=
  set_world (write_node l f).

(** A new node, attached nowhere. *)
Definition alloc (e : Element) : M loc :=
  w ← get_world;
  set_world (fun w => with_nodes (<[w_next w := e]> (w_nodes w)) (S (w_next w)) w);;
  mret (w_next w).

(** [parent.removeChild(child)] for a child of [parent]. *)
Definition removeChild (parent child : loc) : M unit :=
  update_node parent (fun e => set_children (filter (fun c => c ≠ child) (children e)) e);;
  update_node child (set_parentNode None).

(** [parent.appendChild(child)]: the child leaves its former parent. *)
Definition appendChild (parent child : loc) : M unit :=
  c ← get_node child;
  match parentNode c with
  | Some old => removeChild old child
  | None => mret tt
  end;;
  update_node parent (fun e => set_children (children e ++ [child]) e);;
  update_node child (set_parentNode (Some parent)).

(** [n.children().each(f)]: jQuery takes the list of children once, and [f]
    is run on each of them in turn. *)
Fixpoint each {S : Type} (f : loc -> S -> M S) (kids : list loc) (s : S) : M S :=
  match kids with
  | [] => mret s
  | child :: kids' => s' ← f child s; each f kids' s'
  end.

(** The copies of the children of a node that is being cloned, in order. *)
Fixpoint clone_children (clone : loc -> M loc) (kids : list loc) : M (list loc) :=
  match kids with
  | [] => mret []
  | k :: kids' =>
      k' ← clone k;
      rest ← clone_children clone kids';
      mret (k' :: rest)
  end.

(** [node.cloneNode(true)]: a copy of the node and of its descendants, with
    no parent.  [fuel] bounds the depth of the tree. *)
Fixpoint cloneNode (fuel : nat) (l : loc) (parent : option loc) : M loc :=
  match fuel with
  | O => diverge
  | S fuel' =>
      e ← get_node l;
      copy ← alloc (set_parentNode parent (set_children [] e));
      kids ← clone_children (fun k => cloneNode fuel' k (Some copy)) (children e);
      update_node copy (set_children kids);;
      mret copy
  end.

(** What [appendChild] does first: the child leaves its former parent. *)
Definition detach (child : loc) (w : World) : World :=
  match parentNode (node_at w child) with
  | Some old =>
      write_node child (set_parentNode None)
        (write_node old
           (fun e => set_children (filter (fun c => c ≠ child) (children e)) e) w)
  | None => w
  end.

(** ** Node transforms and bounding boxes (source lines 154-212, 292-457) *)

Module MathFn.

(** [Math.min] and [Math.max] of two numbers: [NaN] when one of them is. *)
Definition min2 (x y : num) : num :=
  match x, y with
  | NaN, _ | _, NaN => NaN
  | _, _ => if Num.ltb y x then y else x
  end.

Definition max2 (x y : num) : num :=
  match x, y with
  | NaN, _ | _, NaN => NaN
  | _, _ => if Num.ltb x y then y else x
  end.

(** [Math.min(x, y1, ..., yn)] *)
Definition min (x : num) (ys : list num) : num := foldl min2 x ys.
Definition max (x : num) (ys : list num) : num := foldl max2 x ys.

End MathFn.

Definition POSITIVE_INFINITY : num := Inf false.
Definition NEGATIVE_INFINITY : num := Inf true.

(** [parseTransform] with as many rounds as the string has characters.  A
    round that matches removes what it matched and a round that matches
    nothing changes nothing, so this decides whether the loop returns
    ([parseTransform_decided]). *)
Definition parseTransform_run `{MathLib} (transformString : option string)
    : option Matrix :=
  parseTransform (String.length (default EmptyString transformString)) transformString.

Section Geometry.

Context `{MathLib}.

(** The scaling block shared by the [svg,g] and the [marker] branch:
    [bounds], [viewBoxWidth], [viewBoxHeight], [width], [height]. *)
Definition viewBox_dims (viewBox : string) (width height : option string)
    : list num * num * num * num * num :=
  let bounds := parseFloats viewBox in
  let viewBoxWidth := (idx bounds 2 - idx bounds 0)%num in
  let viewBoxHeight := (idx bounds 3 - idx bounds 1)%num in
  let width := (parseFloat_opt width ||| viewBoxWidth)%num in
  let height := (parseFloat_opt height ||| viewBoxHeight)%num in
  (bounds, viewBoxWidth, viewBoxHeight, width, height).

(** computes the transform directly applied at the node (such as viewbox
    scaling and the "transform" atrribute); [None] when [parseTransform]
    does not return. *)
Definition computeNodeTransform (node : Element) : option Matrix :=
  let nodeTransform :=
    if is_ node ["svg"; "g"] then
      let x := (parseFloat_opt (attr node "x") ||| n0)%num in
      let y := (parseFloat_opt (attr node "y") ||| n0)%num in
      let viewBox := attr node "viewBox" in
      if truthy_str viewBox then
        let '(bounds, viewBoxWidth, viewBoxHeight, width, height) :=
          viewBox_dims (str_of viewBox) (attr node "width") (attr node "height") in
        mkMatrix (width / viewBoxWidth)%num n0 n0 (height / viewBoxHeight)%num
          (x - idx bounds 0)%num (y - idx bounds 1)%num
      else mkMatrix n1 n0 n0 n1 x y
    else if is_ node ["marker"] then
      let x := ((- parseFloat_opt (attr node "refX")) ||| n0)%num in
      let y := ((- parseFloat_opt (attr node "refY")) ||| n0)%num in
      let viewBox := attr node "viewBox" in
      if truthy_str viewBox then
        let '(bounds, viewBoxWidth, viewBoxHeight, width, height) :=
          viewBox_dims (str_of viewBox)
            (attr node "markerWidth") (attr node "markerHeight") in
        let s := mkMatrix (width / viewBoxWidth)%num n0 n0
                   (height / viewBoxHeight)%num n0 n0 in
        let t := mkMatrix n1 n0 n0 n1 (x - idx bounds 0)%num (y - idx bounds 1)%num in
        matrixMult t s
      else mkMatrix n1 n0 n0 n1 x y
    else unitMatrix in
  let transformString := attr node "transform" in
  if negb (truthy_str transformString) then Some nodeTransform
  else matrixMult nodeTransform <$> parseTransform_run transformString.

End Geometry.

(** parses the "points" string used by polygons and returns an array of
    points: [for (i = 0; i < floats.length - 1; i += 2)]. *)
Fixpoint pair_up (floats : list num) : list point :=
  match floats with
  | x :: y :: rest => (x, y) :: pair_up rest
  | _ => []
  end.

(** [parseFloats(undefined)] throws: [undefined] has no [replace]. *)
Definition parsePointsString (string : option string) : outcome (list point) :=
  match string with
  | Some s => Ok (pair_up (parseFloats s))
  | None => Throw TypeError
  end.

(** [getPathSegList] *)
Definition getPathSegList (node : Element) : list PathSeg :=
  match pathSegList node with
  | Some l => l
  | None => parse_d (attr node "d")
  end.

Definition BBox : Type := num * num * num * num.

(** The variables of the loop over the path in [getUntransformedBBox]; [pf]
    is [undefined] until a quadratic segment assigns it. *)
Record bbox_vars : Type := mkBV {
  bv_x : num; bv_y : num;
  bv_prevX : num; bv_prevY : num;
  bv_pf : option point;
  bv_minX : num; bv_minY : num; bv_maxX : num; bv_maxY : num
}.

(** One round of that loop, for the segment [seg] at index [i]. *)
Definition bbox_step (list : list PathSeg) (i : nat) (seg : PathSeg)
    (v : bbox_vars) : outcome bbox_vars :=
  let cmd := pathSegTypeAsLetter seg in
  let on (c : string) := one_of c cmd in
  let x := if on "H" then seg_x seg else if on "h" then (seg_x seg + bv_x v)%num
           else bv_x v in
  let y := if on "V" then seg_y seg else if on "v" then (seg_y seg + bv_y v)%num
           else bv_y v in
  let prev := getControlPointFromPrevious i (x, y) list (bv_prevX v) (bv_prevY v) in
  let abs1 := (seg_x1 seg, seg_y1 seg) in
  let rel1 := ((seg_x1 seg + x)%num, (seg_y1 seg + y)%num) in
  let abs2 := (seg_x2 seg, seg_y2 seg) in
  let rel2 := ((seg_x2 seg + x)%num, (seg_y2 seg + y)%num) in
  let abs := (seg_x seg, seg_y seg) in
  let rel := ((seg_x seg + x)%num, (seg_y seg + y)%num) in
  let quad (pf : point) (to : point) :=
    Ok (Some pf, Some (toCubic (x, y) pf, toCubic to pf, to)) in
  let curve : outcome (option point * option (point * point * point)) :=
    if on "C" then Ok (bv_pf v, Some (abs1, abs2, abs))
    else if on "c" then Ok (bv_pf v, Some (rel1, rel2, rel))
    else if on "S" then Ok (bv_pf v, Some (prev, abs2, abs))
    else if on "s" then Ok (bv_pf v, Some (prev, rel2, rel))
    else if on "Q" then quad abs1 abs
    else if on "q" then quad rel1 rel
    else if on "T" then
      match bv_pf v with
      | Some pf => quad pf abs
      | None => Throw TypeError
      end
    else if on "t" then quad prev rel
    else Ok (bv_pf v, None) in
  match curve with
  | Throw e => Throw e
  | Ok (pf, pts) =>
      let '(prevX, prevY) :=
        if one_of "sScCqQtT" cmd then (x, y) else (bv_prevX v, bv_prevY v) in
      let '(x, y) :=
        if one_of "MLCSQT" cmd then (seg_x seg, seg_y seg)
        else if one_of "mlcsqt" cmd then ((seg_x seg + x)%num, (seg_y seg + y)%num)
        else (x, y) in
      let '(xs, ys) :=
        match pts with
        | Some (p2, p3, to) => ([x; p2.1; p3.1; to.1], [y; p2.2; p3.2; to.2])
        | None => ([x], [y])
        end in
      Ok (mkBV x y prevX prevY pf
            (MathFn.min (bv_minX v) xs) (MathFn.min (bv_minY v) ys)
            (MathFn.max (bv_maxX v) xs) (MathFn.max (bv_maxY v) ys))
  end.

Fixpoint bbox_loop (list : list PathSeg) (i : nat) (rest : Datatypes.list PathSeg)
    (v : bbox_vars) : outcome bbox_vars :=
  match rest with
  | [] => Ok v
  | seg :: rest' =>
      match bbox_step list i seg v with
      | Ok v' => bbox_loop list (S i) rest' v'
      | Throw e => Throw e
      end
  end.

Definition bbox_of (minX minY maxX maxY : num) : BBox :=
  (minX, minY, (maxX - minX)%num, (maxY - minY)%num).

(** returns the untransformated bounding box of an svg element *)
Definition getUntransformedBBox (node : Element) : outcome BBox :=
  let pf := parseFloat_opt in
  if is_ node ["polygon"] then
    match parsePointsString (attr node "points") with
    | Throw e => Throw e
    | Ok points =>
        Ok (bbox_of
              (foldl (fun m p => MathFn.min m [p.1]) POSITIVE_INFINITY points)
              (foldl (fun m p => MathFn.min m [p.2]) POSITIVE_INFINITY points)
              (foldl (fun m p => MathFn.max m [p.1]) NEGATIVE_INFINITY points)
              (foldl (fun m p => MathFn.max m [p.2]) NEGATIVE_INFINITY points))
    end
  else if is_ node ["path"] then
    let list := getPathSegList node in
    match bbox_loop list 0 list
            (mkBV n0 n0 NaN NaN None POSITIVE_INFINITY POSITIVE_INFINITY
               NEGATIVE_INFINITY NEGATIVE_INFINITY) with
    | Throw e => Throw e
    | Ok v => Ok (bbox_of (bv_minX v) (bv_minY v) (bv_maxX v) (bv_maxY v))
    end
  else
    let viewBox := attr node "viewBox" in
    let vb := if truthy_str viewBox then parseFloats (str_of viewBox) else [] in
    if is_ node ["svg"] then
      Ok ((pf (attr node "x") ||| (idx vb 0 ||| n0))%num,
          (pf (attr node "y") ||| (idx vb 1 ||| n0))%num,
          (pf (attr node "width") ||| (idx vb 2 ||| n0))%num,
          (pf (attr node "height") ||| (idx vb 3 ||| n0))%num)
    else if is_ node ["marker"] then
      Ok ((idx vb 0 ||| n0)%num,
          (idx vb 1 ||| n0)%num,
          (idx vb 2 ||| (pf (attr node "marker-width") ||| n0))%num,
          (idx vb 3 ||| (pf (attr node "marker-height") ||| n0))%num)
    else
      (* [pf(node.attr("cx") - pf(node.attr("r")))]: the difference is a
         number already, and [parseFloat] of a number gives it back *)
      let x1 := (pf (attr node "x1") ||| (pf (attr node "x") |||
                  ((ToNum.of_attr (attr node "cx") - pf (attr node "r")) ||| n0)))%num in
      let x2 := (pf (attr node "x2") ||| ((x1 + pf (attr node "width")) |||
                  ((pf (attr node "cx") + pf (attr node "r")) ||| n0)))%num in
      let y1 := (pf (attr node "y1") ||| (pf (attr node "y") |||
                  ((pf (attr node "cy") - pf (attr node "r")) ||| n0)))%num in
      let y2 := (pf (attr node "y2") ||| ((y1 + pf (attr node "height")) |||
                  ((pf (attr node "cy") + pf (attr node "r")) ||| n0)))%num in
      Ok (bbox_of (MathFn.min2 x1 x2) (MathFn.min2 y1 y2)
                  (MathFn.max2 x1 x2) (MathFn.max2 y1 y2)).

(** transforms a bounding box and returns a new rect that contains it *)
Definition transformBBox (box : BBox) (matrix : Matrix) : BBox :=
  let '(b0, b1, b2, b3) := box in
  let bl := multVecMatrix (b0, b1) matrix in
  let br := multVecMatrix ((b0 + b2)%num, b1) matrix in
  let tl := multVecMatrix (b0, (b1 + b3)%num) matrix in
  let tr := multVecMatrix ((b0 + b2)%num, (b1 + b3)%num) matrix in
  let bottom := MathFn.min bl.2 [br.2; tl.2; tr.2] in
  let left := MathFn.min bl.1 [br.1; tl.1; tr.1] in
  let top := MathFn.max bl.2 [br.2; tl.2; tr.2] in
  let right := MathFn.max bl.1 [br.1; tl.1; tr.1] in
  (left, bottom, (right - left)%num, (top - bottom)%num).

(** ** Drawing the shapes (source lines 479-758) *)

(** The variables of the loop of [getLinesFromPath]; [from] and [to] are
    [undefined] until a segment assigns them. *)
Record path_vars : Type := mkPV {
  pv_x : num; pv_y : num;
  pv_x0 : num; pv_y0 : num;
  pv_prevX : num; pv_prevY : num;
  pv_from : option point; pv_to : option point;
  pv_lines : list lineop;
  pv_markers : list Matrix
}.

Section Shapes.

Context `{MathLib} `{Collaborators}.

(** What the [switch (cmd)] of [getLinesFromPath] computes for a curve
    command: [p2], [p3] and [to].  The quadratic cases go through the
    global [p]. *)
Definition curve_case (list : list PathSeg) (i : nat) (seg : PathSeg)
    (v : path_vars) : M (point * point * point) :=
  let cmd := pathSegTypeAsLetter seg in
  let on (c : string) := one_of c cmd in
  let x := pv_x v in
  let y := pv_y v in
  let abs := (seg_x seg, seg_y seg) in
  let rel := ((seg_x seg + x)%num, (seg_y seg + y)%num) in
  let rel' := ((x + seg_x seg)%num, (y + seg_y seg)%num) in
  let prev := getControlPointFromPrevious i (x, y) list (pv_prevX v) (pv_prevY v) in
  if on "C" then
    mret ((seg_x1 seg, seg_y1 seg), (seg_x2 seg, seg_y2 seg), abs)
  else if on "c" then
    mret (((seg_x1 seg + x)%num, (seg_y1 seg + y)%num),
          ((seg_x2 seg + x)%num, (seg_y2 seg + y)%num), rel)
  else if on "S" then
    mret (prev, (seg_x2 seg, seg_y2 seg), abs)
  else if on "s" then
    mret (prev, ((seg_x2 seg + x)%num, (seg_y2 seg + y)%num), rel)
  else if on "Q" then
    let p := (seg_x1 seg, seg_y1 seg) in
    set_p p;; mret (toCubic (x, y) p, toCubic abs p, abs)
  else if on "q" then
    let p := ((seg_x1 seg + x)%num, (seg_y1 seg + y)%num) in
    set_p p;; mret (toCubic (x, y) p, toCubic rel' p, rel)
  else if on "T" then
    (* [p2 = getControlPointFromPrevious(...)] is overwritten at once, and
       [p] still holds what the segment before left in it *)
    p ← get_p; mret (toCubic (x, y) p, toCubic abs p, abs)
  else
    (* "t" *)
    let p := prev in
    set_p p;; mret (toCubic (x, y) p, toCubic rel' p, rel).

(** What the [switch] computes for a line command: the variables after it,
    [to] and [op]. *)
Definition line_case (seg : PathSeg) (v : path_vars)
    : path_vars * point * (point -> lineop) :=
  let cmd := pathSegTypeAsLetter seg in
  let on (c : string) := one_of c cmd in
  let x := pv_x v in
  let y := pv_y v in
  let set_x0 (v : path_vars) :=
    mkPV (pv_x v) (pv_y v) x y (pv_prevX v) (pv_prevY v) (pv_from v) (pv_to v)
      (pv_lines v) (pv_markers v) in
  let set_x (x : num) (v : path_vars) :=
    mkPV x (pv_y v) (pv_x0 v) (pv_y0 v) (pv_prevX v) (pv_prevY v) (pv_from v)
      (pv_to v) (pv_lines v) (pv_markers v) in
  let set_y (y : num) (v : path_vars) :=
    mkPV (pv_x v) y (pv_x0 v) (pv_y0 v) (pv_prevX v) (pv_prevY v) (pv_from v)
      (pv_to v) (pv_lines v) (pv_markers v) in
  if on "M" then (set_x0 v, (seg_x seg, seg_y seg), op_m)
  else if on "m" then (set_x0 v, ((seg_x seg + x)%num, (seg_y seg + y)%num), op_m)
  else if on "L" then (v, (seg_x seg, seg_y seg), op_l)
  else if on "l" then (v, ((seg_x seg + x)%num, (seg_y seg + y)%num), op_l)
  else if on "H" then (set_x (seg_x seg) v, (seg_x seg, y), op_l)
  else if on "h" then (set_x (seg_x seg + x)%num v, ((seg_x seg + x)%num, y), op_l)
  else if on "V" then (set_y (seg_y seg) v, (x, seg_y seg), op_l)
  else (* "v" *) (set_y (seg_y seg + y)%num v, (x, (seg_y seg + y)%num), op_l).

(** One round of the loop of [getLinesFromPath], for the segment [seg] at
    index [i] of [list]. *)
Definition lines_step (list : list PathSeg) (tfMatrix : Matrix) (i : nat)
    (seg : PathSeg) (v : path_vars) : M path_vars :=
  let cmd := pathSegTypeAsLetter seg in
  (* the switch, and the block that pushes the line or the curve *)
  v ←
    (if one_of "sScCqQtT" cmd then
       '(p2, p3, to) ← curve_case list i seg v;
       let c2 := multVecMatrix p2 tfMatrix in
       let c3 := multVecMatrix p3 tfMatrix in
       let p := multVecMatrix to tfMatrix in
       set_p p;;
       mret (mkPV (pv_x v) (pv_y v) (pv_x0 v) (pv_y0 v) (pv_x v) (pv_y v)
               (Some p3) (Some to) (pv_lines v ++ [op_c c2 c3 p]) (pv_markers v))
     else if one_of "lLhHvVmM" cmd then
       let '(v, to, op) := line_case seg v in
       let p := multVecMatrix to tfMatrix in
       set_p p;;
       mret (mkPV (pv_x v) (pv_y v) (pv_x0 v) (pv_y0 v) (pv_prevX v) (pv_prevY v)
               (Some (pv_x v, pv_y v)) (Some to) (pv_lines v ++ [op p])
               (pv_markers v))
     else if one_of "Zz" cmd then
       mret (mkPV (pv_x0 v) (pv_y0 v) (pv_x0 v) (pv_y0 v) (pv_prevX v) (pv_prevY v)
               (pv_from v) (pv_to v) (pv_lines v ++ [op_h]) (pv_markers v))
     else mret v);
  (* the end marker of a subpath *)
  let last :=
    bool_decide (S i = List.length list) ||
    (negb (one_of "mM" cmd) &&
     match getItem list (S i) with
     | Some next => one_of "mM" (pathSegTypeAsLetter next)
     | None => false
     end) in
  markers ←
    (if last then
       match pv_to v, pv_from v with
       | Some to, Some from =>
           let a := Math_atan2 (to.2 - from.2)%num (to.1 - from.1)%num in
           let tf := mkMatrix (Math_cos a) (Math_sin a) (- Math_sin a)%num
                       (Math_cos a) to.1 to.2 in
           mret (pv_markers v ++ [matrixMult tf tfMatrix])
       | _, _ => throw TypeError
       end
     else mret (pv_markers v));
  (* the new current point *)
  let '(x, y) :=
    if one_of "MLCSQT" cmd then (seg_x seg, seg_y seg)
    else if one_of "mlcsqt" cmd then
      ((seg_x seg + pv_x v)%num, (seg_y seg + pv_y v)%num)
    else (pv_x v, pv_y v) in
  mret (mkPV x y (pv_x0 v) (pv_y0 v) (pv_prevX v) (pv_prevY v) (pv_from v)
          (pv_to v) (pv_lines v) markers).

Fixpoint lines_loop (list : list PathSeg) (tfMatrix : Matrix) (i : nat)
    (rest : Datatypes.list PathSeg) (v : path_vars) : M path_vars :=
  match rest with
  | [] => mret v
  | seg :: rest' =>
      v' ← lines_step list tfMatrix i seg v;
      lines_loop list tfMatrix (S i) rest' v'
  end.

(** [getLinesFromPath]: the [lines] and the [markers]. *)
Definition getLinesFromPath (list : list PathSeg) (tfMatrix : Matrix)
    : M (Datatypes.list lineop * Datatypes.list Matrix) :=
  v ← lines_loop list tfMatrix 0 list
        (mkPV n0 n0 n0 n0 NaN NaN None None [] []);
  mret (pv_lines v, pv_markers v).

End Shapes.

(** ** Shapes, text and references *)

(** [parseInt(s)]: an optional sign, then hexadecimal digits after [0x] and
    decimal digits otherwise; [NaN] without a digit. *)
Module PInt.

Fixpoint hex_digits (s : string) (acc : Z) (seen : bool) : option Z :=
  match s with
  | EmptyString => if seen then Some acc else None
  | String c s' =>
      match ToNum.hex_val c with
      | Some v => hex_digits s' (16 * acc + v) true
      | None => if seen then Some acc else None
      end
  end.

Definition unsigned (s : string) : option Z :=
  match s with
  | String "0" (String c r) =>
      if one_of "xX" c then hex_digits r 0 false
      else let '(v, _, _) := Lit.digits s 0 0 in Some v
  | _ =>
      let '(v, n, _) := Lit.digits s 0 0 in
      if n =? 0 then None else Some v
  end.

Definition of_string (s : string) : num :=
  let t := Str.drop_spaces s in
  let '(neg, t) :=
    match t with
    | String "+" r => (false, r)
    | String "-" r => (true, r)
    | _ => (false, t)
    end in
  match unsigned t with
  | Some v => Num.of_Z (if neg then - v else v)
  | None => NaN
  end.

Definition of_attr (s : option string) : num :=
  match s with
  | Some s => of_string s
  | None => NaN
  end.

End PInt.

(** [Math.abs] *)
Definition Math_abs (x : num) : num :=
  match x with
  | NaN => NaN
  | Inf _ => Inf false
  | Fin q => Fin (Qred (Qabs q))
  end.

(** replace any newline characters by space and trim: only the first run of
    white space is replaced, the expression has no [g] flag. *)
Fixpoint replace_first_ws (str : string) : string :=
  match str with
  | EmptyString => EmptyString
  | String c s' =>
      if Chr.is_space c then String " " (Str.drop_spaces s')
      else String c (replace_first_ws s')
  end.

Definition removeNewlinesAndTrim (str : string) : string :=
  Str.trim (replace_first_ws str).

Section Draw.

Context `{MathLib} `{Collaborators}.

(** draws a polygon; [points[0]] of an empty array is [undefined], which
    [multVecMatrix] cannot index. *)
Definition polygon (n : Element) (tfMatrix : Matrix) (colorMode : option string)
    (gradient : option string) (gradientMatrix : option Matrix) : M unit :=
  points ← lift (parsePointsString (attr n "points"));
  match points with
  | [] => throw TypeError
  | p0 :: rest =>
      let lines :=
        op_m (multVecMatrix p0 tfMatrix)
        :: map (fun p => op_l (multVecMatrix p tfMatrix)) rest ++ [op_h] in
      emit (Pdf.path lines colorMode gradient gradientMatrix)
  end.

(** draws an image (converts it to jpeg first) *)
Definition image (n : Element) : M unit :=
  let imageUrl := or_str (attr n "xlink:href") (attr n "href") in
  _ ← alloc (emptyElement "img");
  _ ← alloc (emptyElement "canvas");
  let width := parseFloat_opt (attr n "width") in
  let height := parseFloat_opt (attr n "height") in
  let jpegUrl := toDataURL imageUrl width height in
  emit (Pdf.addImage jpegUrl "jpeg" n0 n0 width height).

(** draws a path *)
Definition path (n : Element) (tfMatrix : Matrix) (svgIdPrefix : SvgPrefix)
    (colorMode : option string) (gradient : option string)
    (gradientMatrix : option Matrix) : M unit :=
  let list := getPathSegList n in
  '(lines, markers) ← getLinesFromPath list tfMatrix;
  let markerEnd := attr n "marker-end" in
  (if truthy_str markerEnd then
     foldr (fun tf rest =>
              match Url.exec (str_of markerEnd) with
              | Some id => emit (Pdf.doFormObject (prefix_get svgIdPrefix +:+ id) tf);; rest
              | None => throw TypeError
              end) (mret tt) markers
   else mret tt);;
  match lines with
  | [] => mret tt
  | _ => emit (Pdf.path lines colorMode gradient gradientMatrix)
  end.

(** draws the element referenced by a use node.  The attributes [x], [y],
    [width] and [height] stay strings in the source; the comparison, the
    division and [matrixMult] convert them with ToNumber. *)
Definition use (n : Element) (tfMatrix : Matrix) (svgIdPrefix : SvgPrefix) : M unit :=
  let url := or_str (attr n "href") (attr n "xlink:href") in
  match url with
  | Some (String _ rest as whole) =>
      w ← get_world;
      let formObject := getFormObject (w_pdf w) (prefix_get svgIdPrefix +:+ rest) in
      let num_or (a : option string) (d : num) :=
        if truthy_str a then ToNum.of_attr a else d in
      let x := num_or (attr n "x") n0 in
      let y := num_or (attr n "y") n0 in
      (* [formObject.width] of [undefined] throws *)
      let dim (a : option string) (pick : num * num -> num) : M num :=
        if truthy_str a then mret (ToNum.of_attr a)
        else match formObject with
             | Some fo => mret (pick fo)
             | None => throw TypeError
             end in
      width ← dim (attr n "width") fst;
      height ← dim (attr n "height") snd;
      t ← (if Num.ltb n0 width && Num.ltb n0 height then
             match formObject with
             | Some fo =>
                 mret (mkMatrix (width / fo.1)%num n0 n0 (height / fo.2)%num x y)
             | None => throw TypeError
             end
           else mret unitMatrix);
      emit (Pdf.doFormObject (prefix_get svgIdPrefix +:+ rest) (matrixMult t tfMatrix))
  | _ => mret tt
  end.

(** draws a line *)
Definition line (n : Element) (tfMatrix : Matrix) : M unit :=
  let p1 := multVecMatrix
              (parseFloat_opt (attr n "x1"), parseFloat_opt (attr n "y1")) tfMatrix in
  let p2 := multVecMatrix
              (parseFloat_opt (attr n "x2"), parseFloat_opt (attr n "y2")) tfMatrix in
  emit (Pdf.line p1.1 p1.2 p2.1 p2.2).

(** draws a rect *)
Definition rect (n : Element) (colorMode : option string)
    (gradient : option string) (gradientMatrix : option Matrix) : M unit :=
  emit (Pdf.roundedRect
          (parseFloat_opt (attr n "x") ||| n0)%num
          (parseFloat_opt (attr n "y") ||| n0)%num
          (parseFloat_opt (attr n "width"))
          (parseFloat_opt (attr n "height"))
          (parseFloat_opt (attr n "rx") ||| n0)%num
          (parseFloat_opt (attr n "ry") ||| n0)%num
          colorMode gradient gradientMatrix).

(** draws an ellipse *)
Definition ellipse (n : Element) (colorMode : option string)
    (gradient : option string) (gradientMatrix : option Matrix) : M unit :=
  emit (Pdf.ellipse
          (parseFloat_opt (attr n "cx") ||| n0)%num
          (parseFloat_opt (attr n "cy") ||| n0)%num
          (parseFloat_opt (attr n "rx"))
          (parseFloat_opt (attr n "ry"))
          colorMode gradient gradientMatrix).

(** draws a circle *)
Definition circle (n : Element) (colorMode : option string)
    (gradient : option string) (gradientMatrix : option Matrix) : M unit :=
  let radius := (parseFloat_opt (attr n "r") ||| n0)%num in
  emit (Pdf.ellipse
          (parseFloat_opt (attr n "cx") ||| n0)%num
          (parseFloat_opt (attr n "cy") ||| n0)%num
          radius radius colorMode gradient gradientMatrix).

End Draw.

(** ** Text (source lines 760-867) *)

Section Text.

Context `{MathLib} `{Collaborators}.

Definition getTextOffset (textAnchor : option string) (width : num) : num :=
  match textAnchor with
  | Some "end" => width
  | Some "middle" => (width / Num.of_Z 2)%num
  | _ => n0
  end.

(** The elements that have a [getComputedTextLength] method: the text
    content elements. *)
Definition text_content_tags : list string :=
  ["text"; "tspan"; "tref"; "textpath"; "altglyph"].

(** [tSpan.getComputedTextLength()] for a child of the text: a child that
    is no text content element, a [title] or an [a] for one, has no such
    method, and the call throws. *)
Definition computedTextLength (s : Element) : outcome num :=
  if is_ s text_content_tags then getComputedTextLength s else Throw TypeError.

(** draws a text element and its tspan children.  The node is moved into a
    hidden [svg] element that is appended to [document.body] for the
    measurement and removed from it at the end; nothing removes it when a
    measurement throws in between. *)
Definition text (node : loc) (n : Element) (tfMatrix : Matrix)
    (hasFillColor : bool) (fillRGB : RGBColor_t) : M unit :=
  let fontFamily := getAttribute n "font-family" in
  (if truthy_str fontFamily then
     let f := Str.to_lower (str_of fontFamily) in
     emit (Pdf.setFont
             (if String.eqb f "serif" then "times"
              else if String.eqb f "monospace" then "courier"
              else "helvetica"))
   else mret tt);;
  (if hasFillColor then
     emit (Pdf.setTextColor (rgb_r fillRGB) (rgb_g fillRGB) (rgb_b fillRGB))
   else mret tt);;
  let fontType : option string :=
    match getAttribute n "font-weight" with
    | Some "bold" => Some "bold"
    | _ => None
    end in
  let fontType : option string :=
    match getAttribute n "font-style" with
    | Some "italic" => Some (str_of fontType +:+ "italic")
    | _ => fontType
    end in
  emit (Pdf.setFontType fontType);;
  let fontSize := getAttribute n "font-size" in
  let pdfFontSize :=
    if truthy_str fontSize then parseFloat (str_of fontSize) else Num.of_Z 16 in
  svg ← alloc (emptyElement "svg");
  appendChild svg node;;
  update_node svg (set_attribute "visibility" "hidden");;
  w ← get_world;
  appendChild (w_body w) svg;;
  box_width ← lift (getBBox_width n);
  let textAnchor := getAttribute n "text-anchor" in
  let xOffset :=
    if truthy_str textAnchor then getTextOffset textAnchor box_width else n0 in
  let m := mkMatrix (m_a tfMatrix) (m_b tfMatrix) (m_c tfMatrix) (m_d tfMatrix)
             (m_e tfMatrix + (parseFloat_opt (attr n "x") ||| n0))%num
             (m_f tfMatrix + (parseFloat_opt (attr n "y") ||| n0))%num in
  let x := ((parseFloat_opt (attr n "dx") ||| n0) * pdfFontSize)%num in
  let y := ((parseFloat_opt (attr n "dy") ||| n0) * pdfFontSize)%num in
  emit (Pdf.setFontSize pdfFontSize);;
  match children n with
  | [] =>
      emit (Pdf.text (x - xOffset)%num y (removeNewlinesAndTrim (textContent n)) m)
  | kids =>
      _ ← each (fun tSpan '(x, y) =>
                  s ← get_node tSpan;
                  len ← lift (computedTextLength s);
                  let xOffset := getTextOffset textAnchor len in
                  let x := (x + (parseFloat_opt (attr s "dx") ||| n0) * pdfFontSize)%num in
                  let y := (y + (parseFloat_opt (attr s "dy") ||| n0) * pdfFontSize)%num in
                  emit (Pdf.text (x - xOffset)%num y
                          (removeNewlinesAndTrim (textContent s)) m);;
                  mret (x, y))
             kids (x, y);
      mret tt
  end;;
  w ← get_world;
  removeChild (w_body w) svg.

End Text.

(** ** Gradients (source lines 896-929) *)

(** The variables the loop over the stops updates. *)
Record stop_vars : Type := mkSV {
  sv_colors : list (num * (num * num * num));
  sv_opacitySum : num;
  sv_hasOpacity : bool
}.

Section Gradient.

Context `{Collaborators}.

(** [opacity && opacity != 1] for the value of [stop-opacity]: it is there,
    and ToNumber of it is not 1. *)
Definition counts_opacity (opacity : option string) : bool :=
  truthy_str opacity && negb (Num.eqb (ToNum.of_attr opacity) n1).

(** The callback of [n.children().each] in [putGradient]. *)
Definition stop_step (v : stop_vars) (element : Element) : stop_vars :=
  if String.eqb (tag element) "stop" then
    let color := RGBColor (getAttribute element "stop-color") in
    let colors :=
      sv_colors v ++ [(parseFloat_opt (attr element "offset"),
                       (rgb_r color, rgb_g color, rgb_b color))] in
    let opacity := getAttribute element "stop-opacity" in
    if counts_opacity opacity then
      mkSV colors (sv_opacitySum v + parseFloat (str_of opacity))%num true
    else mkSV colors (sv_opacitySum v) (sv_hasOpacity v)
  else v.

(** What [putGradient] hands to [new _pdf.Pattern]. *)
Definition gradient_pattern (type : string) (coords : list jsval)
    (stops : list Element) : Pattern :=
  let v := foldl stop_step (mkSV [] n0 false) stops in
  let gState :=
    if sv_hasOpacity v then
      Some (sv_opacitySum v / Num.of_Z (Z.of_nat (List.length coords)))%num
    else None in
  mkPattern type coords (sv_colors v) gState.

(** adds a gradient to defs and the pdf document for later use; returns
    [defs] after [defs[id] = node]. *)
Definition putGradient (node : loc) (n : Element) (type : string)
    (coords : list jsval) (defs : gmap string loc) (svgIdPrefix : SvgPrefix)
    : M (gmap string loc) :=
  w ← get_world;
  let pattern := gradient_pattern type coords (map (node_at w) (children n)) in
  let id := prefix_get svgIdPrefix +:+ str_of (attr n "id") in
  emit (Pdf.addPattern id pattern);;
  mret (<[id := node]> defs).

(** The [coords] that [renderNode] builds for the two kinds of gradient. *)
Definition linear_coords (n : Element) : list jsval :=
  [val_of (attr n "x1"); val_of (attr n "y1");
   val_of (attr n "x2"); val_of (attr n "y2")].

Definition radial_coords (n : Element) : list jsval :=
  [val_of (or_str (attr n "fx") (attr n "cx"));
   val_of (or_str (attr n "fy") (attr n "cy"));
   VNum n0;
   val_or (attr n "cx") n0;
   val_or (attr n "cy") n0;
   val_or (attr n "r") n0].

End Gradient.

(** ** The traversal (source lines 869-894, 932-1165) *)

(** [defs] and [svgIdPrefix]: both are objects that the callee mutates and
    the caller goes on using, so every function that receives them returns
    them as they are afterwards. *)
Definition scope : Type := gmap string loc * SvgPrefix.

(** The variables of [renderNode] that the fill and stroke blocks set. *)
Record paint : Type := mkPaint {
  hasFillColor : bool;
  fillRGB : RGBColor_t;
  colorMode : option string;
  gradient : option string;
  gradientMatrix : option Matrix
}.

Definition gradient_tags : string := "lineargradient,radialgradient".

Section Render.

Context `{MathLib} `{Collaborators}.

(** [fillRGB = null]: the value is not read while [hasFillColor] is false. *)
Definition no_color : RGBColor_t := mkRGB false NaN NaN NaN.

(** The fill block of [renderNode] up to the opacity (lines 983-1025). *)
Definition fill_mode (n : Element) (tfMatrix : Matrix)
    (defs : gmap string loc) (svgIdPrefix : SvgPrefix) : M paint :=
  let fillColor := attr n "fill" in
  if truthy_str fillColor then
    match Url.exec (str_of fillColor) with
    | Some url1 =>
        (* probably a gradient (or something unsupported) *)
        let gradient := prefix_get svgIdPrefix +:+ url1 in
        match getFromDefs gradient defs with
        | None =>
            (* [fill.tagName] of [undefined] *)
            throw TypeError
        | Some fill_loc =>
            fill ← get_node fill_loc;
            if Str.contains (tag fill) gradient_tags then
              gradientUnitsMatrix ←
                (if negb (hasAttribute fill "gradientUnits")
                    || String.eqb (Str.to_lower (str_of (attr fill "gradientUnits")))
                         "objectboundingbox"
                 then
                   bBox ← lift (getUntransformedBBox n);
                   let '(bx, by_, bw, bh) := bBox in
                   nodeTransform ← lift_fuel (computeNodeTransform n);
                   mret (matrixMult (mkMatrix bw n0 n0 bh bx by_) nodeTransform)
                 else mret tfMatrix);
              gradientTransform ←
                lift_fuel (parseTransform_run (attr fill "gradientTransform"));
              mret (mkPaint false no_color None (Some gradient)
                      (Some (matrixMult gradientTransform gradientUnitsMatrix)))
            else mret (mkPaint false no_color None (Some gradient) None)
        end
    | None =>
        (* plain color *)
        let fillRGB := RGBColor fillColor in
        if rgb_ok fillRGB then mret (mkPaint true fillRGB (Some "F") None None)
        else mret (mkPaint false fillRGB None None None)
    end
  else
    (* if no fill attribute is provided the default fill color is black *)
    mret (mkPaint true (RGBColor (Some "rgb(0, 0, 0)")) (Some "F") None None).

(** The stroke block (lines 1036-1066); returns [colorMode]. *)
Definition stroke_mode (n : Element) (pt : paint) : M (option string) :=
  (if hasFillColor pt then
     emit (Pdf.setFillColor (rgb_r (fillRGB pt)) (rgb_g (fillRGB pt)) (rgb_b (fillRGB pt)))
   else mret tt);;
  let strokeColor := attr n "stroke" in
  if truthy_str strokeColor then
    (if hasAttribute n "stroke-width" then
       emit (Pdf.setLineWidth (Math_abs (parseFloat_opt (attr n "stroke-width"))))
     else mret tt);;
    let strokeRGB := RGBColor strokeColor in
    colorMode ←
      (if rgb_ok strokeRGB then
         emit (Pdf.setDrawColor (rgb_r strokeRGB) (rgb_g strokeRGB) (rgb_b strokeRGB));;
         mret (Some (default EmptyString (colorMode pt) +:+ "D"))
       else mret (colorMode pt));
    (if hasAttribute n "stroke-linecap" then
       emit (Pdf.setLineCap (str_of (attr n "stroke-linecap")))
     else mret tt);;
    (if hasAttribute n "stroke-linejoin" then
       emit (Pdf.setLineJoin (str_of (attr n "stroke-linejoin")))
     else mret tt);;
    (if hasAttribute n "stroke-dasharray" then
       emit (Pdf.setLineDashPattern
               (parseFloats (str_of (attr n "stroke-dasharray")))
               (PInt.of_attr (attr n "stroke-dashoffset") ||| n0)%num)
     else mret tt);;
    mret colorMode
  else mret (colorMode pt).

Section Children.

(** [renderNode], for the nodes below the current one. *)
Variable renderNode : loc -> Matrix -> scope -> bool -> M scope.

(** As defs elements are allowed to appear after they are referenced, we
    search for them at first *)
Definition findAndRenderDefs (n : loc) (tfMatrix : Matrix) (sc : scope)
    (withinDefs : bool) : M scope :=
  e ← get_node n;
  each (fun child sc =>
          c ← get_node child;
          if String.eqb (tag c) "defs" then
            sc ← renderNode child tfMatrix sc withinDefs;
            (* prevent defs from being evaluated twice *)
            c ← get_node child;
            match parentNode c with
            | Some parent => removeChild parent child;; mret sc
            | None => throw TypeError
            end
          else mret sc)
       (children e) sc.

(** renders all children of a node *)
Definition renderChildren (n : loc) (tfMatrix : Matrix) (sc : scope)
    (withinDefs : bool) : M scope :=
  e ← get_node n;
  each (fun node sc => renderNode node tfMatrix sc withinDefs) (children e) sc.

(** processes a svg node: a new prefix and a clone of the defs, as defs
    within the svg should not be visible outside.  The caller's prefix
    keeps the incremented counter, its defs are as they were. *)
Definition svg (n : loc) (tfMatrix : Matrix) (sc : scope)
    (withinDefs : bool) : M scope :=
  let '(newSvgIdPrefix, svgIdPrefix) := nextChild sc.2 in
  let newDefs := cloneDefs sc.1 in
  inner ← findAndRenderDefs n tfMatrix (newDefs, newSvgIdPrefix) withinDefs;
  _ ← renderChildren n tfMatrix inner withinDefs;
  mret (sc.1, svgIdPrefix).

(** The [switch (node.tagName.toLowerCase())] of [renderNode]. *)
Definition draw (node : loc) (n : Element) (tfMatrix : Matrix) (sc : scope)
    (withinDefs : bool) (pt : paint) : M scope :=
  let t := tag n in
  let on (name : string) := String.eqb t name in
  let same (m : M unit) : M scope := m;; mret sc in
  if on "svg" then svg node tfMatrix sc withinDefs
  else if on "g" then
    sc ← findAndRenderDefs node tfMatrix sc withinDefs;
    renderChildren node tfMatrix sc withinDefs
  else if on "a" || on "marker" then renderChildren node tfMatrix sc withinDefs
  else if on "defs" then renderChildren node tfMatrix sc true
  else if on "use" then same (use n tfMatrix sc.2)
  else if on "line" then same (line n tfMatrix)
  else if on "rect" then
    same (emit (Pdf.setCurrentTransformationMatrix tfMatrix);;
          rect n (colorMode pt) (gradient pt) (gradientMatrix pt))
  else if on "ellipse" then
    same (emit (Pdf.setCurrentTransformationMatrix tfMatrix);;
          ellipse n (colorMode pt) (gradient pt) (gradientMatrix pt))
  else if on "circle" then
    same (emit (Pdf.setCurrentTransformationMatrix tfMatrix);;
          circle n (colorMode pt) (gradient pt) (gradientMatrix pt))
  else if on "text" then same (text node n tfMatrix (hasFillColor pt) (fillRGB pt))
  else if on "path" then
    same (path n tfMatrix sc.2 (colorMode pt) (gradient pt) (gradientMatrix pt))
  else if on "polygon" then
    same (polygon n tfMatrix (colorMode pt) (gradient pt) (gradientMatrix pt))
  else if on "image" then
    same (emit (Pdf.setCurrentTransformationMatrix tfMatrix);; image n)
  else if on "lineargradient" then
    defs ← putGradient node n "axial" (linear_coords n) sc.1 sc.2;
    mret (defs, sc.2)
  else if on "radialgradient" then
    defs ← putGradient node n "radial" (radial_coords n) sc.1 sc.2;
    mret (defs, sc.2)
  else mret sc.

(** The body of [renderNode]. *)
Definition renderNode_body (node : loc) (contextTransform : Matrix)
    (sc : scope) (withinDefs : bool) : M scope :=
  n ← get_node node;
  (* decide about the render target and set the correct transformation *)
  let targetIsFormObject :=
    withinDefs && negb (Str.contains (tag n) gradient_tags) in
  '(tfMatrix, withinDefs) ←
    (if targetIsFormObject then
       tfMatrix ← lift_fuel (computeNodeTransform n);
       bBox ← lift (getUntransformedBBox n);
       let '(bx, by_, bw, bh) := bBox in
       emit (Pdf.beginFormObject bx by_ bw bh tfMatrix);;
       mret (unitMatrix, false)
     else
       tfMatrix ← lift_fuel (computeNodeTransform n);
       emit Pdf.saveGraphicsState;;
       mret (matrixMult tfMatrix contextTransform, withinDefs));
  (* extract fill and stroke mode *)
  pt ←
    (if is_ n ["g"; "path"; "rect"; "text"; "ellipse"; "line"; "circle"; "polygon"]
     then
       pt ← fill_mode n tfMatrix sc.1 sc.2;
       let opacity := or_str (attr n "opacity") (attr n "fill-opacity") in
       emit (Pdf.setGState
               (if truthy_str opacity then parseFloat (str_of opacity) else n1));;
       mret pt
     else mret (mkPaint false no_color None None None));
  colorMode ←
    (if is_ n ["g"; "path"; "rect"; "ellipse"; "line"; "circle"; "polygon"]
     then stroke_mode n pt
     else mret (colorMode pt));
  let pt := mkPaint (hasFillColor pt) (fillRGB pt) colorMode (gradient pt)
              (gradientMatrix pt) in
  (* do the actual drawing *)
  sc ← draw node n tfMatrix sc withinDefs pt;
  (* close either the formObject or the graphics context *)
  (if targetIsFormObject then
     emit (Pdf.endFormObject (prefix_get sc.2 +:+ str_of (attr n "id")))
   else emit Pdf.restoreGraphicsState);;
  mret sc.

End Children.

(** Renders a svg node.  [fuel] bounds the depth of the calls. *)
Fixpoint renderNode (fuel : nat) (node : loc) (contextTransform : Matrix)
    (sc : scope) (withinDefs : bool) : M scope :=
  match fuel with
  | O => diverge
  | S fuel' => renderNode_body (renderNode fuel') node contextTransform sc withinDefs
  end.

(** The render options; an option that is not given is [NaN]. *)
Record Options : Type := mkOptions {
  opt_scale : num; opt_xOffset : num; opt_yOffset : num
}.

(** the actual svgToPdf function *)
Definition svgElementToPdf (fuel : nat) (element : loc) (options : Options) : M unit :=
  let k := (opt_scale options ||| n1)%num in
  let xOffset := (opt_xOffset options ||| n0)%num in
  let yOffset := (opt_yOffset options ||| n0)%num in
  (* set offsets and scale everything by k *)
  emit Pdf.saveGraphicsState;;
  emit (Pdf.setCurrentTransformationMatrix (mkMatrix k n0 n0 k xOffset yOffset));;
  clone ← cloneNode fuel element None;
  _ ← renderNode fuel clone unitMatrix (∅, newSvgPrefix EmptyString) false;
  emit Pdf.restoreGraphicsState.

End Render.

(** ** The specification's words, for the comparisons below *)

(** Rotation about a pivot [(cx, cy)]: translate(cx,cy) after rotate(a) after
    translate(-cx,-cy), that is, a point goes through the translation by
    [(-cx, -cy)] first. *)
Definition rotation `{MathLib} (a : num) : Matrix :=
  mkMatrix (Math_cos a) (Math_sin a) (- Math_sin a)%num (Math_cos a) n0 n0.

Definition translation (tx ty : num) : Matrix := mkMatrix n1 n0 n0 n1 tx ty.

Definition spec_rotate_about `{MathLib} (a cx cy : num) : Matrix :=
  matrixMult (translation (- cx) (- cy))%num
    (matrixMult (rotation a) (translation cx cy)).

(** The angle of [rotate(90)] in radians, as the source computes it. *)
Definition quarter_turn `{MathLib} : num :=
  (Math_PI * Num.of_Z 90 / Num.of_Z 180)%num.

(** The attribute lookup of the specification: by name, with the fallback
    onto the inline-style property of the same name.  An empty text is no
    value. *)
Definition explicit_value (e : Element) (name : string) : option string :=
  match assoc name (attributes e) with
  | Some (String c s) => Some (String c s)
  | _ =>
      match assoc name (style e) with
      | Some (String c s) => Some (String c s)
      | _ => None
      end
  end.

(** What an element gives to the opacity of the gradient it is a child of:
    for a stop whose opacity is explicitly present and is not full opacity,
    its opacity.  The opacity is present as a text; it is full opacity when
    the text is a numeral of 1, and the opacity it gives is the number it
    begins with.  For a text that is a number the two are the same number
    ([numeral_readings]). *)
Definition stop_contribution (e : Element) : option num :=
  if String.eqb (Str.to_lower (tagName e)) "stop" then
    match explicit_value e "stop-opacity" with
    | Some s =>
        if Num.eqb (ToNum.of_string s) (Fin 1) then None else Some (parseFloat s)
    | None => None
    end
  else None.

(** The opacities that the stops among the children of a gradient give, in
    document order. *)
Definition stop_opacities (stops : list Element) : list num :=
  omap stop_contribution stops.

(** The single opacity of a gradient paint: the running sum of those
    opacities, from 0, over the number of coordinate values, and none when
    no stop gives one. *)
Definition averaged_opacity (stops : list Element) (ncoords : nat) : option num :=
  match stop_opacities stops with
  | [] => None
  | vs => Some (foldl Num.add (Fin 0) vs / Num.of_Z (Z.of_nat ncoords))%num
  end.

(** The prefix of a scope: its segments, the innermost first.  The root
    prefix has none. *)
Definition segment (k : nat) : string := "_" +:+ nat_to_string k +:+ "_".

Fixpoint prefix_of (segs : list nat) : string :=
  match segs with
  | [] => EmptyString
  | k :: segs' => segment k +:+ prefix_of segs'
  end.

(** The lookup of [id] from the scope with the segments [segs]: the full
    prefix first, then one segment less at a time, down to no prefix. *)
Fixpoint lookup_chain {V : Type} (defs : gmap string V) (segs : list nat)
    (id : string) : option V :=
  match defs !! (prefix_of segs +:+ id) with
  | Some v => Some v
  | None =>
      match segs with
      | [] => None
      | _ :: segs' => lookup_chain defs segs' id
      end
  end.

(** ** Graphics-state discipline *)

(** What an entry action leaves open: a saved graphics state or a form
    object. *)
Inductive frame : Type := GStateFrame | FormObjectFrame.

(** The open frames after one more call; [None] when the call closes a frame
    that is not the innermost open one. *)
Definition frame_step (open : list frame) (c : Pdf.call) : option (list frame) :=
  match c with
  | Pdf.saveGraphicsState => Some (GStateFrame :: open)
  | Pdf.beginFormObject _ _ _ _ _ => Some (FormObjectFrame :: open)
  | Pdf.restoreGraphicsState =>
      match open with
      | GStateFrame :: open' => Some open'
      | _ => None
      end
  | Pdf.endFormObject _ =>
      match open with
      | FormObjectFrame :: open' => Some open'
      | _ => None
      end
  | _ => Some open
  end.

Fixpoint frames_after (open : list frame) (calls : list Pdf.call)
    : option (list frame) :=
  match calls with
  | [] => Some open
  | c :: calls' =>
      match frame_step open c with
      | Some open' => frames_after open' calls'
      | None => None
      end
  end.

(** Every entry action is closed by the exit action of its kind, in nesting
    order, and nothing else is closed. *)
Definition balanced (calls : list Pdf.call) : Prop :=
  frames_after [] calls = Some [].

(** A call that opens and closes nothing. *)
Definition neutral (c : Pdf.call) : bool :=
  match c with
  | Pdf.saveGraphicsState | Pdf.restoreGraphicsState
  | Pdf.beginFormObject _ _ _ _ _ | Pdf.endFormObject _ => false
  | _ => true
  end.

(** ** Well-formed stores *)

(** Every node of the store and every child of such a node has an address
    below [w_next], and [document.body] is a node. *)
Definition wf_world (w : World) : Prop :=
  (forall l e, w_nodes w !! l = Some e ->
     (l < w_next w)%nat /\ forall c, c ∈ children e -> (c < w_next w)%nat)
  /\ is_Some (w_nodes w !! w_body w).

(** ** Inputs of the examples *)

(** [scale(2)] and [translate(10,0)] on two lines. *)
Definition two_line_transform : string :=
  Eval vm_compute in ("scale(2)" +:+ String "010" "translate(10,0)").

(** A [Math] whose [cos] and [sin] give the exact values of a quarter turn, 0
    and 1, at every angle: enough for the examples with [rotate(90)]. *)
Definition quarter_math : MathLib :=
  {| Math_PI := Fin (355 # 113);
     Math_cos := fun _ => Fin 0;
     Math_sin := fun _ => Fin 1;
     Math_tan := fun _ => Fin 0;
     Math_atan2 := fun _ _ => Fin 0 |}.

(** The path of the example: a quadratic curve and a smooth one after it. *)
Definition smooth_quadratic_path : list PathSeg :=
  Eval vm_compute in parse_d (Some "M0,0 Q5,10 10,0 t10,0").

(** Collaborators that answer with fixed values: every color parses to black,
    no form object is known, every measure is 0. *)
Definition plain_collaborators : Collaborators :=
  {| RGBColor := fun _ => mkRGB true (Fin 0) (Fin 0) (Fin 0);
     getFormObject := fun _ _ => None;
     getBBox_width := fun _ => Ok (Fin 0);
     getComputedTextLength := fun _ => Ok (Fin 0);
     toDataURL := fun _ _ _ => EmptyString |}.

Definition element_of (tag : string) (attributes : list (string * string))
    (children : list loc) (parent : option loc) : Element :=
  mkElement tag attributes [] children parent EmptyString None.

Definition world_of (nodes : list (loc * Element)) : World :=
  mkWorld (list_to_map nodes) (List.length nodes) 0%nat [] None.

(** A page whose body holds
    [<svg><rect fill="url(#missing)"/><circle r="1"/></svg>]:
    no element has the id [missing]. *)
Definition unresolved_doc : World :=
  world_of
    [(0, element_of "body" [] [1] None);
     (1, element_of "svg" [] [2; 3] (Some 0));
     (2, element_of "rect" [("fill", "url(#missing)")] [] (Some 1));
     (3, element_of "circle" [("r", "1")] [] (Some 1))]%nat.

(** A page whose body holds an [svg] with a rectangle painted by a gradient
    that is declared after it, and a text. *)
Definition gradient_doc : World :=
  world_of
    [(0, element_of "body" [] [1] None);
     (1, element_of "svg" [] [2; 3; 6] (Some 0));
     (2, element_of "rect" [("fill", "url(#a)"); ("width", "10"); ("height", "5")]
           [] (Some 1));
     (3, element_of "defs" [] [4] (Some 1));
     (4, element_of "linearGradient" [("id", "a")] [5] (Some 3));
     (5, element_of "stop" [("stop-opacity", "0.5")] [] (Some 4));
     (6, element_of "text" [] [] (Some 1))]%nat.

(** A page whose body holds [<svg><text><title/></text></svg>]: the child of
    the text is no text content element. *)
Definition titled_text_doc : World :=
  world_of
    [(0, element_of "body" [] [1] None);
     (1, element_of "svg" [] [2] (Some 0));
     (2, element_of "text" [] [3] (Some 1));
     (3, element_of "title" [] [] (Some 2))]%nat.

Definition no_options `{MathLib} `{Collaborators} : Options := mkOptions NaN NaN NaN.

(** ** Assertions about computations *)

(** [hoare F P m Q]: started in a state with [F] and [P], whatever [m] does
    (return or throw) leaves [F], and a value it returns satisfies [Q] in the
    state it returns in. *)
Definition hoare {A : Type} (F P : World -> Prop) (m : M A)
    (Q : A -> World -> Prop) : Prop :=
  forall w r w', F w -> P w -> m w = Some (r, w') ->
    F w' /\ forall a, r = Ok a -> Q a w'.

(** [m] keeps [J], also when it throws. *)
Definition inv {A : Type} (J : World -> Prop) (m : M A) : Prop :=
  hoare J (fun _ => True) m (fun _ _ => True).

(** [m] takes [P] to [Q] when it returns. *)
Definition returns {A : Type} (P : World -> Prop) (m : M A)
    (Q : A -> World -> Prop) : Prop :=
  hoare (fun _ => True) P m Q.

(** The calls since the trace [base] leave the frames [open] open, starting
    from [open0]. *)
Definition trace_inv (base : list Pdf.call) (open0 open : list frame)
    (w : World) : Prop :=
  exists calls, w_pdf w = base ++ calls /\ frames_after open0 calls = Some open.

(** The exit action that closes an entry action. *)
Definition closes (entry exit : Pdf.call) : Prop :=
  match entry, exit with
  | Pdf.saveGraphicsState, Pdf.restoreGraphicsState => True
  | Pdf.beginFormObject _ _ _ _ _, Pdf.endFormObject _ => True
  | _, _ => False
  end.

(** An element whose children and parent are nodes made since the address
    [b]. *)
Definition elem_closed (b next : loc) (e : Element) : Prop :=
  (forall c, c ∈ children e -> (b <= c < next)%nat)
  /\ (forall p, parentNode e = Some p -> (b <= p < next)%nat).

(** The state [w] of a run that started in [w0]: the nodes of [w0] are as
    they were, and the nodes made since refer to one another only. *)
Definition frame_inv (w0 w : World) : Prop :=
  (forall l, (l < w_next w0)%nat -> w_nodes w !! l = w_nodes w0 !! l)
  /\ (w_next w0 <= w_next w)%nat
  /\ w_body w = w_body w0
  /\ (forall l e, (w_next w0 <= l)%nat -> w_nodes w !! l = Some e ->
        (l < w_next w)%nat /\ elem_closed (w_next w0) (w_next w) e).

(** The decimal digits of a number. *)
Fixpoint all_digits (s : string) : bool :=
  match s with
  | EmptyString => true
  | String c s' => Chr.is_digit c && all_digits s'
  end.

(** [m] leaves open what was open, when it returns. *)
Definition keeps_frames {A : Type} (m : M A) : Prop :=
  forall base open0 open,
    returns (trace_inv base open0 open) m (fun _ => trace_inv base open0 open).

(** A node made since the address [b]. *)
Definition fresh (b : loc) (l : loc) (w : World) : Prop :=
  (b <= l < w_next w)%nat.

(** [frame_inv], with the nodes of [K] known to be made during the run. *)
Definition frame_with (w0 : World) (K : list loc) (w : World) : Prop :=
  frame_inv w0 w /\ forall l, l ∈ K -> fresh (w_next w0) l w.

(** [m] leaves the document as it is, whether it returns or throws. *)
Definition calm {A : Type} (m : M A) : Prop :=
  forall w r w', m w = Some (r, w') ->
    w_nodes w' = w_nodes w /\ w_next w' = w_next w /\ w_body w' = w_body w.

(** [document.body] with the nodes [extra] after its children. *)
Definition with_more_children (extra : list loc) (e : Element) : Element :=
  set_children (children e ++ extra) e.

(** The state [w] of a run that started in [w0] and that may have stopped
    while a text was being measured: the nodes of [w0] other than
    [document.body] are as they were, and [document.body] is as it was but
    for nodes made since, which come after its children. *)
Definition frame_open (w0 w : World) : Prop :=
  (forall l, (l < w_next w0)%nat -> l <> w_body w0 ->
     w_nodes w !! l = w_nodes w0 !! l)
  /\ exists extra,
       (forall c, c ∈ extra -> (w_next w0 <= c)%nat)
       /\ w_nodes w !! w_body w0
          = with_more_children extra <$> w_nodes w0 !! w_body w0.

(** The links of an element: its children and its parent. *)
Definition links (e : Element) : list loc :=
  children e ++ match parentNode e with Some p => [p] | None => [] end.

(** ** Lists of numbers as text *)

(** The texts of [l] with [sep] between them. *)
Fixpoint join_with (sep : string) (l : list string) : string :=
  match l with
  | [] => EmptyString
  | [s] => s
  | s :: l' => s +:+ sep +:+ join_with sep l'
  end.

Fixpoint all_spaces (s : string) : bool :=
  match s with
  | EmptyString => true
  | String c s' => Chr.is_space c && all_spaces s'
  end.

(** A separator that [parseFloats] splits at once: white space, or a comma
    and the white space after it. *)
Definition separator (sep : string) : bool :=
  match sep with
  | EmptyString => false
  | String c blanks => (Chr.is_space c || Chr.eqb c ",") && all_spaces blanks
  end.






(** * Properties *)

(** ** Numbers *)

Lemma parseFloat_ten : parseFloat "10" = Fin 10.
Proof. reflexivity. Qed.

(** ** [parseFloats] *)

(** C5 (code bug).  [parseFloats("10-5")] is [[1, -5]]: the expression
    [/[^eE]-/g] takes the character before the minus sign into the match, so
    the replacement by [" -"] deletes the last digit of the number before it.
    The claim has the two numbers 10 and -5. *)
Theorem parseFloats_minus_eats_digit :
  replace_minus "10-5" = "1 -5" /\ parseFloats "10-5" = [Fin 1; Fin (-5)].
Proof. split; vm_compute; reflexivity. Qed.

(** Where a separator stands before the minus sign, it is the separator that
    is replaced and the numbers are as written. *)
Lemma parseFloats_separated :
  parseFloats "10,-5" = [Fin 10; Fin (-5)]
  /\ parseFloats "10 -5" = [Fin 10; Fin (-5)]
  /\ parseFloats " 1.5e-3,  -.25 7e2 " = [Fin (3 # 2000); Fin (-1 # 4); Fin 700].
Proof. repeat split; vm_compute; reflexivity. Qed.

(** ** [parseTransform] *)

Section ParseTransformFacts.

Context `{MathLib}.

Lemma parseTransform_loop_done fuel m :
  parseTransform_loop fuel (EmptyString, m) = Some m.
Proof. destruct fuel; reflexivity. Qed.

Lemma parseTransform_loop_S fuel c s m :
  parseTransform_loop (S fuel) (String c s, m)
  = parseTransform_loop fuel (parseTransform_body (String c s, m)).
Proof. reflexivity. Qed.

(** An absent and an empty string give the identity, whatever the fuel. *)
Lemma parseTransform_absent fuel :
  parseTransform fuel None = Some unitMatrix
  /\ parseTransform fuel (Some EmptyString) = Some unitMatrix.
Proof. split; reflexivity. Qed.

(** A state that a round leaves as it is never empties. *)
Lemma parseTransform_loop_stuck c s m :
  parseTransform_body (String c s, m) = (String c s, m) ->
  forall fuel, parseTransform_loop fuel (String c s, m) = None.
Proof.
  intros Hfix fuel. induction fuel as [|fuel IH]; [reflexivity|].
  rewrite parseTransform_loop_S, Hfix. exact IH.
Qed.

End ParseTransformFacts.

(** C1 (code bug).  For ["translate(10,0) scale(2)"] the greedy group of
    [/translate\((.+)\)/] runs to the last parenthesis of the string: the
    captured text is ["10,0) scale(2"], the whole string is consumed by the
    translate block and the scale is never parsed.  The result is the
    translation by (10,0), which maps (1,0) to (11,0); the claim has
    (12,0). *)
Theorem parseTransform_translate_scale `{MathLib} (fuel : nat) :
  exec_call "translate" "translate(10,0) scale(2)"
    = Some ("translate(10,0) scale(2)", "10,0) scale(2")
  /\ parseTransform (S fuel) (Some "translate(10,0) scale(2)")
     = Some (translation (Fin 10) (Fin 0))
  /\ multVecMatrix (Fin 1, Fin 0) (translation (Fin 10) (Fin 0)) = (Fin 11, Fin 0).
Proof.
  split; [vm_compute; reflexivity|].
  split; [|vm_compute; reflexivity].
  unfold parseTransform. rewrite parseTransform_loop_S.
  set (st := parseTransform_body _). vm_compute in st. subst st.
  apply parseTransform_loop_done.
Qed.

(** The same two functions on two lines, in either order: both are parsed,
    translate first because its block comes first in the loop body, and the
    line break that is left keeps the loop going for ever. *)
Lemma parseTransform_two_lines `{MathLib} (fuel : nat) :
  parseTransform_body (two_line_transform, unitMatrix)
    = (String "010" EmptyString,
       matrixMult (mkMatrix (Fin 2) n0 n0 (Fin 2) n0 n0) (translation (Fin 10) (Fin 0)))
  /\ parseTransform fuel (Some two_line_transform) = None.
Proof.
  assert (Hbody : parseTransform_body (two_line_transform, unitMatrix)
          = (String "010" EmptyString,
             matrixMult (mkMatrix (Fin 2) n0 n0 (Fin 2) n0 n0)
               (translation (Fin 10) (Fin 0)))) by (vm_compute; reflexivity).
  split; [exact Hbody|].
  destruct fuel as [|fuel]; [reflexivity|].
  unfold parseTransform, two_line_transform in *.
  rewrite parseTransform_loop_S, Hbody.
  apply parseTransform_loop_stuck. vm_compute. reflexivity.
Qed.

(** C2 (code bug).  [parseTransform("foo")] does not return: no expression
    matches, the string keeps its length and the loop condition
    [transformString.length > 0] stays true.  Whatever the fuel, the model
    runs out of it.  The claim has the function return for every string and
    ignore unknown tokens. *)
Theorem parseTransform_unknown_token_diverges `{MathLib} (fuel : nat) :
  parseTransform_body ("foo", unitMatrix) = ("foo", unitMatrix)
  /\ parseTransform fuel (Some "foo") = None.
Proof.
  assert (Hbody : parseTransform_body ("foo", unitMatrix) = ("foo", unitMatrix))
    by (vm_compute; reflexivity).
  split; [exact Hbody|].
  unfold parseTransform. apply parseTransform_loop_stuck. exact Hbody.
Qed.

(** The same happens after a function that was parsed, as soon as one
    character is left: here the blank at the end. *)
Lemma parseTransform_trailing_blank_diverges `{MathLib} (fuel : nat) :
  parseTransform fuel (Some "translate(10,0) ") = None.
Proof.
  destruct fuel as [|fuel]; [reflexivity|].
  unfold parseTransform. rewrite parseTransform_loop_S.
  set (st := parseTransform_body _). vm_compute in st. subst st.
  apply parseTransform_loop_stuck. vm_compute. reflexivity.
Qed.

(** C7 (code bug).  The pivot is applied under [if (m[1] && m[2])], which is
    false for a coordinate that is 0: ["rotate(90,0,1)"] gives the matrix of
    ["rotate(90)"], the rotation about the origin.  The claim has the
    rotation about (0,1) for it. *)
Theorem parseTransform_rotate_zero_pivot `{MathLib} (fuel : nat) :
  parseTransform (S fuel) (Some "rotate(90,0,1)")
    = Some (matrixMult (rotation quarter_turn) unitMatrix)
  /\ parseTransform (S fuel) (Some "rotate(90)")
    = Some (matrixMult (rotation quarter_turn) unitMatrix).
Proof.
  split.
  - unfold parseTransform. rewrite parseTransform_loop_S.
    set (st := parseTransform_body _).
    assert (Hst : st = (EmptyString, matrixMult (rotation quarter_turn) unitMatrix))
      by (vm_compute; reflexivity).
    rewrite Hst. apply parseTransform_loop_done.
  - unfold parseTransform. rewrite parseTransform_loop_S.
    set (st := parseTransform_body _).
    assert (Hst : st = (EmptyString, matrixMult (rotation quarter_turn) unitMatrix))
      by (vm_compute; reflexivity).
    rewrite Hst. apply parseTransform_loop_done.
Qed.

(** With [cos] and [sin] of the quarter turn at 0 and 1, the matrix the code
    returns for ["rotate(90,0,1)"] sends (1,0) to (0,1), and the rotation about
    (0,1) sends it to (1,2). *)
Lemma rotate_zero_pivot_point `{MathLib} :
  Math_cos quarter_turn = Fin 0 -> Math_sin quarter_turn = Fin 1 ->
  multVecMatrix (Fin 1, Fin 0) (matrixMult (rotation quarter_turn) unitMatrix)
    = (Fin 0, Fin 1)
  /\ multVecMatrix (Fin 1, Fin 0) (spec_rotate_about quarter_turn (Fin 0) (Fin 1))
    = (Fin 1, Fin 2).
Proof.
  intros Hc Hs. unfold spec_rotate_about, rotation. rewrite Hc, Hs.
  split; vm_compute; reflexivity.
Qed.

Lemma rotate_zero_pivot_point_witness :
  @multVecMatrix (Fin 1, Fin 0)
     (matrixMult (@rotation quarter_math (@quarter_turn quarter_math)) unitMatrix)
    = (Fin 0, Fin 1)
  /\ multVecMatrix (Fin 1, Fin 0)
       (@spec_rotate_about quarter_math (@quarter_turn quarter_math) (Fin 0) (Fin 1))
    = (Fin 1, Fin 2).
Proof. apply (@rotate_zero_pivot_point quarter_math); reflexivity. Defined.

(** With both coordinates of the pivot different from 0 the block does what
    the specification says, around the accumulated matrix. *)
Lemma build_rotate_pivot `{MathLib} (g : string) (deg cx cy : num) (acc : Matrix) :
  parseFloats g = [deg; cx; cy] ->
  Num.truthy cx = true -> Num.truthy cy = true ->
  build_rotate g acc
  = matrixMult (translation (- cx) (- cy))%num
      (matrixMult
         (matrixMult (rotation (Math_PI * deg / Num.of_Z 180)%num) acc)
         (translation cx cy)).
Proof.
  intros Hm Hx Hy. unfold build_rotate. rewrite Hm. cbn [idx nth].
  rewrite Hx, Hy. reflexivity.
Qed.

Lemma build_rotate_pivot_witness :
  @build_rotate quarter_math "90,1,1" unitMatrix
  = matrixMult (translation (- Fin 1) (- Fin 1))%num
      (matrixMult
         (matrixMult
            (@rotation quarter_math (@Math_PI quarter_math * Fin 90 / Num.of_Z 180)%num)
            unitMatrix)
         (translation (Fin 1) (Fin 1))).
Proof.
  apply (@build_rotate_pivot quarter_math "90,1,1" (Fin 90) (Fin 1) (Fin 1));
    reflexivity.
Defined.

(** The example of the specification: ["rotate(90,1,1)"] sends (1,0) to
    (2,1). *)
Lemma parseTransform_rotate_example (fuel : nat) :
  (m ← @parseTransform quarter_math (S fuel) (Some "rotate(90,1,1)");
   Some (multVecMatrix (Fin 1, Fin 0) m)) = Some (Fin 2, Fin 1).
Proof.
  unfold parseTransform. rewrite parseTransform_loop_S.
  set (st := parseTransform_body _). vm_compute in st. subst st.
  rewrite parseTransform_loop_done. vm_compute. reflexivity.
Qed.

(** ** Smooth curves *)

(** What [getControlPointFromPrevious] returns, case by case: the reflection
    is taken exactly when the segment before is one of [C], [S], [c], [s],
    whatever the command that asks. *)
Lemma getControlPointFromPrevious_cases (i : nat) (from : point)
    (list : list PathSeg) (prevX prevY : num) (prev : PathSeg) :
  getItem list i = Some prev ->
  getControlPointFromPrevious (S i) from list prevX prevY
  = if one_of "CS" (pathSegTypeAsLetter prev)
    then mirrorPoint (seg_x2 prev, seg_y2 prev) from
    else if one_of "cs" (pathSegTypeAsLetter prev)
    then mirrorPoint ((seg_x2 prev + prevX)%num, (seg_y2 prev + prevY)%num) from
    else from.
Proof.
  intros Hprev. unfold getControlPointFromPrevious. rewrite Hprev.
  destruct from; reflexivity.
Qed.

Lemma getControlPointFromPrevious_cases_witness :
  getControlPointFromPrevious 2 (Fin 10, Fin 0)
    (parse_d (Some "M0,0 C1,2 5,10 10,0 S20,0 30,0")) n0 n0
  = (Fin 15, Fin (-10)).
Proof.
  rewrite (getControlPointFromPrevious_cases 1 (Fin 10, Fin 0) _ n0 n0
             (mkPathSeg "C" (Fin 10) (Fin 0) (Fin 1) (Fin 2) (Fin 5) (Fin 10)));
    reflexivity.
Defined.

Lemma getControlPointFromPrevious_first (from : point) (list : list PathSeg)
    (prevX prevY : num) :
  getControlPointFromPrevious 0 from list prevX prevY = from.
Proof. destruct from; reflexivity. Qed.

(** C3 (code bug).  In ["M0,0 Q5,10 10,0 t10,0"] the segment before the [t] is
    a quadratic curve with the control point (5,10), and the current point is
    (10,0).  [getControlPointFromPrevious] has no case for [Q], [q], [T] or
    [t]: it returns the current point (10,0).  The claim has the reflection
    of the control point about the current point, (15,-10). *)
Theorem getControlPointFromPrevious_after_quadratic :
  smooth_quadratic_path
    = [mkPathSeg "M" (Fin 0) (Fin 0) NaN NaN NaN NaN;
       mkPathSeg "Q" (Fin 10) (Fin 0) (Fin 5) (Fin 10) NaN NaN;
       mkPathSeg "t" (Fin 10) (Fin 0) NaN NaN NaN NaN]
  /\ getControlPointFromPrevious 2 (Fin 10, Fin 0) smooth_quadratic_path n0 n0
     = (Fin 10, Fin 0)
  /\ mirrorPoint (Fin 5, Fin 10) (Fin 10, Fin 0) = (Fin 15, Fin (-10)).
Proof. repeat split; vm_compute; reflexivity. Qed.

(** The curve that [getLinesFromPath] emits for that [t]: both of its control
    points are on the chord from (10,0) to (20,0). *)
Lemma getLinesFromPath_after_quadratic (w : World) :
  (@getLinesFromPath quarter_math smooth_quadratic_path unitMatrix w)
    ≫= (fun r => match r.1 with Ok (lines, _) => Some lines | Throw _ => None end)
  = Some [op_m (Fin 0, Fin 0);
          op_c (Fin (10 # 3), Fin (20 # 3)) (Fin (20 # 3), Fin (20 # 3)) (Fin 10, Fin 0);
          op_c (Fin 10, Fin 0) (Fin (40 # 3), Fin 0) (Fin 20, Fin 0)].
Proof. vm_compute. reflexivity. Qed.

(** After a cubic curve the same [t] gets the reflection of the cubic's second
    control point, although the families differ. *)
Lemma getControlPointFromPrevious_cross_family :
  getControlPointFromPrevious 2 (Fin 10, Fin 0)
    (parse_d (Some "M0,0 C1,2 5,10 10,0 t10,0")) n0 n0
  = (Fin 15, Fin (-10)).
Proof. vm_compute. reflexivity. Qed.

(** ** Scoped lookup *)

Lemma append_assoc (a b c : string) : (a +:+ b) +:+ c = a +:+ (b +:+ c).
Proof.
  induction a as [|x a IH]; [reflexivity|].
  change (String x ((a +:+ b) +:+ c) = String x (a +:+ (b +:+ c))).
  f_equal. exact IH.
Qed.

Lemma append_cons (x : ascii) (a b : string) : String x a +:+ b = String x (a +:+ b).
Proof. reflexivity. Qed.

Lemma skip_digits_length (s : string) :
  (String.length (Seg.skip_digits s) <= String.length s)%nat.
Proof.
  induction s as [|c s IH]; cbn; [lia|]. destruct (Chr.is_digit c); cbn; lia.
Qed.

Lemma seg_here_length (s rest : string) :
  Seg.here s = Some rest -> (String.length rest < String.length s)%nat.
Proof.
  unfold Seg.here. intros Hh.
  destruct s as [|c [|d s]];
    [discriminate Hh
    |destruct c as [[] [] [] [] [] [] [] []]; discriminate Hh|].
  destruct c as [[] [] [] [] [] [] [] []]; try discriminate Hh.
  destruct (Chr.is_digit d); [|discriminate Hh].
  pose proof (skip_digits_length s) as Hlen.
  destruct (Seg.skip_digits s) as [|c' r]; [discriminate Hh|].
  destruct c' as [[] [] [] [] [] [] [] []]; try discriminate Hh.
  injection Hh as <-. cbn in *. lia.
Qed.

(** Stripping a segment shortens the key. *)
Lemma seg_strip_length (s s' : string) :
  Seg.strip s = Some s' -> (String.length s' < String.length s)%nat.
Proof.
  revert s'. induction s as [|c s IH]; intros s'; [discriminate|].
  cbn [Seg.strip]. destruct (Seg.here (String c s)) as [rest|] eqn:Hhere.
  - intros [= <-]. now apply seg_here_length.
  - destruct (Seg.strip s) as [t|]; [|discriminate].
    intros [= <-]. specialize (IH t eq_refl). cbn. lia.
Qed.

Section DefsFacts.

Context {V : Type}.
Implicit Types (defs : gmap string V) (id : string).

Lemma getFromDefs_loop_enough defs (fuel1 fuel2 : nat) id :
  (String.length id <= fuel1)%nat -> (String.length id <= fuel2)%nat ->
  getFromDefs_loop fuel1 id defs = getFromDefs_loop fuel2 id defs.
Proof.
  revert fuel2 id. induction fuel1 as [|fuel1 IH]; intros fuel2 id H1 H2.
  - destruct id; [|cbn in H1; lia].
    destruct fuel2; cbn; destruct (read_defs defs EmptyString); reflexivity.
  - destruct fuel2 as [|fuel2].
    + destruct id; [|cbn in H2; lia].
      cbn. destruct (read_defs defs EmptyString); reflexivity.
    + cbn. destruct (read_defs defs id); try reflexivity.
      destruct (Seg.strip id) as [id'|] eqn:Hs; [|reflexivity].
      apply seg_strip_length in Hs. apply IH; lia.
Qed.

(** The loop of [getFromDefs], one round at a time: [length id] rounds of
    fuel are never used up. *)
Lemma getFromDefs_member_unfold defs id :
  getFromDefs_member id defs
  = match read_defs defs id with
    | Undefined =>
        match Seg.strip id with
        | Some id' => getFromDefs_member id' defs
        | None => Undefined
        end
    | found => found
    end.
Proof.
  unfold getFromDefs_member. destruct (String.length id) as [|n] eqn:Hlen.
  - destruct id; [|discriminate]. cbn.
    destruct (read_defs defs EmptyString); reflexivity.
  - cbn. destruct (read_defs defs id); try reflexivity.
    destruct (Seg.strip id) as [id'|] eqn:Hs; [|reflexivity].
    apply seg_strip_length in Hs. apply getFromDefs_loop_enough; lia.
Qed.

(** The same for the node returned: a key that is no member of
    [Object.prototype] is either a node of [defs] or sends the loop one
    level up. *)
Lemma getFromDefs_unfold defs id :
  inherited id = false ->
  getFromDefs id defs
  = match defs !! id with
    | Some node => Some node
    | None =>
        match Seg.strip id with
        | Some id' => getFromDefs id' defs
        | None => None
        end
    end.
Proof.
  intros Hid. unfold getFromDefs. rewrite getFromDefs_member_unfold.
  unfold read_defs. rewrite Hid.
  destruct (defs !! id); [reflexivity|].
  destruct (Seg.strip id); reflexivity.
Qed.

End DefsFacts.

Lemma string_of_uint_digits (d : Decimal.uint) :
  all_digits (NilEmpty.string_of_uint d) = true.
Proof. induction d; cbn; auto. Qed.

Lemma nat_to_string_digits (k : nat) :
  exists d ds, nat_to_string k = String d ds
    /\ Chr.is_digit d = true /\ all_digits ds = true.
Proof.
  unfold nat_to_string, NilZero.string_of_uint.
  pose proof (string_of_uint_digits (Nat.to_uint k)) as Hd.
  destruct (Nat.to_uint k) eqn:Hk; cbn in *;
    try (apply andb_prop in Hd as [Hd1 Hd2]); eauto 6.
Qed.

Lemma skip_digits_app (ds rest : string) :
  all_digits ds = true ->
  Seg.skip_digits (ds +:+ String "_" rest) = String "_" rest.
Proof.
  induction ds as [|c ds IH]; [reflexivity|].
  rewrite append_cons. cbn [all_digits Seg.skip_digits].
  intros [Hc Hds]%andb_prop. rewrite Hc. auto.
Qed.

(** The leftmost match of [/_\d+_/] in a key that starts with a segment is
    that segment. *)
Lemma seg_strip_segment (k : nat) (rest : string) :
  Seg.strip (segment k +:+ rest) = Some rest.
Proof.
  unfold segment. destruct (nat_to_string_digits k) as (d & ds & -> & Hd & Hds).
  rewrite !append_assoc.
  change (Seg.strip (String "_" (String d (ds +:+ String "_" rest))) = Some rest).
  unfold Seg.strip, Seg.here. rewrite Hd, skip_digits_app by assumption.
  reflexivity.
Qed.

(** A key that [nextChild] has prefixed is no member of
    [Object.prototype]: its second character is a digit. *)
Lemma inherited_segment (k : nat) (rest : string) :
  inherited (segment k +:+ rest) = false.
Proof.
  unfold segment. destruct (nat_to_string_digits k) as (d & ds & -> & Hd & _).
  rewrite !append_assoc.
  change (inherited (String "_" (String d (ds +:+ String "_" rest))) = false).
  assert (Hne : Ascii.eqb d "_" = false).
  { destruct d as [[] [] [] [] [] [] [] []]; try discriminate Hd; reflexivity. }
  unfold inherited, object_prototype_members.
  cbn [existsb String.eqb Ascii.eqb Bool.eqb]. rewrite Hne. reflexivity.
Qed.

(** For an id in which [/_\d+_/] has no match and which is no member of
    [Object.prototype], [getFromDefs] is the lookup of the specification:
    the full prefix first, then one segment less at a time.  What the
    source function returns is a node of [defs] or [undefined]. *)
Lemma getFromDefs_lookup_chain {V : Type} (defs : gmap string V)
    (segs : list nat) (id : string) :
  inherited id = false ->
  Seg.strip id = None ->
  getFromDefs_member (prefix_of segs +:+ id) defs
  = match lookup_chain defs segs id with
    | Some node => Own node
    | None => Undefined
    end
  /\ getFromDefs (prefix_of segs +:+ id) defs = lookup_chain defs segs id.
Proof.
  intros Hid Hclean.
  assert (Hm : getFromDefs_member (prefix_of segs +:+ id) defs
               = match lookup_chain defs segs id with
                 | Some node => Own node
                 | None => Undefined
                 end).
  { induction segs as [|k segs IH].
    - cbn [lookup_chain]. change (prefix_of [] +:+ id) with id.
      rewrite getFromDefs_member_unfold. unfold read_defs.
      rewrite Hid, Hclean. destruct (defs !! id); reflexivity.
    - cbn [prefix_of lookup_chain]. rewrite getFromDefs_member_unfold.
      unfold read_defs. rewrite append_assoc, inherited_segment.
      destruct (defs !! _); [reflexivity|].
      rewrite seg_strip_segment. exact IH. }
  split; [exact Hm|].
  unfold getFromDefs. rewrite Hm. destruct (lookup_chain defs segs id); reflexivity.
Qed.

Lemma getFromDefs_lookup_chain_witness :
  getFromDefs_member (prefix_of [1; 0]%nat +:+ "a")
    ({["_0_a" := 7%nat]} : gmap string nat)
  = match lookup_chain ({["_0_a" := 7%nat]} : gmap string nat) [1; 0]%nat "a" with
    | Some node => Own node
    | None => Undefined
    end
  /\ getFromDefs (prefix_of [1; 0]%nat +:+ "a") ({["_0_a" := 7%nat]} : gmap string nat)
     = lookup_chain ({["_0_a" := 7%nat]} : gmap string nat) [1; 0]%nat "a".
Proof. apply getFromDefs_lookup_chain; reflexivity. Defined.

(** Why the id must be no member of [Object.prototype]: in an empty
    [defs], [defs["toString"]] is the inherited function, which stops the
    loop and is returned; the lookup of the specification finds nothing. *)
Lemma getFromDefs_inherited_member :
  getFromDefs_member (prefix_of [0%nat] +:+ "toString") (∅ : gmap string nat)
  = Inherited
  /\ lookup_chain (∅ : gmap string nat) [0%nat] "toString" = None.
Proof. split; vm_compute; reflexivity. Qed.

(** The scoping example of the specification: the inner scope [_1__0_] sees
    its own ["a"] before the one of the root scope [_0_], a sibling scope
    [_2__0_] that does not declare ["a"] sees the one of the root. *)
Lemma getFromDefs_scoping_example :
  let defs : gmap string nat := {["_0_a" := 1%nat; "_1__0_a" := 2%nat]} in
  getFromDefs "_1__0_a" defs = Some 2%nat
  /\ getFromDefs "_2__0_a" ({["_0_a" := 1%nat]} : gmap string nat) = Some 1%nat
  /\ getFromDefs "_2__0_b" defs = None.
Proof. repeat split; vm_compute; reflexivity. Qed.

(** C4 (code bug).  The expression [/_\d+_/] is not tied to the prefix: when
    the prefix is used up, the loop goes on and strips matches inside the
    id.  From the root scope [_0_], the id ["_5__0_ab"] is looked up as
    ["_0__5__0_ab"], ["_5__0_ab"] and then ["_0_ab"], which is the key of the
    id ["ab"] declared in the root scope; with no prefix, ["a_1_b"] ends at
    ["ab"].  The claim has the lookup fail when no prefix segment remains. *)
Theorem getFromDefs_strips_inside_id {V : Type} (node : V) :
  getFromDefs (prefix_of [0%nat] +:+ "_5__0_ab") ({["_0_ab" := node]} : gmap string V)
    = Some node
  /\ lookup_chain ({["_0_ab" := node]} : gmap string V) [0%nat] "_5__0_ab" = None
  /\ getFromDefs (prefix_of [] +:+ "a_1_b") ({["ab" := node]} : gmap string V)
    = Some node
  /\ lookup_chain ({["ab" := node]} : gmap string V) [] "a_1_b" = None.
Proof. repeat split; vm_compute; reflexivity. Qed.

(** ** Gradient opacity *)

Section GradientFacts.

Context `{Collaborators}.




End GradientFacts.



(** Two stops with the opacities 0.5 and 0.3 in a linear gradient: the paint
    gets (0.5 + 0.3) / 4 = 0.2, not the mean 0.4 of the two stops. *)
Lemma averaged_opacity_example :
  let stop (o : string) :=
    mkElement "stop" [("stop-opacity", o)] [] [] None EmptyString None in
  averaged_opacity [stop "0.5"; stop "1"; stop "0.3"] 4 = Some (Fin (1 # 5)).
Proof. vm_compute. reflexivity. Qed.
(** ** The two readings of a number *)

Lemma space_no_literal (a : ascii) (s : string) :
  Chr.is_space a = true -> Lit.str_decimal_literal (String a s) = None.
Proof.
  intros Ha.
  destruct a as [[] [] [] [] [] [] [] []]; try discriminate Ha; reflexivity.
Qed.

Lemma prefixed_no_literal (s : string) (x : option Z) (v : num) :
  ToNum.prefixed s = Some x ->
  Lit.str_decimal_literal s <> Some (v, EmptyString).
Proof.
  intros Hp Hl. unfold ToNum.prefixed in Hp.
  destruct s as [|a [|c r]]; try discriminate Hp;
    try (destruct a as [[] [] [] [] [] [] [] []]; discriminate Hp).
  destruct a as [[] [] [] [] [] [] [] []]; try discriminate Hp.
  destruct c as [[] [] [] [] [] [] [] []]; try discriminate Hp;
    cbn in Hl; discriminate Hl.
Qed.

(** For a text that is a decimal numeral from its first to its last
    character, [ToNumber] and [parseFloat] give the value of the numeral:
    the test [opacity != 1] and the addition [parseFloat(opacity)] read the
    same number. *)
Lemma numeral_readings (s : string) (v : num) :
  Lit.str_decimal_literal s = Some (v, EmptyString) ->
  Str.trim s = s ->
  ToNum.of_string s = v /\ parseFloat s = v.
Proof.
  intros Hl Ht. split.
  - unfold ToNum.of_string. rewrite Ht.
    destruct s as [|a s']; [discriminate Hl|].
    destruct (ToNum.prefixed (String a s')) as [x|] eqn:Hp.
    + now destruct (prefixed_no_literal _ x v Hp).
    + now rewrite Hl.
  - unfold parseFloat.
    destruct s as [|a s']; [discriminate Hl|]. cbn [Str.drop_spaces].
    destruct (Chr.is_space a) eqn:Ha.
    + rewrite space_no_literal in Hl by exact Ha. discriminate Hl.
    + now rewrite Hl.
Qed.

(** ** Unresolved references *)

(** C8 (code bug).  The rectangle refers to a gradient that no scope
    declares.  [getFromDefs] returns [undefined] and the next line reads
    [fill.tagName]: a [TypeError] is thrown out of [renderNode], through the
    [svg] and out of [svgElementToPdf].  The circle after the rectangle is
    never drawn, and the three graphics states saved so far stay saved.  The
    claim has the reference ignored and the traversal go on. *)
Theorem unresolved_fill_throws `{MathLib} `{Collaborators} (fuel : nat) :
  getFromDefs "_0_missing" (∅ : gmap string loc) = None
  /\ exists w',
       svgElementToPdf (3 + fuel) 1%nat no_options unresolved_doc
         = Some (Throw TypeError, w')
       /\ w_pdf w'
          = [Pdf.saveGraphicsState;
             Pdf.setCurrentTransformationMatrix unitMatrix;
             Pdf.saveGraphicsState;
             Pdf.saveGraphicsState].
Proof.
  split; [reflexivity|].
  eexists. split; vm_compute; reflexivity.
Qed.

(** A [use] element whose target is unknown to the backend throws in the
    same way, when it reads [formObject.width]. *)
Lemma unresolved_use_throws `{MathLib} `{Collaborators} (w : World) :
  getFormObject (w_pdf w) "_0_missing" = None ->
  use (element_of "use" [("href", "#missing")] [] None) unitMatrix
      (newSvgPrefix "_0_") w
  = Some (Throw TypeError, w).
Proof.
  intros Hfo. unfold use. cbn -[getFormObject]. 
  vm_compute. vm_compute in Hfo. rewrite Hfo. reflexivity.
Qed.

(** ** Rules for the assertions *)

Section HoareRules.

Context {A B : Type}.
Implicit Types (F P J : World -> Prop).

Lemma bind_inv (m : M A) (k : A -> M B) (w : World) (r : outcome B) (w' : World) :
  (m ≫= k) w = Some (r, w') ->
  (exists e, m w = Some (Throw e, w') /\ r = Throw e)
  \/ (exists a w1, m w = Some (Ok a, w1) /\ k a w1 = Some (r, w')).
Proof.
  unfold mbind, M_bind. destruct (m w) as [[[a|e] w1]|]; intros Hr.
  - right. eauto.
  - left. injection Hr as <- <-. eauto.
  - discriminate.
Qed.

Lemma hoare_bind F P (m : M A) (k : A -> M B) (R : A -> World -> Prop)
    (Q : B -> World -> Prop) :
  hoare F P m R -> (forall a, hoare F (R a) (k a) Q) -> hoare F P (m ≫= k) Q.
Proof.
  intros Hm Hk w r w' HF HP Hrun.
  apply bind_inv in Hrun as [(e & Hrun & ->)|(a & w1 & Hrun & Hk')].
  - destruct (Hm _ _ _ HF HP Hrun) as [HF' _]. split; [exact HF'|]. discriminate.
  - destruct (Hm _ _ _ HF HP Hrun) as [HF1 HR].
    exact (Hk a _ _ _ HF1 (HR a eq_refl) Hk').
Qed.

Lemma hoare_ret F P (a : A) (Q : A -> World -> Prop) :
  (forall w, F w -> P w -> Q a w) -> hoare F P (mret a) Q.
Proof.
  intros HQ w r w' HF HP [= <- <-]. split; [exact HF|].
  intros a' [= <-]. auto.
Qed.

Lemma hoare_throw F P (e : string) (Q : A -> World -> Prop) :
  hoare F P (throw e) Q.
Proof. intros w r w' HF HP [= <- <-]. split; [exact HF|]. discriminate. Qed.

Lemma hoare_diverge F P (Q : A -> World -> Prop) : hoare F P diverge Q.
Proof. intros w r w' _ _ [=]. Qed.

Lemma hoare_weaken F (P P' : World -> Prop) (m : M A) (Q Q' : A -> World -> Prop) :
  hoare F P m Q ->
  (forall w, F w -> P' w -> P w) ->
  (forall a w, F w -> Q a w -> Q' a w) ->
  hoare F P' m Q'.
Proof.
  intros Hm HP HQ w r w' HF HP' Hrun.
  destruct (Hm _ _ _ HF (HP _ HF HP') Hrun) as [HF' HQ1].
  split; [exact HF'|]. intros a ->. apply HQ; auto.
Qed.

(** An invariant can be carried along as a precondition. *)
Lemma inv_returns J (m : M A) : inv J m -> returns J m (fun _ => J).
Proof.
  intros Hm w r w' _ HJ Hrun. destruct (Hm _ _ _ HJ I Hrun) as [HJ' _].
  split; [exact I|]. intros; exact HJ'.
Qed.

(** A second invariant is kept next to what is known already. *)
Lemma hoare_and_inv F P J (m : M A) (Q : A -> World -> Prop) :
  hoare F P m Q -> inv J m ->
  hoare F (fun w => P w /\ J w) m (fun a w => Q a w /\ J w).
Proof.
  intros Hm HJ w r w' HF [HP HJw] Hrun.
  destruct (Hm _ _ _ HF HP Hrun) as [HF' HQ].
  destruct (HJ _ _ _ HJw I Hrun) as [HJ' _].
  split; [exact HF'|]. intros a ->. split; [apply HQ; reflexivity|exact HJ'].
Qed.

End HoareRules.

Lemma inv_bind {A B : Type} (J : World -> Prop) (m : M A) (k : A -> M B) :
  inv J m -> (forall a, inv J (k a)) -> inv J (m ≫= k).
Proof.
  intros Hm Hk. unfold inv. eapply hoare_bind; [exact Hm|]. intros a. apply Hk.
Qed.

Lemma inv_ret {A : Type} (J : World -> Prop) (a : A) : inv J (mret a).
Proof. apply hoare_ret. auto. Qed.

Lemma inv_throw {A : Type} (J : World -> Prop) (e : string) : inv J (@throw A e).
Proof. apply hoare_throw. Qed.

Lemma inv_diverge {A : Type} (J : World -> Prop) : inv J (@diverge A).
Proof. apply hoare_diverge. Qed.

Lemma inv_lift {A : Type} (J : World -> Prop) (r : outcome A) : inv J (lift r).
Proof. destruct r; [apply inv_ret|apply inv_throw]. Qed.

Lemma inv_lift_fuel {A : Type} (J : World -> Prop) (r : option A) : inv J (lift_fuel r).
Proof. destruct r; [apply inv_ret|apply inv_diverge]. Qed.

Lemma inv_get_world (J : World -> Prop) : inv J get_world.
Proof.
  intros w r w' HJ _ [= <- <-]. split; [exact HJ|]. auto.
Qed.

Lemma inv_set_world (J : World -> Prop) (f : World -> World) :
  (forall w, J w -> J (f w)) -> inv J (set_world f).
Proof.
  intros Hf w r w' HJ _ [= <- <-]. split; [auto|]. auto.
Qed.

Lemma inv_get_node (J : World -> Prop) (l : loc) : inv J (get_node l).
Proof. apply inv_bind; [apply inv_get_world|]. intros; apply inv_ret. Qed.

Lemma inv_get_p (J : World -> Prop) : inv J get_p.
Proof.
  apply inv_bind; [apply inv_get_world|]. intros w.
  destruct (w_p w); [apply inv_ret|apply inv_throw].
Qed.

Lemma inv_each {S : Type} (J : World -> Prop) (f : loc -> S -> M S)
    (kids : list loc) (s : S) :
  (forall c s, c ∈ kids -> inv J (f c s)) -> inv J (each f kids s).
Proof.
  revert s. induction kids as [|c kids IH]; intros s Hf; cbn [each].
  - apply inv_ret.
  - apply inv_bind; [apply Hf; left|]. intros s'. apply IH.
    intros c' s'' Hin. apply Hf. now right.
Qed.

(** One step of a proof that a computation keeps an assertion: the rule is
    chosen by the head of the computation. *)
Ltac inv_basic :=
  lazymatch goal with
  | |- inv _ (mret _) => apply inv_ret
  | |- inv _ (throw _) => apply inv_throw
  | |- inv _ diverge => apply inv_diverge
  | |- inv _ (lift _) => apply inv_lift
  | |- inv _ (lift_fuel _) => apply inv_lift_fuel
  | |- inv _ get_world => apply inv_get_world
  | |- inv _ (get_node _) => apply inv_get_node
  | |- inv _ get_p => apply inv_get_p
  | |- inv _ (mbind _ _) => apply inv_bind; [|intros]
  | |- inv _ (match ?x with _ => _ end) => destruct x
  end.

(** ** Computations that only draw *)

Section Drawing.

Context `{MathLib} `{Collaborators}.

(** An assertion that no call other than the four of the graphics-state
    discipline can break, and that does not look at the global [p]. *)
Variable J : World -> Prop.
Hypothesis J_call : forall c w, neutral c = true -> J w -> J (add_call c w).
Hypothesis J_p : forall p w, J w -> J (with_p p w).

Lemma inv_emit (c : Pdf.call) : neutral c = true -> inv J (emit c).
Proof. intros Hc. apply inv_set_world. intros w. now apply J_call. Qed.

Lemma inv_set_p (p : point) : inv J (set_p p).
Proof. apply inv_set_world. intros w. apply J_p. Qed.

Lemma inv_curve_case list i seg v : inv J (curve_case list i seg v).
Proof.
  unfold curve_case.
  repeat lazymatch goal with
         | |- inv _ (set_p _) => apply inv_set_p
         | |- _ => inv_basic
         end.
Qed.

Ltac draw_step :=
  lazymatch goal with
  | |- inv _ (set_p _) => apply inv_set_p
  | |- inv _ (emit _) => apply inv_emit; reflexivity
  | |- inv _ (curve_case _ _ _ _) => apply inv_curve_case
  | |- _ => inv_basic
  end.

Ltac draw_auto := repeat draw_step.

Lemma inv_lines_step list tfMatrix i seg v : inv J (lines_step list tfMatrix i seg v).
Proof.
  unfold lines_step.
  draw_auto.
Qed.

Lemma inv_lines_loop list tfMatrix i rest v : inv J (lines_loop list tfMatrix i rest v).
Proof.
  revert i v. induction rest as [|seg rest IH]; intros i v; cbn [lines_loop].
  - apply inv_ret.
  - apply inv_bind; [apply inv_lines_step|]. intros; apply IH.
Qed.

Lemma inv_getLinesFromPath list tfMatrix : inv J (getLinesFromPath list tfMatrix).
Proof.
  unfold getLinesFromPath. apply inv_bind; [apply inv_lines_loop|].
  intros; apply inv_ret.
Qed.

Lemma inv_polygon n tfMatrix colorMode gradient gradientMatrix :
  inv J (polygon n tfMatrix colorMode gradient gradientMatrix).
Proof. unfold polygon. draw_auto. Qed.

Lemma inv_path n tfMatrix svgIdPrefix colorMode gradient gradientMatrix :
  inv J (path n tfMatrix svgIdPrefix colorMode gradient gradientMatrix).
Proof.
  unfold path. apply inv_bind; [apply inv_getLinesFromPath|].
  intros [lines markers]. apply inv_bind; [|intros; draw_auto].
  destruct (truthy_str _); [|apply inv_ret].
  induction markers as [|tf markers IH]; cbn [foldr]; [apply inv_ret|].
  destruct (Url.exec _); [|apply inv_throw].
  apply inv_bind; [apply inv_emit; reflexivity|]. intros; exact IH.
Qed.

Lemma inv_use n tfMatrix svgIdPrefix : inv J (use n tfMatrix svgIdPrefix).
Proof. unfold use. draw_auto. Qed.

Lemma inv_line n tfMatrix : inv J (line n tfMatrix).
Proof. unfold line. draw_auto. Qed.

Lemma inv_rect n colorMode gradient gradientMatrix :
  inv J (rect n colorMode gradient gradientMatrix).
Proof. unfold rect. draw_auto. Qed.

Lemma inv_ellipse n colorMode gradient gradientMatrix :
  inv J (ellipse n colorMode gradient gradientMatrix).
Proof. unfold ellipse. draw_auto. Qed.

Lemma inv_circle n colorMode gradient gradientMatrix :
  inv J (circle n colorMode gradient gradientMatrix).
Proof. unfold circle. draw_auto. Qed.

Lemma inv_putGradient node n type coords defs svgIdPrefix :
  inv J (putGradient node n type coords defs svgIdPrefix).
Proof. unfold putGradient. draw_auto. Qed.

Lemma inv_fill_mode n tfMatrix defs svgIdPrefix :
  inv J (fill_mode n tfMatrix defs svgIdPrefix).
Proof. unfold fill_mode. draw_auto. Qed.

Lemma inv_stroke_mode n pt : inv J (stroke_mode n pt).
Proof. unfold stroke_mode. draw_auto. Qed.

End Drawing.

(** ** Computations that change the document *)

Section Stable.

Context `{MathLib} `{Collaborators}.

(** An assertion as before that moreover does not look at the nodes, and
    that stays true when more addresses are in use. *)
Variable J : World -> Prop.
Hypothesis J_call : forall c w, neutral c = true -> J w -> J (add_call c w).
Hypothesis J_p : forall p w, J w -> J (with_p p w).
Hypothesis J_nodes : forall nodes next w,
  (w_next w <= next)%nat -> J w -> J (with_nodes nodes next w).

Lemma inv_update_node l f : inv J (update_node l f).
Proof. apply inv_set_world. intros w. now apply J_nodes. Qed.

Lemma inv_alloc e : inv J (alloc e).
Proof.
  unfold alloc. apply inv_bind; [apply inv_get_world|]. intros w0.
  apply inv_bind; [|intros; apply inv_ret].
  apply inv_set_world. intros w. apply J_nodes. lia.
Qed.

Lemma inv_removeChild parent child : inv J (removeChild parent child).
Proof.
  unfold removeChild. apply inv_bind; [apply inv_update_node|].
  intros; apply inv_update_node.
Qed.

Lemma inv_appendChild parent child : inv J (appendChild parent child).
Proof.
  unfold appendChild. apply inv_bind; [apply inv_get_node|]. intros c.
  apply inv_bind.
  - destruct (parentNode c); [apply inv_removeChild|apply inv_ret].
  - intros _. apply inv_bind; [apply inv_update_node|].
    intros; apply inv_update_node.
Qed.

Lemma inv_clone_children clone kids :
  (forall k, inv J (clone k)) -> inv J (clone_children clone kids).
Proof.
  intros Hc. induction kids as [|k ks IH]; cbn [clone_children]; [apply inv_ret|].
  apply inv_bind; [apply Hc|]. intros k'.
  apply inv_bind; [apply IH|]. intros; apply inv_ret.
Qed.

Lemma inv_cloneNode fuel l parent : inv J (cloneNode fuel l parent).
Proof.
  revert l parent. induction fuel as [|fuel IH]; intros l parent; cbn [cloneNode].
  - apply inv_diverge.
  - apply inv_bind; [apply inv_get_node|]. intros e.
    apply inv_bind; [apply inv_alloc|]. intros copy.
    apply inv_bind; [apply inv_clone_children; intros; apply IH|].
    intros kids. apply inv_bind; [apply inv_update_node|].
    intros; apply inv_ret.
Qed.

Lemma inv_image n : inv J (image n).
Proof.
  unfold image. apply inv_bind; [apply inv_alloc|]. intros _.
  apply inv_bind; [apply inv_alloc|]. intros _.
  apply inv_emit; [assumption|reflexivity].
Qed.

Ltac stable_step :=
  lazymatch goal with
  | |- inv _ (update_node _ _) => apply inv_update_node
  | |- inv _ (alloc _) => apply inv_alloc
  | |- inv _ (removeChild _ _) => apply inv_removeChild
  | |- inv _ (appendChild _ _) => apply inv_appendChild
  | |- inv _ (emit _) => apply (inv_emit J J_call); reflexivity
  | |- _ => inv_basic
  end.

Lemma inv_text node n tfMatrix hasFill fillRGB :
  inv J (text node n tfMatrix hasFill fillRGB).
Proof.
  unfold text. repeat stable_step.
  all: try (apply inv_each; intros c [x y] _; repeat stable_step).
Qed.

End Stable.

(** ** The traversal keeps what no step can break *)

Section Traversal.

Context `{MathLib} `{Collaborators}.

(** An assertion that no call and no change of the document can break. *)
Variable J : World -> Prop.
Hypothesis J_call : forall c w, J w -> J (add_call c w).
Hypothesis J_p : forall p w, J w -> J (with_p p w).
Hypothesis J_nodes : forall nodes next w,
  (w_next w <= next)%nat -> J w -> J (with_nodes nodes next w).

Let J_neutral : forall c w, neutral c = true -> J w -> J (add_call c w) :=
  fun c w _ => J_call c w.

Lemma inv_emit_any (c : Pdf.call) : inv J (emit c).
Proof. apply inv_set_world. intros w. apply J_call. Qed.

Section Body.

Variable renderNode : loc -> Matrix -> scope -> bool -> M scope.
Hypothesis inv_renderNode : forall node ctx sc wd, inv J (renderNode node ctx sc wd).

Lemma inv_findAndRenderDefs n tfMatrix sc wd :
  inv J (findAndRenderDefs renderNode n tfMatrix sc wd).
Proof.
  unfold findAndRenderDefs. apply inv_bind; [apply inv_get_node|]. intros e.
  apply inv_each. intros c s _.
  apply inv_bind; [apply inv_get_node|]. intros ce.
  destruct (String.eqb _ _); [|apply inv_ret].
  apply inv_bind; [apply inv_renderNode|]. intros s'.
  apply inv_bind; [apply inv_get_node|]. intros ce'.
  destruct (parentNode ce'); [|apply inv_throw].
  apply inv_bind; [now apply inv_removeChild|]. intros; apply inv_ret.
Qed.

Lemma inv_renderChildren n tfMatrix sc wd :
  inv J (renderChildren renderNode n tfMatrix sc wd).
Proof.
  unfold renderChildren. apply inv_bind; [apply inv_get_node|]. intros e.
  apply inv_each. intros; apply inv_renderNode.
Qed.

Lemma inv_svg n tfMatrix sc wd : inv J (svg renderNode n tfMatrix sc wd).
Proof.
  unfold svg. destruct (nextChild sc.2) as [newp p].
  apply inv_bind; [apply inv_findAndRenderDefs|]. intros inner.
  apply inv_bind; [apply inv_renderChildren|]. intros; apply inv_ret.
Qed.

Lemma inv_draw node n tfMatrix sc wd pt :
  inv J (draw renderNode node n tfMatrix sc wd pt).
Proof.
  unfold draw.
  repeat match goal with
         | |- inv _ (if ?b then _ else _) => destruct b
         end;
    repeat first
      [ apply inv_svg | apply inv_findAndRenderDefs | apply inv_renderChildren
      | apply inv_emit_any
      | apply inv_use; assumption | apply inv_line; assumption
      | apply inv_rect; assumption | apply inv_ellipse; assumption
      | apply inv_circle; assumption
      | apply inv_text; assumption
      | apply inv_path; assumption
      | apply inv_polygon; assumption
      | apply inv_image; assumption
      | apply inv_putGradient; assumption
      | apply inv_ret
      | apply inv_bind; [|intros] ].
Qed.

Lemma inv_renderNode_body node ctx sc wd :
  inv J (renderNode_body renderNode node ctx sc wd).
Proof.
  unfold renderNode_body.
  apply inv_bind; [apply inv_get_node|]. intros n.
  apply inv_bind.
  { destruct (_ && _);
      repeat lazymatch goal with
             | |- inv _ (emit _) => apply inv_emit_any
             | |- _ => inv_basic
             end. }
  intros [tfMatrix wd'].
  apply inv_bind.
  { destruct (is_ n _); [|apply inv_ret].
    apply inv_bind; [apply inv_fill_mode; assumption|]. intros pt.
    apply inv_bind; [apply inv_emit_any|]. intros; apply inv_ret. }
  intros pt. apply inv_bind.
  { destruct (is_ n _); [apply inv_stroke_mode; assumption|apply inv_ret]. }
  intros colorMode. apply inv_bind; [apply inv_draw|]. intros sc'.
  apply inv_bind; [|intros; apply inv_ret].
  destruct (_ && _); apply inv_emit_any.
Qed.

End Body.

Lemma inv_renderNode fuel node ctx sc wd : inv J (renderNode fuel node ctx sc wd).
Proof.
  revert node ctx sc wd. induction fuel as [|fuel IH]; intros; cbn [renderNode].
  - apply inv_diverge.
  - apply inv_renderNode_body. exact IH.
Qed.

Lemma inv_svgElementToPdf fuel element options :
  inv J (svgElementToPdf fuel element options).
Proof.
  unfold svgElementToPdf.
  apply inv_bind; [apply inv_emit_any|]. intros _.
  apply inv_bind; [apply inv_emit_any|]. intros _.
  apply inv_bind; [now apply inv_cloneNode|]. intros clone.
  apply inv_bind; [apply inv_renderNode|]. intros _. apply inv_emit_any.
Qed.

End Traversal.

(** No step takes an address back, and [document.body] stays the same
    object. *)
Lemma renderNode_next_mono `{MathLib} `{Collaborators} (X : nat) fuel node ctx sc wd :
  inv (fun w => (X <= w_next w)%nat) (renderNode fuel node ctx sc wd).
Proof. apply inv_renderNode; cbn; intros; lia. Qed.

Lemma renderNode_body_same `{MathLib} `{Collaborators} (b : loc) fuel node ctx sc wd :
  inv (fun w => w_body w = b) (renderNode fuel node ctx sc wd).
Proof. apply inv_renderNode; cbn; intros; assumption. Qed.

(** ** Graphics states are balanced on the paths that return *)

Lemma frames_after_app (open : list frame) (t1 t2 : list Pdf.call) :
  frames_after open (t1 ++ t2)
  = frames_after open t1 ≫= fun open' => frames_after open' t2.
Proof.
  revert open. induction t1 as [|c t1 IH]; intros open; cbn; [reflexivity|].
  destruct (frame_step open c); cbn; [apply IH|reflexivity].
Qed.

Lemma frame_step_neutral (open : list frame) (c : Pdf.call) :
  neutral c = true -> frame_step open c = Some open.
Proof. destruct c; cbn; intros; (reflexivity || discriminate). Qed.

Lemma frame_step_under (open open' rest : list frame) (c : Pdf.call) :
  frame_step open c = Some open' -> frame_step (open ++ rest) c = Some (open' ++ rest).
Proof.
  destruct c; cbn; try (intros [= <-]; reflexivity).
  - destruct open as [|[] open]; intros [= <-]; reflexivity.
  - destruct open as [|[] open]; intros [= <-]; reflexivity.
Qed.

Lemma frames_after_under (open open' rest : list frame) (t : list Pdf.call) :
  frames_after open t = Some open' ->
  frames_after (open ++ rest) t = Some (open' ++ rest).
Proof.
  revert open. induction t as [|c t IH]; intros open; cbn.
  - intros [= <-]. reflexivity.
  - destruct (frame_step open c) as [open1|] eqn:Hc; [|discriminate].
    rewrite (frame_step_under _ _ rest _ Hc). apply IH.
Qed.

(** A balanced run of calls leaves any frames that were open as they were. *)
Lemma balanced_under (t : list Pdf.call) (open : list frame) :
  balanced t -> frames_after open t = Some open.
Proof. intros Hb. apply (frames_after_under [] [] open t Hb). Qed.

Lemma trace_inv_neutral base open0 open c w :
  neutral c = true -> trace_inv base open0 open w ->
  trace_inv base open0 open (add_call c w).
Proof.
  intros Hc (t & Ht & Hf). exists (t ++ [c]). split.
  - cbn. rewrite Ht. now rewrite app_assoc.
  - rewrite frames_after_app, Hf. cbn. now rewrite frame_step_neutral.
Qed.

Lemma trace_inv_p base open0 open p w :
  trace_inv base open0 open w -> trace_inv base open0 open (with_p p w).
Proof. intros H; exact H. Qed.

Lemma trace_inv_nodes base open0 open nodes next w :
  (w_next w <= next)%nat -> trace_inv base open0 open w ->
  trace_inv base open0 open (with_nodes nodes next w).
Proof. intros _ H; exact H. Qed.

Section Keeps.

Context {A B : Type}.

Lemma returns_bind (P : World -> Prop) (m : M A) (k : A -> M B)
    (R : A -> World -> Prop) (Q : B -> World -> Prop) :
  returns P m R -> (forall a, returns (R a) (k a) Q) -> returns P (m ≫= k) Q.
Proof. apply hoare_bind. Qed.

Lemma returns_keep (P : World -> Prop) (m : M A) :
  inv P m -> returns P m (fun _ => P).
Proof. apply inv_returns. Qed.

Lemma returns_weaken (P P' : World -> Prop) (m : M A) (Q Q' : A -> World -> Prop) :
  returns P m Q -> (forall w, P' w -> P w) -> (forall a w, Q a w -> Q' a w) ->
  returns P' m Q'.
Proof. intros Hm HP HQ. eapply hoare_weaken; [exact Hm| |]; auto. Qed.

Lemma returns_exists {X : Type} (P : X -> World -> Prop) (m : M A)
    (Q : X -> A -> World -> Prop) :
  (forall x, returns (P x) m (Q x)) ->
  returns (fun w => exists x, P x w) m (fun a w => exists x, Q x a w).
Proof.
  intros Hm w r w' _ [x HP] Hrun.
  destruct (Hm x _ _ _ I HP Hrun) as [_ HQ]. split; [exact I|]. eauto.
Qed.

End Keeps.

Lemma returns_each {S : Type} (P : World -> Prop) (f : loc -> S -> M S)
    (kids : list loc) (s : S) :
  (forall c s, returns P (f c s) (fun _ => P)) ->
  returns P (each f kids s) (fun _ => P).
Proof.
  intros Hf. revert s. induction kids as [|c kids IH]; intros s; cbn [each].
  - apply hoare_ret. auto.
  - eapply returns_bind; [apply Hf|]. intros s'. apply IH.
Qed.

Lemma returns_emit (t : list Pdf.call) (c : Pdf.call) :
  returns (fun w => w_pdf w = t) (emit c) (fun _ w => w_pdf w = t ++ [c]).
Proof.
  intros w r w' _ Ht [= <- <-]. split; [exact I|]. intros _ _. cbn. now rewrite Ht.
Qed.

Section Balance.

Context `{MathLib} `{Collaborators}.

Lemma keeps_frames_inv {A : Type} (m : M A) :
  (forall base open0 open, inv (trace_inv base open0 open) m) -> keeps_frames m.
Proof. intros Hm base open0 open. apply returns_keep, Hm. Qed.

Lemma keeps_frames_bind {A B : Type} (m : M A) (k : A -> M B) :
  keeps_frames m -> (forall a, keeps_frames (k a)) -> keeps_frames (m ≫= k).
Proof.
  intros Hm Hk base open0 open. eapply returns_bind; [apply Hm|].
  intros a. apply Hk.
Qed.

Lemma keeps_frames_ret {A : Type} (a : A) : keeps_frames (mret a).
Proof. intros base open0 open. apply hoare_ret. auto. Qed.

Lemma keeps_frames_each {S : Type} (f : loc -> S -> M S) (kids : list loc) (s : S) :
  (forall c s, keeps_frames (f c s)) -> keeps_frames (each f kids s).
Proof. intros Hf base open0 open. apply returns_each. intros; apply Hf. Qed.

(** What keeps the open frames keeps them after an entry action too. *)
Lemma keeps_frames_mid {A : Type} (m : M A) (t0 : list Pdf.call)
    (shape : Pdf.call -> Prop) :
  keeps_frames m ->
  returns (fun w => exists entry, trace_inv (t0 ++ [entry]) [] [] w /\ shape entry) m
    (fun _ w => exists entry, trace_inv (t0 ++ [entry]) [] [] w /\ shape entry).
Proof.
  intros Hm w r w' _ (entry & Ht & Hs) Hrun.
  destruct (Hm _ _ _ w r w' I Ht Hrun) as [_ HQ].
  split; [exact I|]. intros a ->. exists entry. split; [now apply (HQ a)|exact Hs].
Qed.

Section Body.

Variable renderNode : loc -> Matrix -> scope -> bool -> M scope.
Hypothesis keeps_renderNode :
  forall node ctx sc wd, keeps_frames (renderNode node ctx sc wd).

Lemma keeps_findAndRenderDefs n tfMatrix sc wd :
  keeps_frames (findAndRenderDefs renderNode n tfMatrix sc wd).
Proof.
  unfold findAndRenderDefs. apply keeps_frames_bind.
  { apply keeps_frames_inv; intros; apply inv_get_node. }
  intros e. apply keeps_frames_each. intros c s.
  apply keeps_frames_bind.
  { apply keeps_frames_inv; intros; apply inv_get_node. }
  intros ce. destruct (String.eqb _ _); [|apply keeps_frames_ret].
  apply keeps_frames_bind; [apply keeps_renderNode|]. intros s'.
  apply keeps_frames_inv. intros.
  apply inv_bind; [apply inv_get_node|]. intros ce'.
  destruct (parentNode ce'); [|apply inv_throw].
  apply inv_bind; [|intros; apply inv_ret].
  apply inv_removeChild. apply trace_inv_nodes.
Qed.

Lemma keeps_renderChildren n tfMatrix sc wd :
  keeps_frames (renderChildren renderNode n tfMatrix sc wd).
Proof.
  unfold renderChildren. apply keeps_frames_bind.
  { apply keeps_frames_inv; intros; apply inv_get_node. }
  intros e. apply keeps_frames_each. intros; apply keeps_renderNode.
Qed.

Lemma keeps_svg n tfMatrix sc wd :
  keeps_frames (svg renderNode n tfMatrix sc wd).
Proof.
  unfold svg. destruct (nextChild sc.2) as [newp p].
  apply keeps_frames_bind; [apply keeps_findAndRenderDefs|]. intros inner.
  apply keeps_frames_bind; [apply keeps_renderChildren|].
  intros; apply keeps_frames_ret.
Qed.

Lemma keeps_draw node n tfMatrix sc wd pt :
  keeps_frames (draw renderNode node n tfMatrix sc wd pt).
Proof.
  assert (Hleaf : forall (m : M unit),
            (forall base open0 open, inv (trace_inv base open0 open) m) ->
            keeps_frames (m;; mret sc)).
  { intros m Hm. apply keeps_frames_bind; [now apply keeps_frames_inv|].
    intros; apply keeps_frames_ret. }
  assert (Hcall : forall base open0 open c w,
            neutral c = true -> trace_inv base open0 open w ->
            trace_inv base open0 open (add_call c w))
    by (intros; now apply trace_inv_neutral).
  assert (Hnodes : forall base open0 open nodes next w,
            (w_next w <= next)%nat -> trace_inv base open0 open w ->
            trace_inv base open0 open (with_nodes nodes next w))
    by (intros; now apply trace_inv_nodes).
  assert (Hp : forall base open0 open p w,
            trace_inv base open0 open w -> trace_inv base open0 open (with_p p w))
    by (intros; now apply trace_inv_p).
  unfold draw.
  repeat match goal with
         | |- keeps_frames (if ?b then _ else _) => destruct b
         end.
  - apply keeps_svg.
  - apply keeps_frames_bind; [apply keeps_findAndRenderDefs|].
    intros; apply keeps_renderChildren.
  - apply keeps_renderChildren.
  - apply keeps_renderChildren.
  - apply Hleaf. intros. apply inv_use; auto.
  - apply Hleaf. intros. apply inv_line; auto.
  - apply Hleaf. intros. apply inv_bind; [apply inv_emit; auto|].
    intros; apply inv_rect; auto.
  - apply Hleaf. intros. apply inv_bind; [apply inv_emit; auto|].
    intros; apply inv_ellipse; auto.
  - apply Hleaf. intros. apply inv_bind; [apply inv_emit; auto|].
    intros; apply inv_circle; auto.
  - apply Hleaf. intros. apply inv_text; auto.
  - apply Hleaf. intros. apply inv_path; auto.
  - apply Hleaf. intros. apply inv_polygon; auto.
  - apply Hleaf. intros. apply inv_bind; [apply inv_emit; auto|].
    intros; apply inv_image; auto.
  - apply keeps_frames_bind; [|intros; apply keeps_frames_ret].
    apply keeps_frames_inv. intros. apply inv_putGradient; auto.
  - apply keeps_frames_bind; [|intros; apply keeps_frames_ret].
    apply keeps_frames_inv. intros. apply inv_putGradient; auto.
  - apply keeps_frames_ret.
Qed.

(** The calls of one node: the entry action, a balanced run, and the exit
    action that closes the entry action. *)
Lemma renderNode_body_calls node ctx sc wd (t0 : list Pdf.call) :
  returns (fun w => w_pdf w = t0)
    (renderNode_body renderNode node ctx sc wd)
    (fun _ w => exists entry body exit,
       w_pdf w = t0 ++ entry :: body ++ [exit]
       /\ closes entry exit /\ balanced body).
Proof.
  unfold renderNode_body.
  eapply returns_bind.
  { apply returns_keep, inv_get_node. }
  intros n. cbv beta.
  set (target := wd && negb (Str.contains (tag n) gradient_tags)).
  set (shape := fun entry : Pdf.call =>
         if target then exists x y bw bh m, entry = Pdf.beginFormObject x y bw bh m
         else entry = Pdf.saveGraphicsState).
  eapply returns_bind with
    (R := fun _ w => exists entry, trace_inv (t0 ++ [entry]) [] [] w /\ shape entry).
  { intros w r w' _ Hw Hrun. split; [exact I|]. intros a ->.
    unfold shape. destruct target.
    - destruct (computeNodeTransform n) as [tf|]; [|discriminate Hrun].
      destruct (getUntransformedBBox n) as [[[[bx by_] bw] bh]|e];
        [|discriminate Hrun].
      injection Hrun as <- <-. eexists. split; [|eauto 10].
      exists []. split; [cbn; now rewrite Hw, app_nil_r|reflexivity].
    - destruct (computeNodeTransform n) as [tf|]; [|discriminate Hrun].
      injection Hrun as <- <-. eexists. split; [|reflexivity].
      exists []. split; [cbn; now rewrite Hw, app_nil_r|reflexivity]. }
  intros [tfMatrix wd'].
  eapply returns_bind.
  { apply keeps_frames_mid. apply keeps_frames_inv. intros.
    destruct (is_ n _); [|apply inv_ret].
    apply inv_bind; [apply inv_fill_mode|]. intros pt.
    apply inv_bind; [|intros; apply inv_ret].
    apply inv_emit; [apply trace_inv_neutral|reflexivity]. }
  intros pt. eapply returns_bind.
  { apply keeps_frames_mid. apply keeps_frames_inv. intros.
    destruct (is_ n _); [|apply inv_ret].
    apply inv_stroke_mode. apply trace_inv_neutral. }
  intros colorMode. eapply returns_bind.
  { apply keeps_frames_mid. apply keeps_draw. }
  intros sc'. cbv beta.
  eapply returns_bind with
    (R := fun _ w => exists entry body exit,
            w_pdf w = t0 ++ entry :: body ++ [exit]
            /\ closes entry exit /\ balanced body).
  { intros w r w' _ (entry & (body & Hw & Hbal) & Hentry) Hrun.
    split; [exact I|]. intros a ->. unfold shape in Hentry.
    destruct target.
    - injection Hrun as _ <-. destruct Hentry as (x & y & bw & bh & m & ->).
      eexists _, body, _.
      split; [cbn; rewrite Hw, <- !app_assoc; reflexivity|].
      split; [exact I|exact Hbal].
    - injection Hrun as _ <-. subst entry.
      eexists _, body, _.
      split; [cbn; rewrite Hw, <- !app_assoc; reflexivity|].
      split; [exact I|exact Hbal]. }
  intros _. apply hoare_ret. auto.
Qed.

Lemma keeps_renderNode_body node ctx sc wd :
  keeps_frames (renderNode_body renderNode node ctx sc wd).
Proof.
  intros base open0 open w r w' _ (t & Ht & Hf) Hrun.
  destruct (renderNode_body_calls node ctx sc wd (w_pdf w) w r w' I eq_refl Hrun)
    as [_ HQ].
  split; [exact I|]. intros a ->.
  destruct (HQ a eq_refl) as (entry & body & exit & Hw & Hcl & Hbal).
  exists (t ++ entry :: body ++ [exit]). split.
  - rewrite Hw, Ht. now rewrite app_assoc.
  - rewrite frames_after_app, Hf. cbn.
    destruct entry; try contradiction; destruct exit; try contradiction; cbn;
      rewrite frames_after_app, (balanced_under _ _ Hbal); reflexivity.
Qed.

End Body.

Lemma keeps_renderNode fuel node ctx sc wd :
  keeps_frames (renderNode fuel node ctx sc wd).
Proof.
  revert node ctx sc wd. induction fuel as [|fuel IH]; intros; cbn [renderNode].
  - intros base open0 open. apply hoare_diverge.
  - apply keeps_renderNode_body. exact IH.
Qed.

End Balance.

(** ** The caller's document is left as it was *)

Lemma calm_ret {A : Type} (a : A) : calm (mret a).
Proof. intros w r w' [= <- <-]. auto. Qed.

Lemma calm_throw {A : Type} (e : string) : calm (@throw A e).
Proof. intros w r w' [= <- <-]. auto. Qed.

Lemma calm_lift {A : Type} (x : outcome A) : calm (lift x).
Proof. destruct x; [apply calm_ret|apply calm_throw]. Qed.

Lemma calm_bind {A B : Type} (m : M A) (k : A -> M B) :
  calm m -> (forall a, calm (k a)) -> calm (m ≫= k).
Proof.
  intros Hm Hk w r w' Hrun.
  apply bind_inv in Hrun as [(e & Hrun & ->)|(a & w1 & Hrun & Hk')].
  - exact (Hm _ _ _ Hrun).
  - destruct (Hm _ _ _ Hrun) as (Hn & Hx & Hb).
    destruct (Hk a _ _ _ Hk') as (Hn' & Hx' & Hb').
    rewrite Hn', Hx', Hb'. auto.
Qed.

Lemma calm_emit (c : Pdf.call) : calm (emit c).
Proof. intros w r w' [= <- <-]. auto. Qed.

Lemma calm_get_node (l : loc) : calm (get_node l).
Proof. intros w r w' [= <- <-]. auto. Qed.

Lemma calm_each {S : Type} (f : loc -> S -> M S) (kids : list loc) (s : S) :
  (forall c s, calm (f c s)) -> calm (each f kids s).
Proof.
  intros Hf. revert s. induction kids as [|c kids IH]; intros s; cbn [each].
  - apply calm_ret.
  - apply calm_bind; [apply Hf|]. intros; apply IH.
Qed.

Lemma elem_closed_mono (b next next' : loc) (e : Element) :
  (next <= next')%nat -> elem_closed b next e -> elem_closed b next' e.
Proof.
  intros Hle [Hc Hp]. split.
  - intros c Hin. specialize (Hc c Hin). lia.
  - intros p Hpar. specialize (Hp p Hpar). lia.
Qed.

Lemma elem_closed_empty (b next : loc) (tag : string) :
  elem_closed b next (emptyElement tag).
Proof. split; cbn; [intros c Hin; inversion Hin|discriminate]. Qed.

Section Frame.

Context `{MathLib} `{Collaborators}.

(** The state the run started in. *)
Variable w0 : World.
Hypothesis Hwf : wf_world w0.

Let b : loc := w_next w0.
Let F (K : list loc) : World -> Prop := frame_with w0 K.

Lemma frame_call K c w : F K w -> F K (add_call c w).
Proof. intros H'; exact H'. Qed.

Lemma frame_p K p w : F K w -> F K (with_p p w).
Proof. intros H'; exact H'. Qed.

Lemma frame_weaken K K' w : (forall l, l ∈ K -> l ∈ K') -> F K' w -> F K w.
Proof. intros Hsub [HF HK]. split; [exact HF|]. intros l Hl. apply HK, Hsub, Hl. Qed.

Lemma node_at_closed K w l :
  F K w -> (b <= l)%nat -> elem_closed b (w_next w) (node_at w l).
Proof.
  intros [(_ & _ & _ & Hcl) _] Hl.
  unfold node_at. destruct (_ !! _) as [e|] eqn:He; cbn.
  - apply (Hcl l e Hl He).
  - apply elem_closed_empty.
Qed.

Lemma links_fresh K w l :
  F K w -> l ∈ K -> forall c, c ∈ links (node_at w l) -> fresh b c w.
Proof.
  intros HF Hl c Hc. destruct (HF) as [_ HK]. specialize (HK l Hl).
  destruct (node_at_closed K w l HF (proj1 HK)) as [Hch Hpa].
  unfold links in Hc. apply elem_of_app in Hc as [Hc|Hc].
  - apply Hch, Hc.
  - destruct (parentNode (node_at w l)) as [p|] eqn:Hp.
    + apply list_elem_of_singleton in Hc as ->. now apply Hpa.
    + inversion Hc.
Qed.

Lemma frame_grow K K' w :
  F K w -> (forall l, l ∈ K' -> fresh b l w) -> F (K' ++ K) w.
Proof.
  intros [HF HK] HK'. split; [exact HF|]. intros l [Hl|Hl]%elem_of_app; auto.
Qed.

Lemma frame_write K w l f :
  F K w -> fresh b l w -> elem_closed b (w_next w) (f (node_at w l)) ->
  F K (write_node l f w).
Proof.
  intros [(H1 & H2 & H3 & H4) HK] [Hlb Hln] Hcl. split; [|exact HK].
  split; [|split; [exact H2|split; [exact H3|]]].
  - intros l' Hl'. cbn. rewrite lookup_insert_ne by (fold b in Hl'; lia). now apply H1.
  - intros l' e Hl'. cbn. destruct (decide (l = l')) as [<-|Hne].
    + rewrite lookup_insert_eq. intros [= <-]. split; [exact Hln|exact Hcl].
    + rewrite lookup_insert_ne by exact Hne. apply H4, Hl'.
Qed.

Lemma frame_alloc K w e :
  F K w -> elem_closed b (S (w_next w)) e ->
  F (w_next w :: K) (with_nodes (<[w_next w := e]> (w_nodes w)) (S (w_next w)) w).
Proof.
  intros [(H1 & H2 & H3 & H4) HK] Hcl. split.
  - split; [|split; [cbn; lia|split; [exact H3|]]].
    + intros l' Hl'. cbn. rewrite lookup_insert_ne by lia. now apply H1.
    + intros l' e' Hl'. cbn. destruct (decide (w_next w = l')) as [<-|Hne].
      * rewrite lookup_insert_eq. intros [= <-]. split; [lia|exact Hcl].
      * rewrite lookup_insert_ne by exact Hne. intros He'.
        destruct (H4 l' e' Hl' He') as [Hlt Hc]. split; [lia|].
        eapply elem_closed_mono; [|exact Hc]. lia.
  - intros l [->|Hl]%elem_of_cons; unfold fresh; cbn.
    + fold b in H2. lia.
    + specialize (HK l Hl). unfold fresh in HK. lia.
Qed.

(** Continuing with more nodes known to be new. *)
Lemma hoare_grow {A : Type} K K' (P : World -> Prop) (m : M A)
    (Q : A -> World -> Prop) :
  (forall w, F K w -> P w -> forall l, l ∈ K' -> fresh b l w) ->
  hoare (F (K' ++ K)) P m Q -> hoare (F K) P m Q.
Proof.
  intros Hfresh Hm w r w' HF HP Hrun.
  destruct (Hm w r w' (frame_grow K K' w HF (Hfresh w HF HP)) HP Hrun) as [HF' HQ].
  split; [|exact HQ]. eapply frame_weaken; [|exact HF'].
  intros l Hl. apply elem_of_app. now right.
Qed.

Lemma inv_frame_update K l f :
  l ∈ K ->
  (forall w e, F K w -> elem_closed b (w_next w) e -> elem_closed b (w_next w) (f e)) ->
  inv (F K) (update_node l f).
Proof.
  intros Hl Hf w r w' HF _ [= <- <-]. split; [|auto].
  apply frame_write; [exact HF|apply HF, Hl|].
  apply Hf; [exact HF|]. eapply node_at_closed; [exact HF|]. apply HF, Hl.
Qed.

Lemma hoare_frame_alloc K e :
  hoare (F K) (fun w => elem_closed b (S (w_next w)) e) (alloc e)
    (fun l w => fresh b l w).
Proof.
  intros w r w' HF Hcl [= <- <-].
  pose proof (frame_alloc K w e HF Hcl) as HF'. split.
  - eapply frame_weaken; [|exact HF']. intros l Hl. now right.
  - intros a [= <-]. apply HF'. now left.
Qed.

(** The rest of a computation after a node was made. *)
Lemma inv_frame_alloc_bind {A : Type} K e (k : loc -> M A) :
  (forall next, elem_closed b next e) ->
  (forall l, inv (F (l :: K)) (k l)) ->
  inv (F K) (alloc e ≫= k).
Proof.
  intros Hcl Hk. unfold inv.
  eapply hoare_bind with (R := fun l w => fresh b l w).
  - eapply hoare_weaken; [apply hoare_frame_alloc| |].
    + intros w _ _. apply Hcl.
    + intros l w _ Hl. exact Hl.
  - intros l. apply (hoare_grow K [l]).
    + intros w _ Hl l' ->%list_elem_of_singleton. exact Hl.
    + eapply hoare_weaken; [apply (Hk l)|intros; exact I|intros; exact I].
Qed.

(** The rest of a computation after a node was read: its links are new
    nodes too. *)
Lemma inv_frame_get_node_bind {A : Type} K l (k : Element -> M A) :
  l ∈ K ->
  (forall e, inv (F (links e ++ K)) (k e)) ->
  inv (F K) (get_node l ≫= k).
Proof.
  intros Hl Hk. unfold inv.
  eapply hoare_bind with (R := fun e w => e = node_at w l).
  - intros w r w' HF _ [= <- <-]. split; [exact HF|]. now intros a [= <-].
  - intros e. apply (hoare_grow K (links e)).
    + intros w HF -> c Hc. eapply links_fresh; eauto.
    + eapply hoare_weaken; [apply (Hk e)|intros; exact I|intros; exact I].
Qed.

Lemma set_children_closed next (e : Element) (kids : list loc) :
  elem_closed b next e -> (forall c, c ∈ kids -> (b <= c < next)%nat) ->
  elem_closed b next (set_children kids e).
Proof. intros [_ Hp] Hk. split; [exact Hk|exact Hp]. Qed.

Lemma set_parentNode_closed next (e : Element) (p : option loc) :
  elem_closed b next e -> (forall q, p = Some q -> (b <= q < next)%nat) ->
  elem_closed b next (set_parentNode p e).
Proof. intros [Hc _] Hp. split; [exact Hc|exact Hp]. Qed.

Lemma inv_frame_removeChild K parent child :
  parent ∈ K -> child ∈ K -> inv (F K) (removeChild parent child).
Proof.
  intros Hp Hc. unfold removeChild. apply inv_bind.
  - apply inv_frame_update; [exact Hp|]. intros w e _ He.
    apply set_children_closed; [exact He|]. intros c [_ Hin]%list_elem_of_filter.
    exact (proj1 He c Hin).
  - intros _. apply inv_frame_update; [exact Hc|]. intros w e _ He.
    apply set_parentNode_closed; [exact He|]. discriminate.
Qed.

Lemma inv_frame_appendChild K parent child :
  parent ∈ K -> child ∈ K -> inv (F K) (appendChild parent child).
Proof.
  intros Hp Hc. unfold appendChild.
  apply inv_frame_get_node_bind; [exact Hc|]. intros c.
  assert (Hsub : forall l, l ∈ K -> l ∈ links c ++ K)
    by (intros l Hl; apply elem_of_app; now right).
  apply inv_bind.
  - destruct (parentNode c) as [old|] eqn:Hold; [|apply inv_ret].
    apply inv_frame_removeChild; [|now apply Hsub].
    apply elem_of_app. left. unfold links. rewrite Hold.
    apply elem_of_app. right. now left.
  - intros _. apply inv_bind.
    + apply inv_frame_update; [now apply Hsub|]. intros w e HF He.
      apply set_children_closed; [exact He|].
      intros k [Hk| ->%list_elem_of_singleton]%elem_of_app;
        [exact (proj1 He k Hk)|].
      apply HF, Hsub, Hc.
    + intros _. apply inv_frame_update; [now apply Hsub|]. intros w e HF He.
      apply set_parentNode_closed; [exact He|]. intros q [= <-].
      apply HF, Hsub, Hp.
Qed.

Lemma hoare_frame_update K (P : World -> Prop) l f :
  l ∈ K ->
  (forall w e, F K w -> P w -> elem_closed b (w_next w) e ->
     elem_closed b (w_next w) (f e)) ->
  hoare (F K) P (update_node l f) (fun _ _ => True).
Proof.
  intros Hl Hf w r w' HF HP [= <- <-]. split; [|auto].
  apply frame_write; [exact HF|apply HF, Hl|].
  apply Hf; [exact HF|exact HP|]. eapply node_at_closed; [exact HF|]. apply HF, Hl.
Qed.

Lemma hoare_frame_alloc_bind {A : Type} K e (k : loc -> M A) (Q : A -> World -> Prop) :
  (forall w, F K w -> elem_closed b (S (w_next w)) e) ->
  (forall l, hoare (F (l :: K)) (fun _ => True) (k l) Q) ->
  hoare (F K) (fun _ => True) (alloc e ≫= k) Q.
Proof.
  intros Hcl Hk.
  eapply hoare_bind with (R := fun l w => fresh b l w).
  - eapply hoare_weaken; [apply hoare_frame_alloc| |].
    + intros w HF _. now apply Hcl.
    + intros l w _ Hl. exact Hl.
  - intros l. apply (hoare_grow K [l]).
    + intros w _ Hl l' ->%list_elem_of_singleton. exact Hl.
    + eapply hoare_weaken; [apply (Hk l)|intros; exact I|intros; assumption].
Qed.

Lemma hoare_frame_clone_children (clone : loc -> M loc) kids (copy : loc) :
  (forall K k, copy ∈ K ->
     hoare (F K) (fun _ => True) (clone k) (fun k' w => fresh b k' w)) ->
  forall K, copy ∈ K ->
    hoare (F K) (fun _ => True) (clone_children clone kids)
      (fun kids' w => forall k, k ∈ kids' -> fresh b k w).
Proof.
  intros Hc. induction kids as [|k ks IH]; intros K Hcopy; cbn [clone_children].
  - apply hoare_ret. intros w _ _ k Hk. inversion Hk.
  - eapply hoare_bind; [now apply Hc|]. intros k'. cbv beta.
    apply (hoare_grow K [k']).
    { intros w _ Hk' l ->%list_elem_of_singleton. exact Hk'. }
    eapply hoare_weaken with (P := fun _ => True);
      [|intros; exact I|intros kids' w _ HQ; exact HQ].
    eapply hoare_bind; [apply IH; now right|]. intros rest. cbv beta.
    apply hoare_ret. intros w HF Hrest l [->|Hl]%elem_of_cons.
    + apply HF. now left.
    + now apply Hrest.
Qed.

Lemma hoare_frame_cloneNode fuel K l parent :
  (forall p, parent = Some p -> p ∈ K) ->
  hoare (F K) (fun _ => True) (cloneNode fuel l parent) (fun copy w => fresh b copy w).
Proof.
  revert K l parent. induction fuel as [|fuel IH]; intros K l parent Hpar;
    cbn [cloneNode].
  - apply hoare_diverge.
  - eapply hoare_bind with (R := fun _ _ => True); [apply inv_get_node|].
    intros e. apply hoare_frame_alloc_bind.
    { intros w HF. split; cbn; [intros c Hc; inversion Hc|].
      intros p Hp. specialize (Hpar p Hp). destruct HF as [_ HK].
      specialize (HK p Hpar). unfold fresh in HK. lia. }
    intros copy.
    eapply hoare_bind.
    { apply (hoare_frame_clone_children _ _ copy); [|now left].
      intros K' k Hin. apply IH. now intros p [= <-]. }
    intros kids. cbv beta.
    eapply hoare_bind with (R := fun _ _ => True).
    { apply hoare_frame_update; [now left|].
      intros w e' _ Hkids He'. apply set_children_closed; [exact He'|].
      intros c Hc. apply Hkids, Hc. }
    intros _. apply hoare_ret. intros w HF _. apply HF. now left.
Qed.

Lemma inv_frame_image K n : inv (F K) (image n).
Proof.
  unfold image.
  apply inv_frame_alloc_bind; [intros; apply elem_closed_empty|]. intros l1.
  apply inv_frame_alloc_bind; [intros; apply elem_closed_empty|]. intros l2.
  apply inv_emit; [intros; now apply frame_call|reflexivity].
Qed.

Lemma filter_out_appended (svg : loc) (kids : list loc) :
  svg ∉ kids -> filter (fun c => c ≠ svg) (kids ++ [svg]) = kids.
Proof.
  induction kids as [|k ks IH]; intros Hnin.
  - cbn [app]. rewrite filter_cons. destruct (decide (svg ≠ svg)) as [Hn|_].
    + now destruct Hn.
    + reflexivity.
  - apply not_elem_of_cons in Hnin as [Hne Hnin]. cbn [app].
    rewrite filter_cons. destruct (decide (k ≠ svg)) as [_|Hn].
    + now rewrite IH.
    + exfalso. apply Hn. intros ->. now apply Hne.
Qed.

Lemma node_at_write_eq w l f : node_at (write_node l f w) l = f (node_at w l).
Proof. unfold node_at at 1. cbn. now rewrite lookup_insert_eq. Qed.

Lemma node_at_write_ne w l l' f :
  l ≠ l' -> node_at (write_node l f w) l' = node_at w l'.
Proof. intros Hne. unfold node_at. cbn. now rewrite lookup_insert_ne. Qed.

Lemma node_at_lookup w l e : w_nodes w !! l = Some e -> node_at w l = e.
Proof. unfold node_at. now intros ->. Qed.

(** [appendChild] always returns, in the state that its three writes give. *)
Lemma appendChild_run parent child w r w' :
  appendChild parent child w = Some (r, w') ->
  r = Ok tt
  /\ w' = write_node child (set_parentNode (Some parent))
            (write_node parent (fun e => set_children (children e ++ [child]) e)
               (detach child w)).
Proof.
  unfold appendChild, detach, get_node, removeChild, update_node.
  unfold mbind, M_bind, mret, M_ret, get_world, set_world. cbn.
  destruct (parentNode (node_at w child)); cbn; inversion 1; auto.
Qed.

Lemma removeChild_run parent child w r w' :
  removeChild parent child w = Some (r, w') ->
  r = Ok tt
  /\ w' = write_node child (set_parentNode None)
            (write_node parent
               (fun e => set_children (filter (fun c => c ≠ child) (children e)) e) w).
Proof.
  unfold removeChild, update_node.
  unfold mbind, M_bind, mret, M_ret, get_world, set_world. cbn. inversion 1; auto.
Qed.

Lemma frame_detach K child w : child ∈ K -> F K w -> F K (detach child w).
Proof.
  intros Hc HF. unfold detach.
  destruct (parentNode (node_at w child)) as [old|] eqn:Hold; [|exact HF].
  assert (Hfresh : fresh b old w).
  { eapply (links_fresh K w child); [exact HF|exact Hc|].
    unfold links. rewrite Hold. apply elem_of_app. right. now left. }
  assert (HF1 : F K (write_node old
            (fun e => set_children (filter (fun c => c ≠ child) (children e)) e) w)).
  { apply frame_write; [exact HF|exact Hfresh|].
    pose proof (node_at_closed K w old HF (proj1 Hfresh)) as He.
    apply set_children_closed; [exact He|].
    intros c [_ Hin]%list_elem_of_filter. exact (proj1 He c Hin). }
  apply frame_write; [exact HF1|apply HF1, Hc|].
  apply set_parentNode_closed; [|discriminate].
  eapply node_at_closed; [exact HF1|]. apply HF1, Hc.
Qed.

(** The hidden [svg] element is appended to [document.body] and removed from
    it again: whatever happens in between without touching the document, the
    body is as it was. *)
Lemma frame_bracket K svg w1 w4 :
  F K w1 -> svg ∈ K ->
  let body := w_body w1 in
  let w2 := write_node svg (set_parentNode (Some body))
              (write_node body (fun e => set_children (children e ++ [svg]) e) w1) in
  w_nodes w4 = w_nodes w2 -> w_next w4 = w_next w2 -> w_body w4 = w_body w2 ->
  F K (write_node svg (set_parentNode None)
         (write_node body
            (fun e => set_children (filter (fun c => c ≠ svg) (children e)) e) w4)).
Proof.
  intros HF Hsvg body w2 Hn Hx Hb.
  destruct HF as [(H1 & H2 & H3 & H4) HK].
  destruct Hwf as [Hstored [eb Heb]].
  assert (Hbody_lt : (body < b)%nat).
  { unfold body. rewrite H3. exact (proj1 (Hstored _ _ Heb)). }
  assert (Hsvg_ge : (b <= svg < w_next w1)%nat) by apply HK, Hsvg.
  assert (Hne : body ≠ svg) by lia.
  assert (Hbody1 : w_nodes w1 !! body = Some eb).
  { rewrite H1 by exact Hbody_lt. unfold body. rewrite H3. exact Heb. }
  assert (Hnin : svg ∉ children eb).
  { intros Hin. destruct (Hstored _ _ Heb) as [_ Hkids].
    specialize (Hkids svg Hin). fold b in Hkids. lia. }
  assert (Hat4 : forall l, node_at w4 l = node_at w2 l).
  { intros l. unfold node_at. now rewrite Hn. }
  assert (Hbody4 : node_at w4 body
                   = set_children (children eb ++ [svg]) eb).
  { rewrite Hat4. unfold w2. rewrite node_at_write_ne by congruence.
    rewrite node_at_write_eq. now rewrite (node_at_lookup w1 body eb Hbody1). }
  set (s1 := node_at w1 svg).
  assert (Hs1 : elem_closed b (w_next w1) s1).
  { unfold s1, node_at. destruct (w_nodes w1 !! svg) as [e|] eqn:He; cbn.
    - refine (proj2 (H4 svg e _ He)). lia.
    - apply elem_closed_empty. }
  assert (Hrestored : set_children
            (filter (fun c => c ≠ svg) (children (node_at w4 body))) (node_at w4 body)
          = eb).
  { rewrite Hbody4. cbn. rewrite filter_out_appended by exact Hnin.
    destruct eb; reflexivity. }
  split; [|intros l Hl; specialize (HK l Hl); unfold fresh in *; cbn;
           rewrite Hx; cbn; exact HK].
  split; [|split; [cbn; rewrite Hx; cbn; exact H2|split; [cbn; rewrite Hb; exact H3|]]].
  - intros l Hl. cbn. rewrite lookup_insert_ne by (fold b in Hl; lia).
    destruct (decide (body = l)) as [<-|Hnl].
    + rewrite lookup_insert_eq, Hrestored. symmetry.
      rewrite <- (H1 body Hbody_lt). exact Hbody1.
    + rewrite lookup_insert_ne by exact Hnl. rewrite Hn. unfold w2. cbn.
      rewrite lookup_insert_ne by (fold b in Hl; lia).
      rewrite lookup_insert_ne by exact Hnl. now apply H1.
  - intros l e Hl. cbn. rewrite Hx. cbn.
    destruct (decide (svg = l)) as [<-|Hnl].
    + rewrite lookup_insert_eq. intros [= <-]. split; [lia|].
      rewrite node_at_write_ne by exact Hne. rewrite Hat4. unfold w2.
      rewrite node_at_write_eq, node_at_write_ne by exact Hne.
      split; cbn; [exact (proj1 Hs1)|discriminate].
    + rewrite lookup_insert_ne by exact Hnl.
      rewrite lookup_insert_ne by (fold b in Hl; lia).
      rewrite Hn. unfold w2. cbn. rewrite lookup_insert_ne by exact Hnl.
      rewrite lookup_insert_ne by (fold b in Hl; lia). apply H4, Hl.
Qed.

Lemma detach_body child w : w_body (detach child w) = w_body w.
Proof. unfold detach. destruct (parentNode _); reflexivity. Qed.

(** ** Runs that may stop while a text is measured *)

(** The triple of the traversal: started with the document as the caller
    left it, a computation stops with [frame_open], and with the document as
    the caller left it when it returns. *)
Let framed {A : Type} (K : list loc) (m : M A) : Prop :=
  hoare (frame_open w0) (F K) m (fun _ => F K).

(** The states between the [appendChild] and the [removeChild] of the
    hidden [svg] element. *)
Let inside (K : list loc) (svg : loc) (w : World) : Prop :=
  exists w1,
    F K w1 /\ svg ∈ K
    /\ w_nodes w
       = w_nodes (write_node svg (set_parentNode (Some (w_body w1)))
                    (write_node (w_body w1)
                       (fun e => set_children (children e ++ [svg]) e) w1))
    /\ w_next w = w_next w1 /\ w_body w = w_body w1.

Lemma frame_open_of K w : F K w -> frame_open w0 w.
Proof.
  intros [(H1 & _) _]. split; [intros l Hl _; now apply H1|].
  exists []. split; [intros c Hc; inversion Hc|].
  destruct Hwf as [Hstored [eb Heb]].
  rewrite H1 by exact (proj1 (Hstored _ _ Heb)). rewrite Heb. cbn.
  unfold with_more_children. rewrite app_nil_r. now destruct eb.
Qed.

Lemma frame_open_inside K svg w : inside K svg w -> frame_open w0 w.
Proof.
  intros (w1 & HF & Hsvg & Hn & _ & _).
  destruct (HF) as [(H1 & _ & H3 & _) HK].
  destruct Hwf as [Hstored [eb Heb]].
  assert (Hbody_lt : (w_body w0 < b)%nat) by exact (proj1 (Hstored _ _ Heb)).
  assert (Hsvg_ge : (b <= svg)%nat) by apply HK, Hsvg.
  rewrite H3 in Hn. unfold frame_open. rewrite Hn. cbn. split.
  - intros l Hl Hne. fold b in Hl.
    rewrite lookup_insert_ne by lia. rewrite lookup_insert_ne by congruence.
    now apply H1.
  - exists [svg]. split; [intros c ->%list_elem_of_singleton; exact Hsvg_ge|].
    rewrite lookup_insert_ne by lia. rewrite lookup_insert_eq.
    rewrite (node_at_lookup w1 (w_body w0) eb)
      by (rewrite H1 by exact Hbody_lt; exact Heb).
    now rewrite Heb.
Qed.

Lemma framed_inv {A : Type} K (m : M A) : inv (F K) m -> framed K m.
Proof.
  intros Hm w r w' _ HF Hrun. destruct (Hm _ _ _ HF I Hrun) as [HF' _].
  split; [now apply (frame_open_of K)|]. intros; exact HF'.
Qed.

Lemma framed_bind {A B : Type} K (m : M A) (k : A -> M B) :
  framed K m -> (forall a, framed K (k a)) -> framed K (m ≫= k).
Proof. intros Hm Hk. eapply hoare_bind; [exact Hm|]. exact Hk. Qed.

Lemma framed_ret {A : Type} K (a : A) : framed K (mret a).
Proof. apply framed_inv, inv_ret. Qed.

Lemma framed_weaken {A : Type} K K' (m : M A) :
  (forall w, F K w -> F K' w) -> (forall w, F K' w -> F K w) ->
  framed K' m -> framed K m.
Proof.
  intros Hin Hout Hm w r w' Hopen HF Hrun.
  destruct (Hm _ _ _ Hopen (Hin _ HF) Hrun) as [Hopen' HQ].
  split; [exact Hopen'|]. intros a Hr. apply Hout. exact (HQ a Hr).
Qed.

Lemma framed_each {S : Type} K (f : loc -> S -> M S) (kids : list loc) (s : S) :
  (forall c s, c ∈ kids -> framed K (f c s)) -> framed K (each f kids s).
Proof.
  revert s. induction kids as [|c kids IH]; intros s Hf; cbn [each].
  - apply framed_ret.
  - apply framed_bind; [apply Hf; now left|]. intros s'. apply IH.
    intros c' s'' Hc'. apply Hf. now right.
Qed.

(** The rest of a computation after a node was read, and after a node was
    made. *)
Lemma framed_get_node_bind {A : Type} K l (k : Element -> M A) :
  l ∈ K ->
  (forall e, framed (links e ++ K) (k e)) ->
  framed K (get_node l ≫= k).
Proof.
  intros Hl Hk w r w' Hopen HF Hrun.
  apply bind_inv in Hrun as [(e & Hrun & _)|(e & w1 & Hrun & Hrun')];
    [discriminate Hrun|].
  injection Hrun as <- <-.
  assert (HF' : F (links (node_at w l) ++ K) w).
  { apply frame_grow; [exact HF|]. intros c Hc. eapply links_fresh; eauto. }
  destruct (Hk _ _ _ _ Hopen HF' Hrun') as [Hopen' HQ].
  split; [exact Hopen'|]. intros a Hr.
  eapply frame_weaken; [|exact (HQ a Hr)]. intros c Hc. apply elem_of_app. now right.
Qed.

Lemma framed_alloc_bind {A : Type} K e (k : loc -> M A) :
  (forall next, elem_closed b next e) ->
  (forall l, framed (l :: K) (k l)) ->
  framed K (alloc e ≫= k).
Proof.
  intros Hcl Hk w r w' Hopen HF Hrun.
  apply bind_inv in Hrun as [(x & Hrun & _)|(l & w1 & Hrun & Hrun')];
    [discriminate Hrun|].
  injection Hrun as <- <-.
  pose proof (frame_alloc K w e HF (Hcl _)) as HF1.
  destruct (Hk _ _ _ _ (frame_open_of _ _ HF1) HF1 Hrun') as [Hopen' HQ].
  split; [exact Hopen'|]. intros a Hr.
  eapply frame_weaken; [|exact (HQ a Hr)]. intros c Hc. now right.
Qed.

(** The hidden [svg] element goes into [document.body]. *)
Lemma hoare_enter K svg :
  svg ∈ K ->
  hoare (frame_open w0) (F K)
    (w ← get_world; appendChild (w_body w) svg)
    (fun _ => inside K svg).
Proof.
  intros Hsvg w r w' _ HF Hrun.
  apply bind_inv in Hrun as [(e & Hrun & _)|(a & wq & Hrun & Hk)];
    [discriminate Hrun|].
  injection Hrun as <- <-.
  apply appendChild_run in Hk as [-> ->].
  assert (Hin : inside K svg
            (write_node svg (set_parentNode (Some (w_body w)))
               (write_node (w_body w)
                  (fun e => set_children (children e ++ [svg]) e) (detach svg w)))).
  { exists (detach svg w). split; [now apply frame_detach|].
    split; [exact Hsvg|]. split; [now rewrite detach_body|].
    split; reflexivity. }
  split; [now apply (frame_open_inside K svg)|]. intros; exact Hin.
Qed.

Lemma hoare_enter_bind {A : Type} K svg (k : unit -> M A)
    (Q : A -> World -> Prop) :
  svg ∈ K ->
  (forall u, hoare (frame_open w0) (inside K svg) (k u) Q) ->
  hoare (frame_open w0) (F K)
    (w ← get_world; appendChild (w_body w) svg ≫= k) Q.
Proof.
  intros Hsvg Hk.
  change (hoare (frame_open w0) (F K)
            ((w ← get_world; appendChild (w_body w) svg) ≫= k) Q).
  eapply hoare_bind; [now apply hoare_enter|]. exact Hk.
Qed.

(** What happens in between, return or throw, without touching the
    document. *)
Lemma hoare_calm {A : Type} K svg (m : M A) :
  calm m -> hoare (frame_open w0) (inside K svg) m (fun _ => inside K svg).
Proof.
  intros Hm w r w' _ (w1 & HF & Hsvg & Hn & Hx & Hb) Hrun.
  destruct (Hm _ _ _ Hrun) as (Hn' & Hx' & Hb').
  assert (Hin : inside K svg w').
  { exists w1. rewrite Hn', Hx', Hb'. auto. }
  split; [now apply (frame_open_inside K svg)|]. intros; exact Hin.
Qed.

(** It is removed from [document.body] again, which is then as it was. *)
Lemma hoare_leave K svg :
  hoare (frame_open w0) (inside K svg)
    (w ← get_world; removeChild (w_body w) svg)
    (fun _ => F K).
Proof.
  intros w r w' _ (w1 & HF & Hsvg & Hn & Hx & Hb) Hrun.
  apply bind_inv in Hrun as [(e & Hrun & _)|(a & wq & Hrun & Hk)];
    [discriminate Hrun|].
  injection Hrun as <- <-.
  apply removeChild_run in Hk as [-> ->]. rewrite Hb.
  assert (HF' : F K (write_node svg (set_parentNode None)
            (write_node (w_body w1)
               (fun e => set_children (filter (fun c => c ≠ svg) (children e)) e) w))).
  { apply (frame_bracket K svg w1 w); [exact HF|exact Hsvg|exact Hn|exact Hx|exact Hb]. }
  split; [now apply (frame_open_of K)|]. intros; exact HF'.
Qed.

Lemma framed_text K node n tfMatrix hasFill fillRGB :
  node ∈ K -> framed K (text node n tfMatrix hasFill fillRGB).
Proof.
  intros Hnode.
  assert (Hemit : forall K' c, neutral c = true -> framed K' (emit c)).
  { intros K' c Hc. apply framed_inv, inv_emit; [intros; now apply frame_call|exact Hc]. }
  unfold text. cbv zeta.
  apply framed_bind; [destruct (truthy_str _); [now apply Hemit|apply framed_ret]|].
  intros _. apply framed_bind; [destruct hasFill; [now apply Hemit|apply framed_ret]|].
  intros _. apply framed_bind; [now apply Hemit|]. intros _.
  apply framed_alloc_bind; [intros; apply elem_closed_empty|]. intros svg.
  apply framed_bind.
  { apply framed_inv, inv_frame_appendChild; [now left|now right]. }
  intros _. apply framed_bind.
  { apply framed_inv, inv_frame_update; [now left|]. intros w e _ He. exact He. }
  intros _. apply hoare_enter_bind; [now left|]. intros _.
  eapply hoare_bind; [apply hoare_calm, calm_lift|]. intros box_width.
  eapply hoare_bind; [apply hoare_calm, calm_emit|]. intros u1.
  eapply hoare_bind; [|intros u2; apply hoare_leave].
  apply hoare_calm.
  destruct (children n) as [|k ks]; [apply calm_emit|].
  apply calm_bind; [|intros; apply calm_ret].
  apply calm_each. intros c [x y].
  apply calm_bind; [apply calm_get_node|]. intros s.
  apply calm_bind; [apply calm_lift|]. intros len.
  apply calm_bind; [apply calm_emit|]. intros; apply calm_ret.
Qed.

Section FrameBody.

Variable renderNode : loc -> Matrix -> scope -> bool -> M scope.
Hypothesis framed_renderNode :
  forall K node ctx sc wd, node ∈ K -> framed K (renderNode node ctx sc wd).

Lemma framed_findAndRenderDefs K n tfMatrix sc wd :
  n ∈ K -> framed K (findAndRenderDefs renderNode n tfMatrix sc wd).
Proof.
  intros Hn. unfold findAndRenderDefs.
  apply framed_get_node_bind; [exact Hn|]. intros e.
  apply framed_each. intros c s Hc.
  assert (HcK : c ∈ links e ++ K).
  { apply elem_of_app. left. unfold links. apply elem_of_app. now left. }
  apply framed_bind; [apply framed_inv, inv_get_node|]. intros ce.
  destruct (String.eqb _ _); [|apply framed_ret].
  apply framed_bind; [now apply framed_renderNode|]. intros s'.
  apply framed_get_node_bind; [exact HcK|]. intros ce'.
  destruct (parentNode ce') as [parent|] eqn:Hpar; [|apply framed_inv, inv_throw].
  apply framed_bind; [|intros; apply framed_ret].
  apply framed_inv, inv_frame_removeChild.
  - apply elem_of_app. left. unfold links. rewrite Hpar.
    apply elem_of_app. right. now left.
  - apply elem_of_app. now right.
Qed.

Lemma framed_renderChildren K n tfMatrix sc wd :
  n ∈ K -> framed K (renderChildren renderNode n tfMatrix sc wd).
Proof.
  intros Hn. unfold renderChildren.
  apply framed_get_node_bind; [exact Hn|]. intros e.
  apply framed_each. intros c s Hc. apply framed_renderNode.
  apply elem_of_app. left. unfold links. apply elem_of_app. now left.
Qed.

Lemma framed_svg K n tfMatrix sc wd :
  n ∈ K -> framed K (svg renderNode n tfMatrix sc wd).
Proof.
  intros Hn. unfold svg. destruct (nextChild sc.2) as [newp p].
  apply framed_bind; [now apply framed_findAndRenderDefs|]. intros inner.
  apply framed_bind; [now apply framed_renderChildren|]. intros; apply framed_ret.
Qed.

Lemma framed_draw K node n tfMatrix sc wd pt :
  node ∈ K -> framed K (draw renderNode node n tfMatrix sc wd pt).
Proof.
  intros Hnode.
  assert (Hcall : forall c w, neutral c = true -> F K w -> F K (add_call c w))
    by (intros; now apply frame_call).
  assert (Hp : forall p w, F K w -> F K (with_p p w)) by (intros; now apply frame_p).
  assert (Hleaf : forall (m : M unit), inv (F K) m -> framed K (m;; mret sc)).
  { intros m Hm. apply framed_inv, inv_bind; [exact Hm|]. intros; apply inv_ret. }
  unfold draw.
  repeat match goal with
         | |- framed _ (if ?c then _ else _) => destruct c
         end.
  - now apply framed_svg.
  - apply framed_bind; [now apply framed_findAndRenderDefs|].
    intros; now apply framed_renderChildren.
  - now apply framed_renderChildren.
  - now apply framed_renderChildren.
  - apply Hleaf. apply inv_use; auto.
  - apply Hleaf. apply inv_line; auto.
  - apply Hleaf. apply inv_bind; [apply inv_emit; auto|].
    intros; apply inv_rect; auto.
  - apply Hleaf. apply inv_bind; [apply inv_emit; auto|].
    intros; apply inv_ellipse; auto.
  - apply Hleaf. apply inv_bind; [apply inv_emit; auto|].
    intros; apply inv_circle; auto.
  - apply framed_bind; [now apply framed_text|]. intros; apply framed_ret.
  - apply Hleaf. apply inv_path; auto.
  - apply Hleaf. apply inv_polygon; auto.
  - apply Hleaf. apply inv_bind; [apply inv_emit; auto|].
    intros; apply inv_frame_image.
  - apply framed_inv, inv_bind; [|intros; apply inv_ret]. apply inv_putGradient; auto.
  - apply framed_inv, inv_bind; [|intros; apply inv_ret]. apply inv_putGradient; auto.
  - apply framed_ret.
Qed.

Lemma framed_renderNode_body K node ctx sc wd :
  node ∈ K -> framed K (renderNode_body renderNode node ctx sc wd).
Proof.
  intros Hnode.
  assert (Hany : forall c, inv (F K) (emit c)).
  { intros c. apply inv_set_world. intros w. apply frame_call. }
  unfold renderNode_body.
  apply framed_bind; [apply framed_inv, inv_get_node|]. intros n.
  apply framed_bind.
  { apply framed_inv. destruct (_ && _).
    - apply inv_bind; [apply inv_lift_fuel|]. intros tf.
      apply inv_bind; [apply inv_lift|]. intros [[[bx by_] bw] bh].
      apply inv_bind; [apply Hany|]. intros; apply inv_ret.
    - apply inv_bind; [apply inv_lift_fuel|]. intros tf.
      apply inv_bind; [apply Hany|]. intros; apply inv_ret. }
  intros [tfMatrix wd'].
  apply framed_bind.
  { apply framed_inv. destruct (is_ n _); [|apply inv_ret].
    apply inv_bind; [apply inv_fill_mode|]. intros pt.
    apply inv_bind; [apply Hany|]. intros; apply inv_ret. }
  intros pt. apply framed_bind.
  { apply framed_inv. destruct (is_ n _); [|apply inv_ret].
    apply inv_stroke_mode. intros; now apply frame_call. }
  intros colorMode. apply framed_bind; [now apply framed_draw|]. intros sc'.
  apply framed_inv, inv_bind; [|intros; apply inv_ret].
  destruct (_ && _); apply Hany.
Qed.

End FrameBody.

Lemma framed_renderNode fuel K node ctx sc wd :
  node ∈ K -> framed K (renderNode fuel node ctx sc wd).
Proof.
  revert K node ctx sc wd. induction fuel as [|fuel IH]; intros K node ctx sc wd Hn;
    cbn [renderNode].
  - apply framed_inv, inv_diverge.
  - apply framed_renderNode_body; [exact IH|exact Hn].
Qed.

Lemma frame_start : F [] w0.
Proof.
  destruct Hwf as [Hstored _]. split; [|intros l Hl; inversion Hl].
  split; [reflexivity|]. split; [lia|]. split; [reflexivity|].
  intros l e Hl He. destruct (Hstored l e He) as [Hlt _]. lia.
Qed.

Lemma framed_svgElementToPdf fuel element options :
  framed [] (svgElementToPdf fuel element options).
Proof.
  assert (Hany : forall K c, inv (F K) (emit c)).
  { intros K c. apply inv_set_world. intros w. apply frame_call. }
  unfold svgElementToPdf.
  apply framed_bind; [apply framed_inv, Hany|]. intros _.
  apply framed_bind; [apply framed_inv, Hany|]. intros _.
  intros w r w' Hopen HF Hrun.
  apply bind_inv in Hrun as [(e & Hrun & ->)|(clone & w1 & Hrun & Hrun')].
  - destruct (hoare_frame_cloneNode fuel [] element None ltac:(discriminate)
                w _ w' HF I Hrun) as [HF' _].
    split; [now apply (frame_open_of [])|]. discriminate.
  - destruct (hoare_frame_cloneNode fuel [] element None ltac:(discriminate)
                w _ w1 HF I Hrun) as [HF1 Hfresh].
    assert (HF1' : F [clone] w1).
    { split; [exact (proj1 HF1)|].
      intros l ->%list_elem_of_singleton. exact (Hfresh clone eq_refl). }
    assert (Hrest : framed [clone]
              (renderNode fuel clone unitMatrix (∅, newSvgPrefix EmptyString) false
               ≫= fun _ => emit Pdf.restoreGraphicsState)).
    { apply framed_bind; [apply framed_renderNode; now left|].
      intros _. apply framed_inv, Hany. }
    destruct (Hrest _ _ _ (frame_open_of _ _ HF1') HF1' Hrun') as [Hopen' HQ].
    split; [exact Hopen'|]. intros a Hr.
    eapply frame_weaken; [|exact (HQ a Hr)]. intros l Hl. inversion Hl.
Qed.

End Frame.

(** C10, as the code has it.  [svgElementToPdf] works on the nodes that
    [cloneNode] made: the [defs] elements it removes are removed from parents
    among those nodes.  So every node that the store held when it was called,
    other than [document.body], is in the store afterwards with the same
    tag, attributes, children and parent, whether the run returns or throws.
    [document.body] is as it was when the run returns: the hidden [svg]
    element that [text] appends to it is removed from it again.  When the
    run throws, [document.body] has its children of before, followed by
    nodes made during the run: the hidden [svg] element stays where a
    measurement has thrown. *)
Theorem svgElementToPdf_document_frame `{MathLib} `{Collaborators}
    (fuel : nat) (element : loc) (options : Options) (w : World)
    (r : outcome unit) (w' : World) :
  wf_world w ->
  svgElementToPdf fuel element options w = Some (r, w') ->
  (forall l e, w_nodes w !! l = Some e -> l <> w_body w ->
     w_nodes w' !! l = Some e)
  /\ (r = Ok tt ->
      forall l e, w_nodes w !! l = Some e -> w_nodes w' !! l = Some e)
  /\ exists extra,
       (forall c, c ∈ extra -> (w_next w <= c)%nat)
       /\ w_nodes w' !! w_body w
          = with_more_children extra <$> w_nodes w !! w_body w.
Proof.
  intros Hwf Hrun.
  destruct (framed_svgElementToPdf w Hwf fuel element options w r w'
              (frame_open_of w Hwf [] w (frame_start w Hwf))
              (frame_start w Hwf) Hrun) as [[Hother Hbody] Hret].
  assert (Hlt : forall l e, w_nodes w !! l = Some e -> (l < w_next w)%nat).
  { intros l e He. destruct Hwf as [Hstored _]. exact (proj1 (Hstored l e He)). }
  split; [|split; [|exact Hbody]].
  - intros l e He Hne. rewrite Hother; eauto.
  - intros -> l e He. destruct (Hret tt eq_refl) as [(H1 & _) _].
    rewrite H1; eauto.
Qed.

(** ** The exit action of a node *)

(** C9, as the code has it.  When [renderNode] returns for a node, the calls
    it made are the entry action of the node, a balanced run of calls, and
    the exit action that closes the entry action: [restoreGraphicsState]
    after [saveGraphicsState], [endFormObject] after [beginFormObject].  So
    the calls of a traversal that returns are balanced. *)
Theorem renderNode_exit_closes_entry `{MathLib} `{Collaborators}
    (fuel : nat) (node : loc) (contextTransform : Matrix) (sc : scope)
    (withinDefs : bool) (w : World) (sc' : scope) (w' : World) :
  renderNode fuel node contextTransform sc withinDefs w = Some (Ok sc', w') ->
  exists entry body exit,
    w_pdf w' = w_pdf w ++ entry :: body ++ [exit]
    /\ closes entry exit
    /\ balanced body
    /\ balanced (entry :: body ++ [exit]).
Proof.
  intros Hrun. destruct fuel as [|fuel]; [discriminate Hrun|].
  cbn [renderNode] in Hrun.
  destruct (renderNode_body_calls (renderNode fuel) (keeps_renderNode fuel)
              node contextTransform sc withinDefs (w_pdf w) w (Ok sc') w'
              I eq_refl Hrun) as [_ HQ].
  destruct (HQ sc' eq_refl) as (entry & body & exit & Hw & Hcl & Hbal).
  exists entry, body, exit. repeat split; try assumption.
  unfold balanced.
  destruct entry; try contradiction; destruct exit; try contradiction; cbn;
    rewrite frames_after_app, (balanced_under _ _ Hbal); reflexivity.
Qed.

Lemma renderNode_exit_closes_entry_witness :
  exists w' entry body exit,
    w_pdf w' = w_pdf unresolved_doc ++ entry :: body ++ [exit]
    /\ closes entry exit
    /\ balanced body
    /\ balanced (entry :: body ++ [exit]).
Proof.
  eexists.
  eapply (@renderNode_exit_closes_entry quarter_math plain_collaborators
            1 3%nat unitMatrix (∅, newSvgPrefix "_0_") false unresolved_doc).
  vm_compute. reflexivity.
Defined.

(** On the path that throws there is no exit action.  For the rectangle of
    [unresolved_doc], [renderNode] saves the graphics state and throws at
    [fill.tagName]: the only call is [saveGraphicsState], and nothing
    restores it.  The claim has the pairing hold on the error paths too. *)
Lemma renderNode_throw_skips_exit :
  exists w',
    @renderNode quarter_math plain_collaborators 1 2%nat unitMatrix
      (∅, newSvgPrefix "_0_") false unresolved_doc
    = Some (Throw TypeError, w')
    /\ w_pdf w' = w_pdf unresolved_doc ++ [Pdf.saveGraphicsState]
    /\ ~ balanced [Pdf.saveGraphicsState].
Proof.
  eexists. split; [vm_compute; reflexivity|].
  split; [reflexivity|]. unfold balanced. cbn. discriminate.
Qed.

(** Where the claim fails: the text of [titled_text_doc] has a [title] child,
    which has no [getComputedTextLength].  The call throws after the hidden
    [svg] element was appended to [document.body] and before it is removed:
    the conversion throws, and the body of the caller's document has a
    second child, the hidden element with the copy of the text in it. *)
Lemma svgElementToPdf_throw_leaves_hidden_svg :
  exists w',
    @svgElementToPdf quarter_math plain_collaborators 4 1%nat
      (@no_options quarter_math plain_collaborators) titled_text_doc
    = Some (Throw TypeError, w')
    /\ children <$> w_nodes titled_text_doc !! 0%nat = Some [1%nat]
    /\ children <$> w_nodes w' !! 0%nat = Some [1%nat; 7%nat]
    /\ w_nodes titled_text_doc !! 7%nat = None
    /\ w_nodes w' !! 7%nat
       = Some (mkElement "svg" [("visibility", "hidden")] [] [5%nat]
                 (Some 0%nat) EmptyString None)
    /\ w_nodes w' !! 0%nat <> w_nodes titled_text_doc !! 0%nat.
Proof.
  eexists. split; [vm_compute; reflexivity|].
  repeat split; try (vm_compute; reflexivity).
  vm_compute. discriminate.
Qed.

Lemma titled_text_doc_wf : wf_world titled_text_doc.
Proof.
  split; [|eexists; vm_compute; reflexivity].
  intros l e Hl. apply elem_of_list_to_map_2 in Hl.
  repeat (apply elem_of_cons in Hl as [[= -> ->]|Hl];
          [split; [cbn; lia|intros c Hc; cbn in Hc;
             repeat (apply elem_of_cons in Hc as [->|Hc]; [cbn; lia|]);
             inversion Hc]|]).
  inversion Hl.
Qed.

Lemma svgElementToPdf_document_frame_witness :
  exists r w',
    @svgElementToPdf quarter_math plain_collaborators 4 1%nat
      (@no_options quarter_math plain_collaborators) titled_text_doc
    = Some (r, w')
    /\ (forall l e, w_nodes titled_text_doc !! l = Some e ->
          l <> w_body titled_text_doc -> w_nodes w' !! l = Some e)
    /\ (r = Ok tt ->
        forall l e, w_nodes titled_text_doc !! l = Some e ->
          w_nodes w' !! l = Some e)
    /\ exists extra,
         (forall c, c ∈ extra -> (w_next titled_text_doc <= c)%nat)
         /\ w_nodes w' !! w_body titled_text_doc
            = with_more_children extra
                <$> w_nodes titled_text_doc !! w_body titled_text_doc.
Proof.
  eexists _, _.
  match goal with
  | |- ?A /\ _ => assert (Hrun : A) by (vm_compute; reflexivity)
  end.
  split; [exact Hrun|].
  exact (@svgElementToPdf_document_frame quarter_math plain_collaborators
           4 1%nat _ titled_text_doc _ _ titled_text_doc_wf Hrun).
Defined.
(** ** The rounds of [parseTransform] *)

Lemma chr_eqb_eq (a b : ascii) : Chr.eqb a b = true -> a = b.
Proof.
  unfold Chr.eqb, Chr.code. intros Hab%N.eqb_eq.
  rewrite <- (ascii_N_embedding a), <- (ascii_N_embedding b). now f_equal.
Qed.

Lemma chr_eqb_refl (a : ascii) : Chr.eqb a a = true.
Proof. unfold Chr.eqb. apply N.eqb_refl. Qed.

Lemma length_append (a b : string) :
  String.length (a +:+ b) = (String.length a + String.length b)%nat.
Proof.
  induction a as [|x a IH]; [reflexivity|].
  rewrite append_cons. cbn [String.length]. now rewrite IH.
Qed.

Lemma strip_prefix_app (p s r : string) :
  Str.strip_prefix p s = Some r -> s = p +:+ r.
Proof.
  revert s. induction p as [|a p IH]; intros s; cbn.
  - now intros [= ->].
  - destruct s as [|b s]; [discriminate|].
    destruct (Chr.eqb a b) eqn:Hab; [|discriminate].
    apply chr_eqb_eq in Hab as ->. intros Hs. rewrite append_cons.
    f_equal. now apply IH.
Qed.

Lemma strip_prefix_here (p r : string) : Str.strip_prefix p (p +:+ r) = Some r.
Proof.
  induction p as [|a p IH]; [reflexivity|].
  rewrite append_cons. cbn. now rewrite chr_eqb_refl.
Qed.

Lemma line_of_prefix (s : string) : exists post, s = Str.line_of s +:+ post.
Proof.
  induction s as [|c s [post IH]]; [now exists EmptyString|].
  cbn. destruct (Chr.is_line_terminator c).
  - now exists (String c s).
  - exists post. rewrite append_cons. now f_equal.
Qed.

Lemma before_last_rparen_prefix (s g : string) :
  Str.before_last_rparen s = Some g -> exists post, s = g +:+ ")" +:+ post.
Proof.
  revert g. induction s as [|c s IH]; intros g; [discriminate|].
  cbn [Str.before_last_rparen].
  destruct (Str.before_last_rparen s) as [g'|].
  - intros [= <-]. destruct (IH g' eq_refl) as [post ->].
    exists post. now rewrite append_cons.
  - destruct s as [|d s]; [discriminate|].
    destruct (Ascii.eqb d ")") eqn:Hd.
    + apply Ascii.eqb_eq in Hd as ->. intros [= <-]. now exists s.
    + destruct d as [[] [] [] [] [] [] [] []]; try discriminate.
Qed.

(** What [exec] returns as [match[0]] is a piece of the string, and it is
    not empty. *)
Lemma exec_call_occurs (name s m0 g : string) :
  exec_call name s = Some (m0, g) ->
  exists pre post, s = pre +:+ m0 +:+ post /\ (0 < String.length m0)%nat.
Proof.
  induction s as [|c s IH]; cbn [exec_call].
  - destruct (Str.strip_prefix (name +:+ "(") EmptyString) as [rest|] eqn:Hp;
      [|discriminate].
    destruct (Str.before_last_rparen (Str.line_of rest)) as [g'|] eqn:Hg;
      [|discriminate].
    apply strip_prefix_app in Hp.
    destruct (name +:+ "(") eqn:Hn; [|discriminate Hp].
    destruct name; discriminate Hn.
  - destruct (Str.strip_prefix (name +:+ "(") (String c s)) as [rest|] eqn:Hp.
    + destruct (Str.before_last_rparen (Str.line_of rest)) as [g'|] eqn:Hg.
      * intros [= <- <-].
        apply strip_prefix_app in Hp.
        apply before_last_rparen_prefix in Hg as [post1 Hg].
        destruct (line_of_prefix rest) as [post2 Hl].
        exists EmptyString, (post1 +:+ post2). split.
        -- change (EmptyString +:+ ?x) with x. rewrite Hp, Hl, Hg.
           now rewrite !append_assoc.
        -- rewrite !length_append. cbn. lia.
      * intros Hs. destruct (IH Hs) as (pre & post & -> & Hlen).
        exists (String c pre), post. now rewrite append_cons.
    + intros Hs. destruct (IH Hs) as (pre & post & -> & Hlen).
      exists (String c pre), post. now rewrite append_cons.
Qed.

Lemma remove_first_unfold (p s : string) :
  Str.remove_first p s
  = match Str.strip_prefix p s with
    | Some rest => rest
    | None =>
        match s with
        | EmptyString => EmptyString
        | String c s' => String c (Str.remove_first p s')
        end
    end.
Proof. destruct s; reflexivity. Qed.

(** Removing a piece that occurs shortens the string by its length. *)
Lemma remove_first_length (p pre post : string) :
  (String.length (Str.remove_first p (pre +:+ p +:+ post)) + String.length p
   = String.length (pre +:+ p +:+ post))%nat.
Proof.
  induction pre as [|c pre IH].
  - change (EmptyString +:+ ?x) with x.
    rewrite remove_first_unfold, strip_prefix_here, length_append. lia.
  - rewrite append_cons, remove_first_unfold.
    destruct (Str.strip_prefix p (String c (pre +:+ p +:+ post))) as [rest|] eqn:Hp.
    + apply strip_prefix_app in Hp. rewrite Hp, length_append. lia.
    + cbn [String.length]. lia.
Qed.

Section ParseTransformRounds.

Context `{MathLib}.

(** A block of the loop body leaves the state as it is or shortens the
    string. *)
Lemma on_match_cases (name : string) (build : string -> Matrix -> Matrix)
    (st : tstate) :
  on_match name build st = st
  \/ (String.length (on_match name build st).1 < String.length st.1)%nat.
Proof.
  unfold on_match. destruct (exec_call name st.1) as [[m0 g]|] eqn:He; [|now left].
  right. apply exec_call_occurs in He as (pre & post & Hs & Hlen).
  cbn [fst]. rewrite Hs.
  pose proof (remove_first_length m0 pre post). lia.
Qed.

Lemma parseTransform_body_cases (st : tstate) :
  parseTransform_body st = st
  \/ (String.length (parseTransform_body st).1 < String.length st.1)%nat.
Proof.
  unfold parseTransform_body.
  repeat match goal with
  | |- context [on_match ?n ?b ?s] =>
      lazymatch s with
      | context [on_match] => fail
      | _ =>
          let Hc := fresh "Hc" in
          let t := fresh "t" in
          destruct (on_match_cases n b s) as [Hc|Hc];
          [rewrite Hc
          |set (t := on_match n b s) in *; clearbody t]
      end
  end; first [now left | right; lia].
Qed.

(** With as many rounds as the string has characters the loop has returned,
    or it never does: more fuel changes nothing. *)
Lemma parseTransform_loop_enough (n fuel : nat) (st : tstate) :
  (String.length st.1 <= n)%nat -> (n <= fuel)%nat ->
  parseTransform_loop fuel st = parseTransform_loop n st.
Proof.
  revert fuel st. induction n as [|n IH]; intros fuel [s m] Hlen Hfuel; cbn in Hlen.
  - destruct s; [|cbn in Hlen; lia]. now rewrite !parseTransform_loop_done.
  - destruct s as [|c s]; [now rewrite !parseTransform_loop_done|].
    destruct fuel as [|fuel]; [lia|]. rewrite !parseTransform_loop_S.
    destruct (parseTransform_body_cases (String c s, m)) as [Hfix|Hlt].
    + rewrite Hfix, !parseTransform_loop_stuck by exact Hfix. reflexivity.
    + apply IH; [|lia]. cbn in Hlt, Hlen. lia.
Qed.

(** A result does not depend on the fuel that gave it. *)
Lemma parseTransform_loop_more (fuel k : nat) (st : tstate) (m : Matrix) :
  parseTransform_loop fuel st = Some m ->
  parseTransform_loop (fuel + k) st = Some m.
Proof.
  revert st. induction fuel as [|fuel IH]; intros [s r].
  - destruct s; [|discriminate]. intros Hm.
    rewrite parseTransform_loop_done in *. exact Hm.
  - destruct s as [|c s].
    + rewrite !parseTransform_loop_done. auto.
    + change (S fuel + k)%nat with (S (fuel + k)).
      rewrite !parseTransform_loop_S. apply IH.
Qed.

End ParseTransformRounds.

(** [parseTransform] returns within as many rounds as the string has
    characters or not at all: given at least that many rounds, the model
    gives what [parseTransform_run] gives. *)
Theorem parseTransform_decided `{MathLib} (fuel : nat) (s : string) :
  (String.length s <= fuel)%nat ->
  parseTransform fuel (Some s) = parseTransform_run (Some s).
Proof.
  intros Hfuel. unfold parseTransform_run, parseTransform. cbn [default].
  destruct s as [|c s]; [reflexivity|].
  now apply parseTransform_loop_enough.
Qed.

Lemma parseTransform_decided_witness :
  @parseTransform quarter_math 40 (Some "translate(10,0)")
  = @parseTransform_run quarter_math (Some "translate(10,0)").
Proof. apply (@parseTransform_decided quarter_math 40). cbn. lia. Defined.

(** A matrix that some number of rounds gives is the one that
    [parseTransform_run] gives: where [parseTransform_run] has no result, no
    number of rounds has one and the source does not return. *)
Theorem parseTransform_run_complete `{MathLib} (fuel : nat)
    (s : option string) (m : Matrix) :
  parseTransform fuel s = Some m -> parseTransform_run s = Some m.
Proof.
  destruct s as [s|]; [|exact (fun H => H)].
  intros Hm. unfold parseTransform_run. cbn [default].
  destruct s as [|c s]; [exact Hm|].
  unfold parseTransform in *.
  rewrite <- (parseTransform_loop_enough _ (fuel + String.length (String c s)))
    by (cbn; lia).
  now apply parseTransform_loop_more.
Qed.

Lemma parseTransform_run_complete_witness :
  @parseTransform_run quarter_math (Some "scale(2)")
  = Some (matrixMult (mkMatrix (Fin 2) n0 n0 (Fin 2) n0 n0) unitMatrix).
Proof.
  apply (@parseTransform_run_complete quarter_math 3).
  vm_compute. reflexivity.
Defined.

(** A string in which none of the six expressions has a match, a function
    name without its parentheses for one, is never shortened: the loop does
    not return. *)
Theorem parseTransform_no_match_diverges `{MathLib} (c : ascii) (s : string)
    (fuel : nat) :
  Forall (fun name => exec_call name (String c s) = None)
    ["matrix"; "rotate"; "translate"; "scale"; "skewX"; "skewY"] ->
  parseTransform fuel (Some (String c s)) = None.
Proof.
  intros Hnone. unfold parseTransform.
  apply parseTransform_loop_stuck.
  unfold parseTransform_body, on_match. cbn [fst snd].
  repeat match goal with
  | Hf : Forall _ (_ :: _) |- _ =>
      let He := fresh "He" in
      apply Forall_cons in Hf as [He Hf]; rewrite He; cbn [fst snd]
  end.
  reflexivity.
Qed.

Lemma parseTransform_no_match_diverges_witness :
  @parseTransform quarter_math 100 (Some "translate 10 0") = None.
Proof.
  apply (@parseTransform_no_match_diverges quarter_math).
  repeat constructor.
Defined.

(** [scale(sx, sy)] with a second argument that is 0 is read as
    [scale(sx)]: [if (!m[1]) m[1] = m[0]] takes the 0 for a missing
    argument, and the scaling is uniform. *)
Theorem build_scale_falsy_second (g : string) (sx sy : num) (acc : Matrix) :
  parseFloats g = [sx; sy] -> Num.truthy sy = false ->
  build_scale g acc = matrixMult (mkMatrix sx n0 n0 sx n0 n0) acc.
Proof.
  intros Hm Hsy. unfold build_scale. rewrite Hm. cbn [idx nth].
  rewrite Hsy. reflexivity.
Qed.

Lemma build_scale_falsy_second_witness :
  build_scale "2,0" unitMatrix
  = matrixMult (mkMatrix (Fin 2) n0 n0 (Fin 2) n0 n0) unitMatrix.
Proof.
  apply (build_scale_falsy_second "2,0" (Fin 2) (Fin 0));
    reflexivity.
Defined.

(** ** Points and matrices *)

Lemma fin_eq (a b : Q) : (a == b)%Q -> Fin (Qred a) = Fin (Qred b).
Proof. intros Hab. f_equal. now apply Qred_complete. Qed.

Ltac fin_ring :=
  apply fin_eq; rewrite ?Qred_correct; ring.

(** The unit matrix leaves a finite point where it is. *)
Theorem multVecMatrix_unit (x y : Q) :
  multVecMatrix (Fin x, Fin y) unitMatrix = (Fin (Qred x), Fin (Qred y)).
Proof. unfold multVecMatrix. cbn. f_equal; fin_ring. Qed.

(** ** [transformBBox] *)

(** [Math.max] of some numbers is never below [Math.min] of the same
    numbers: the comparison of the two is false, also when one of the
    numbers is infinite or [NaN]. *)
Lemma max2_min2_step (hi lo y : num) :
  Num.ltb hi lo = false ->
  Num.ltb (MathFn.max2 hi y) (MathFn.min2 lo y) = false.
Proof.
  destruct hi as [|sh|a], lo as [|sl|b], y as [|sy|c];
    unfold MathFn.max2, MathFn.min2, Num.ltb;
    try reflexivity;
    repeat match goal with s : bool |- _ => destruct s end;
    cbn; try reflexivity; try discriminate.
  all: repeat match goal with
       | |- context [(?p ?= ?q)%Q] =>
           let H := fresh "H" in
           destruct (Qcompare_spec p q) as [H|H|H]; cbn
       | H : context [(?p ?= ?q)%Q] |- _ =>
           let H' := fresh "H" in
           destruct (Qcompare_spec p q) as [H'|H'|H']; cbn in H
       end;
       try reflexivity; try discriminate; try (intros _); try lra.
Qed.

Lemma max_min_fold (ys : list num) (hi lo : num) :
  Num.ltb hi lo = false ->
  Num.ltb (foldl MathFn.max2 hi ys) (foldl MathFn.min2 lo ys) = false.
Proof.
  revert hi lo. induction ys as [|y ys IH]; intros hi lo Hle; [exact Hle|].
  cbn [foldl]. apply IH. now apply max2_min2_step.
Qed.

Lemma ltb_irrefl (x : num) : Num.ltb x x = false.
Proof.
  destruct x as [|[]|a]; try reflexivity.
  unfold Num.ltb. destruct (Qcompare_spec a a) as [H|H|H]; try reflexivity.
  lra.
Qed.

(** A difference of a number and one that is not above it is not below
    zero: it is zero or more, or [NaN] (as Infinity - Infinity is). *)
Lemma sub_not_negative (hi lo : num) :
  Num.ltb hi lo = false -> Num.ltb (hi - lo)%num (Fin 0) = false.
Proof.
  destruct hi as [|[]|a], lo as [|[]|b]; cbn; try reflexivity; try discriminate.
  destruct (Qcompare_spec a b) as [H|H|H]; try discriminate; intros _;
    destruct (Qcompare_spec (Qred (a + Qred (- b))) 0) as [H'|H'|H'];
    try reflexivity; rewrite !Qred_correct in H'; lra.
Qed.

(** The width and the height of the rect that [transformBBox] returns are
    never below zero, whatever the box and the matrix, entries that are
    infinite or [NaN] included: each is zero or more, or [NaN]. *)
Theorem transformBBox_nonneg (box : BBox) (matrix : Matrix) :
  let '(_, _, width, height) := transformBBox box matrix in
  Num.ltb width (Fin 0) = false /\ Num.ltb height (Fin 0) = false.
Proof.
  destruct box as [[[b0 b1] b2] b3]. unfold transformBBox.
  cbv zeta. unfold MathFn.max, MathFn.min.
  split; apply sub_not_negative, max_min_fold, ltb_irrefl.
Qed.

(** A box at infinity: the products Infinity * 0 of [multVecMatrix] are
    [NaN], and so are the width and the height, which are then not below
    zero and not zero or more either. *)
Lemma transformBBox_infinite_box :
  transformBBox (Inf false, Fin 0, Fin 1, Fin 1) unitMatrix
  = (Inf false, NaN, NaN, NaN).
Proof. vm_compute. reflexivity. Qed.

(** ** Scopes *)

Lemma nat_to_string_inj (i j : nat) : nat_to_string i = nat_to_string j -> i = j.
Proof.
  unfold nat_to_string. intros Hs.
  assert (Hnn : forall n, Nat.to_uint n <> Decimal.Nil).
  { intros n. rewrite <- (DecimalNat.Unsigned.of_to n) at 1.
    rewrite DecimalNat.Unsigned.to_of. apply DecimalFacts.unorm_nonnil. }
  apply DecimalNat.Unsigned.to_uint_inj.
  pose proof (NilZero.usu _ (Hnn i)) as Hi.
  pose proof (NilZero.usu _ (Hnn j)) as Hj.
  rewrite Hs in Hi. congruence.
Qed.

Lemma append_inj_l (a b s : string) :
  String.length a = String.length b -> a +:+ s = b +:+ s -> a = b.
Proof.
  revert b. induction a as [|x a IH]; intros [|y b] Hlen; try discriminate Hlen.
  - reflexivity.
  - rewrite !append_cons. intros [= -> Hab]. f_equal. apply IH; [|exact Hab].
    cbn in Hlen. lia.
Qed.

(** A reference that the scope of a child does not resolve is looked up in
    the scope of its parent, whatever the id looks like: the segment that
    [nextChild] puts in front is the leftmost match of the expression of
    [getFromDefs].  The parent keeps its prefix and counts one child more. *)
Theorem nextChild_lookup_parent {V : Type} (p : SvgPrefix) (id : string)
    (defs : gmap string V) :
  getFromDefs (prefix_get (nextChild p).1 +:+ id) defs
  = match defs !! (prefix_get (nextChild p).1 +:+ id) with
    | Some node => Some node
    | None => getFromDefs (prefix_get p +:+ id) defs
    end
  /\ prefix_get (nextChild p).2 = prefix_get p
  /\ prefix_id (nextChild p).2 = S (prefix_id p).
Proof.
  split; [|split; reflexivity].
  assert (Hkey : prefix_get (nextChild p).1 +:+ id
                 = segment (prefix_id p) +:+ (prefix_get p +:+ id)).
  { cbn [nextChild fst newSvgPrefix prefix_get]. unfold segment.
    now rewrite !append_assoc. }
  rewrite Hkey, getFromDefs_unfold by apply inherited_segment.
  destruct (defs !! _); [reflexivity|].
  now rewrite seg_strip_segment.
Qed.

(** Two children of a scope get different prefixes. *)
Theorem nextChild_distinct (prefix : string) (i j : nat) :
  i <> j ->
  prefix_get (nextChild (mkSvgPrefix prefix i)).1
  <> prefix_get (nextChild (mkSvgPrefix prefix j)).1.
Proof.
  intros Hij Heq. apply Hij. cbn in Heq.
  change ("_" +:+ ?x) with (String "_" x) in Heq.
  injection Heq as Heq.
  pose proof (f_equal String.length Heq) as Hlen.
  rewrite !length_append in Hlen.
  apply nat_to_string_inj.
  rewrite <- !append_assoc in Heq.
  apply (append_inj_l _ _ (prefix_get (mkSvgPrefix prefix j))) in Heq.
  - apply (append_inj_l _ _ "_"); [|exact Heq].
    cbn in Hlen. lia.
  - rewrite !length_append. cbn in *. lia.
Qed.

Lemma nextChild_distinct_witness :
  prefix_get (nextChild (mkSvgPrefix "_0_" 0)).1
  <> prefix_get (nextChild (mkSvgPrefix "_0_" 1)).1.
Proof. apply (nextChild_distinct "_0_" 0 1). lia. Defined.

(** ** Polygons *)

Lemma pair_ind {A : Type} (P : list A -> Prop) :
  P [] -> (forall x, P [x]) -> (forall x y l, P l -> P (x :: y :: l)) ->
  forall l, P l.
Proof.
  intros H0 H1 H2 l.
  assert (Hboth : P l /\ forall x, P (x :: l)); [|exact (proj1 Hboth)].
  induction l as [|y l [IHl IHx]]; [now split|].
  split; [apply IHx|]. intros x. now apply H2.
Qed.

Lemma pair_up_length (floats : list num) :
  List.length (pair_up floats) = Nat.div2 (List.length floats).
Proof.
  induction floats as [|x|x y rest IH] using pair_ind; [reflexivity..|].
  cbn [pair_up List.length Nat.div2]. now rewrite IH.
Qed.

(** [parsePointsString] pairs the numbers up in the order they come in; a
    last number without a partner is dropped.  It returns for every string
    and throws for a points attribute that is not there. *)
Theorem parsePointsString_pairs (s : string) :
  exists points,
    parsePointsString (Some s) = Ok points
    /\ List.length points = Nat.div2 (List.length (parseFloats s))
    /\ (forall i, (i < List.length points)%nat ->
          nth i points (NaN, NaN)
          = (idx (parseFloats s) (2 * i), idx (parseFloats s) (2 * i + 1)))
    /\ parsePointsString None = Throw TypeError.
Proof.
  exists (pair_up (parseFloats s)). split; [reflexivity|].
  split; [apply pair_up_length|]. split; [|reflexivity].
  generalize (parseFloats s). intros floats.
  induction floats as [|x|x y rest IH] using pair_ind;
    cbn [pair_up List.length]; try (intros; lia).
  intros [|i] Hi; [reflexivity|].
  cbn [nth]. rewrite IH by lia.
  replace (2 * S i)%nat with (S (S (2 * i))) by lia.
  replace (2 * S i + 1)%nat with (S (S (2 * i + 1))) by lia.
  reflexivity.
Qed.

(** A polygon whose points attribute holds fewer than two numbers makes
    [polygon] throw at [points[0]], before anything is drawn. *)
Theorem polygon_without_points_throws (n : Element) (s : string) (tfMatrix : Matrix) (colorMode gradient : option string)
    (gradientMatrix : option Matrix) (w : World) :
  attr n "points" = Some s ->
  (List.length (parseFloats s) < 2)%nat ->
  polygon n tfMatrix colorMode gradient gradientMatrix w = Some (Throw TypeError, w).
Proof.
  intros Hs Hlen. unfold polygon. rewrite Hs. cbn [parsePointsString].
  destruct (parseFloats s) as [|x [|y rest]]; [reflexivity..|].
  cbn in Hlen. lia.
Qed.

Lemma polygon_without_points_throws_witness :
  polygon (element_of "polygon" [("points", "7")] [] None) unitMatrix None None None
    unresolved_doc
  = Some (Throw TypeError, unresolved_doc).
Proof.
  apply (polygon_without_points_throws _ "7");
    [reflexivity|vm_compute; lia].
Defined.
(** ** References that do not resolve *)



(** A fill that refers to an id that no visible scope declares, on a node
    whose own transform [parseTransform] reads to its end: the node's
    graphics state is saved, [fill.tagName] throws, and nothing restores
    the state; what the PDF has received is one [saveGraphicsState] more. *)
Theorem renderNode_unresolved_fill `{MathLib} `{Collaborators} (fuel : nat)
    (node : loc) (contextTransform : Matrix) (sc : scope) (w : World)
    (fill id : string) (tf : Matrix) :
  let n := node_at w node in
  is_ n ["g"; "path"; "rect"; "text"; "ellipse"; "line"; "circle"; "polygon"] = true ->
  computeNodeTransform n = Some tf ->
  attr n "fill" = Some fill ->
  Url.exec fill = Some id ->
  getFromDefs (prefix_get sc.2 +:+ id) sc.1 = None ->
  renderNode (S fuel) node contextTransform sc false w
  = Some (Throw TypeError, add_call Pdf.saveGraphicsState w).
Proof.
  intros n His Htf Hfill Hurl Hdefs. subst n.
  cbn [renderNode]. unfold renderNode_body.
  cbv beta iota delta [mbind M_bind get_node get_world mret M_ret].
  cbn [andb]. rewrite Htf.
  cbv beta iota delta [lift_fuel mbind M_bind mret M_ret emit set_world].
  rewrite His. unfold fill_mode. rewrite Hfill.
  destruct fill as [|c fill]; [discriminate Hurl|].
  cbn [truthy_str].
  change (str_of (Some (String c fill))) with (String c fill).
  rewrite Hurl, Hdefs. reflexivity.
Qed.

Lemma renderNode_unresolved_fill_witness :
  @renderNode quarter_math plain_collaborators 1 2%nat unitMatrix
    (∅, newSvgPrefix "_0_") false unresolved_doc
  = Some (Throw TypeError, add_call Pdf.saveGraphicsState unresolved_doc).
Proof.
  apply (@renderNode_unresolved_fill quarter_math plain_collaborators 0 2%nat
           unitMatrix (∅, newSvgPrefix "_0_") unresolved_doc
           "url(#missing)" "missing" unitMatrix);
    vm_compute; reflexivity.
Defined.

(** ** A transform that is not consumed *)

(** An element whose [transform] attribute [parseTransform] does not
    consume stops the traversal for good: [renderNode] does not return for
    it, whatever its tag and wherever it stands. *)
Theorem renderNode_transform_diverges `{MathLib} `{Collaborators} (fuel : nat)
    (node : loc) (contextTransform : Matrix) (sc : scope) (withinDefs : bool)
    (w : World) (s : string) :
  attr (node_at w node) "transform" = Some s ->
  parseTransform_run (Some s) = None ->
  renderNode fuel node contextTransform sc withinDefs w = None.
Proof.
  intros Hattr Hrun.
  assert (Hnt : computeNodeTransform (node_at w node) = None).
  { unfold computeNodeTransform. rewrite Hattr.
    destruct s as [|c s]; [discriminate Hrun|].
    cbn [truthy_str negb]. rewrite Hrun. reflexivity. }
  destruct fuel as [|fuel]; [reflexivity|].
  cbn [renderNode]. unfold renderNode_body.
  cbv beta iota delta [mbind M_bind get_node get_world mret M_ret].
  rewrite Hnt.
  destruct (withinDefs && negb (Str.contains (tag (node_at w node)) gradient_tags));
    reflexivity.
Qed.

Lemma renderNode_transform_diverges_witness :
  @renderNode quarter_math plain_collaborators 50 0%nat unitMatrix
    (∅, newSvgPrefix "_0_") false
    (world_of [(0%nat, element_of "g" [("transform", "rotate 45")] [] None)])
  = None.
Proof.
  apply (@renderNode_transform_diverges quarter_math plain_collaborators 50 0%nat
           unitMatrix (∅, newSvgPrefix "_0_") false _ "rotate 45");
    vm_compute; reflexivity.
Defined.
(** ** The bounding box of a path *)

(** A round of the loop of [getUntransformedBBox] on a segment that is not
    [Q], [q] or [t] leaves [pf] unassigned if it was, or throws. *)
Lemma bbox_step_pf (list : list PathSeg) (i : nat) (seg : PathSeg) (v : bbox_vars) :
  bv_pf v = None ->
  one_of "Qqt" (pathSegTypeAsLetter seg) = false ->
  match bbox_step list i seg v with
  | Ok v' => bv_pf v' = None
  | Throw e => e = TypeError
  end.
Proof.
  intros Hpf Hq. unfold bbox_step. rewrite Hpf.
  destruct (pathSegTypeAsLetter seg) as [[] [] [] [] [] [] [] []];
    try discriminate Hq; reflexivity.
Qed.

Lemma bbox_step_T (list : list PathSeg) (i : nat) (seg : PathSeg) (v : bbox_vars) :
  bv_pf v = None ->
  pathSegTypeAsLetter seg = "T"%char ->
  bbox_step list i seg v = Throw TypeError.
Proof. intros Hpf Hq. unfold bbox_step. rewrite Hpf, Hq. reflexivity. Qed.

Lemma bbox_loop_T (list pre post : Datatypes.list PathSeg) (seg : PathSeg)
    (i : nat) (v : bbox_vars) :
  bv_pf v = None ->
  Forall (fun s => one_of "Qqt" (pathSegTypeAsLetter s) = false) pre ->
  pathSegTypeAsLetter seg = "T"%char ->
  bbox_loop list i (pre ++ seg :: post) v = Throw TypeError.
Proof.
  intros Hpf Hpre Hseg. revert i v Hpf.
  induction Hpre as [|s pre Hs Hpre IH]; intros i v Hpf; cbn [app bbox_loop].
  - now rewrite bbox_step_T.
  - pose proof (bbox_step_pf list i s v Hpf Hs) as Hstep.
    destruct (bbox_step list i s v) as [v'|e]; [now apply IH|now subst e].
Qed.

(** The bounding box of a path with a [T] segment that no [Q], [q] or [t]
    segment comes before cannot be computed: [pf] is [undefined] in
    [toCubic([x, y], pf)], and [getUntransformedBBox] throws. *)
Theorem getUntransformedBBox_T_throws (node : Element)
    (pre post : list PathSeg) (seg : PathSeg) :
  tag node = "path" ->
  getPathSegList node = pre ++ seg :: post ->
  Forall (fun s => one_of "Qqt" (pathSegTypeAsLetter s) = false) pre ->
  pathSegTypeAsLetter seg = "T"%char ->
  getUntransformedBBox node = Throw TypeError.
Proof.
  intros Htag Hlist Hpre Hseg. unfold getUntransformedBBox, is_.
  rewrite Htag. cbn [existsb String.eqb Ascii.eqb Bool.eqb orb].
  rewrite Hlist at 2. rewrite bbox_loop_T; auto.
Qed.

Lemma getUntransformedBBox_T_throws_witness :
  getUntransformedBBox (element_of "path" [("d", "M0,0 L5,5 T10,0")] [] None)
  = Throw TypeError.
Proof.
  apply (getUntransformedBBox_T_throws _
           [mkPathSeg "M" (Fin 0) (Fin 0) NaN NaN NaN NaN;
            mkPathSeg "L" (Fin 5) (Fin 5) NaN NaN NaN NaN]
           [] (mkPathSeg "T" (Fin 10) (Fin 0) NaN NaN NaN NaN));
    [reflexivity|vm_compute; reflexivity|repeat constructor|reflexivity].
Defined.

(** ** The calls of a conversion *)

(** A conversion that returns has sent the PDF a balanced run of calls:
    its own [saveGraphicsState] and [restoreGraphicsState] around the
    balanced calls of the traversal. *)
Theorem svgElementToPdf_balanced `{MathLib} `{Collaborators} (fuel : nat)
    (element : loc) (options : Options) (w w' : World) :
  svgElementToPdf fuel element options w = Some (Ok tt, w') ->
  exists calls, w_pdf w' = w_pdf w ++ calls /\ balanced calls.
Proof.
  unfold svgElementToPdf.
  cbv beta iota zeta delta [mbind M_bind emit set_world].
  set (w2 := add_call _ (add_call Pdf.saveGraphicsState w)).
  destruct (cloneNode fuel element None w2) as [[[clone|e] w3]|] eqn:Hclone;
    [|discriminate..].
  assert (Hpdf3 : w_pdf w3 = w_pdf w2).
  { refine (proj1 (inv_cloneNode (fun w => w_pdf w = w_pdf w2) _ fuel element None
                     w2 (Ok clone) w3 eq_refl I Hclone)).
    intros; assumption. }
  destruct (renderNode fuel clone unitMatrix (∅, newSvgPrefix EmptyString) false w3)
    as [[[sc|e] w4]|] eqn:Hrender; [|discriminate..].
  intros [= <-].
  destruct (keeps_renderNode fuel clone unitMatrix (∅, newSvgPrefix EmptyString)
              false (w_pdf w3) [] [] w3 (Ok sc) w4 I) as [_ Hkeep];
    [exists []; split; [now rewrite app_nil_r|reflexivity]|exact Hrender|].
  destruct (Hkeep sc eq_refl) as (calls & Hcalls & Hbal).
  exists (Pdf.saveGraphicsState :: Pdf.setCurrentTransformationMatrix
            (mkMatrix (opt_scale options ||| n1)%num n0 n0 (opt_scale options ||| n1)%num
               (opt_xOffset options ||| n0)%num (opt_yOffset options ||| n0)%num)
          :: calls ++ [Pdf.restoreGraphicsState]).
  split.
  - cbn [add_call w_pdf]. rewrite Hcalls, Hpdf3. subst w2. cbn [add_call w_pdf].
    rewrite <- !app_assoc. reflexivity.
  - unfold balanced. cbn [frames_after frame_step].
    rewrite frames_after_app, (balanced_under _ _ Hbal). reflexivity.
Qed.

Lemma svgElementToPdf_balanced_witness :
  exists w' calls,
    @svgElementToPdf quarter_math plain_collaborators 4 1%nat
      (@no_options quarter_math plain_collaborators) gradient_doc
    = Some (Ok tt, w')
    /\ w_pdf w' = w_pdf gradient_doc ++ calls /\ balanced calls.
Proof.
  eexists.
  match goal with
  | |- exists calls, ?A /\ _ =>
      assert (Hrun : A) by (vm_compute; reflexivity)
  end.
  destruct (@svgElementToPdf_balanced quarter_math plain_collaborators 4 1%nat
              _ gradient_doc _ Hrun) as (calls & Hcalls & Hbal).
  exists calls. split; [exact Hrun|]. split; assumption.
Defined.
(** ** The segments of a path *)

Lemma makePathSeg_letter (type : ascii) (coords : list num) :
  pathSegTypeAsLetter (makePathSeg type coords) = type.
Proof.
  unfold makePathSeg.
  repeat match goal with |- context [if ?b then _ else _] => destruct b end;
    reflexivity.
Qed.

Lemma segs_go_letters (d : string) (cur : option ascii) (args : string) :
  map pathSegTypeAsLetter (segs_go d cur args)
  = match cur with Some c => [c] | None => [] end
    ++ List.filter Chr.is_letter (list_ascii_of_string d).
Proof.
  revert cur args. induction d as [|c d IH]; intros cur args.
  - destruct cur; cbn; [now rewrite makePathSeg_letter|reflexivity].
  - cbn [segs_go list_ascii_of_string List.filter].
    destruct (Chr.is_letter c).
    + rewrite map_app, IH. destruct cur; cbn; [now rewrite makePathSeg_letter|reflexivity].
    + apply IH.
Qed.

(** Every letter of the path data starts a segment of its own, in the
    order of the text and whatever the letter is: the [e] of an exponent
    does, and so do the letters of ["null"] when the attribute is not
    there. *)
Theorem parse_d_letters (d : option string) :
  map pathSegTypeAsLetter (parse_d d)
  = List.filter Chr.is_letter (list_ascii_of_string (default "null" d)).
Proof. unfold parse_d. now rewrite segs_go_letters. Qed.

(** The end point of a move, line or smooth quadratic segment is the last
    pair of numbers after its letter: where the path data repeats the
    coordinates after one letter, the pairs before the last are not
    drawn. *)
Theorem makePathSeg_last_pair (type : ascii) (floats : list num) (x y : num) :
  one_of "tTlLmM" type = true ->
  let seg := makePathSeg type (rev (floats ++ [x; y])) in
  seg_x seg = x /\ seg_y seg = y.
Proof.
  intros Htype. cbn zeta.
  rewrite rev_app_distr. cbn [rev app]. unfold makePathSeg.
  destruct type as [[] [] [] [] [] [] [] []]; try discriminate Htype;
    split; reflexivity.
Qed.

Lemma makePathSeg_last_pair_witness :
  seg_x (makePathSeg "L" (rev ([Fin 1; Fin 1] ++ [Fin 2; Fin 3]))) = Fin 2
  /\ seg_y (makePathSeg "L" (rev ([Fin 1; Fin 1] ++ [Fin 2; Fin 3]))) = Fin 3.
Proof. apply (makePathSeg_last_pair "L" [Fin 1; Fin 1]). reflexivity. Defined.

(** ** What a conversion has sent when it stops *)

(** Whether the conversion returns or throws, the calls the PDF had
    received are still there, and the first two calls after them are the
    [saveGraphicsState] and the matrix of the options; a scale of 0 counts
    as no scale. *)
Theorem svgElementToPdf_first_calls `{MathLib} `{Collaborators} (fuel : nat)
    (element : loc) (options : Options) (w : World) (r : outcome unit)
    (w' : World) :
  svgElementToPdf fuel element options w = Some (r, w') ->
  exists rest,
    w_pdf w'
    = w_pdf w
      ++ Pdf.saveGraphicsState
      :: Pdf.setCurrentTransformationMatrix
           (mkMatrix (opt_scale options ||| n1)%num n0 n0
              (opt_scale options ||| n1)%num
              (opt_xOffset options ||| n0)%num (opt_yOffset options ||| n0)%num)
      :: rest.
Proof.
  unfold svgElementToPdf.
  cbv beta iota zeta delta [mbind M_bind emit set_world].
  set (w2 := add_call _ (add_call Pdf.saveGraphicsState w)).
  set (J := fun w0 : World => exists rest, w_pdf w0 = w_pdf w2 ++ rest).
  assert (J_call : forall c w0, J w0 -> J (add_call c w0)).
  { intros c w0 [rest Hw]. exists (rest ++ [c]). cbn. now rewrite Hw, app_assoc. }
  assert (HJ2 : J w2) by (exists []; now rewrite app_nil_r).
  assert (Hdone : forall w0, J w0 ->
            exists rest, w_pdf w0 = w_pdf w ++ Pdf.saveGraphicsState
              :: Pdf.setCurrentTransformationMatrix
                   (mkMatrix (opt_scale options ||| n1)%num n0 n0
                      (opt_scale options ||| n1)%num
                      (opt_xOffset options ||| n0)%num
                      (opt_yOffset options ||| n0)%num) :: rest).
  { intros w0 [rest Hw]. exists rest. rewrite Hw. subst w2. cbn.
    now rewrite <- !app_assoc. }
  destruct (cloneNode fuel element None w2) as [[[clone|e] w3]|] eqn:Hclone;
    [| |discriminate].
  - assert (HJ3 : J w3).
    { refine (proj1 (inv_cloneNode J _ fuel element None w2 _ w3 HJ2 I Hclone)).
      intros; assumption. }
    destruct (renderNode fuel clone unitMatrix (∅, newSvgPrefix EmptyString) false w3)
      as [[[sc|e] w4]|] eqn:Hrender; [| |discriminate].
    + intros [= <- <-]. apply Hdone, J_call.
      refine (proj1 (inv_renderNode J J_call _ _ fuel clone _ _ _ w3 _ w4 HJ3 I Hrender));
        intros; assumption.
    + intros [= <- <-]. apply Hdone.
      refine (proj1 (inv_renderNode J J_call _ _ fuel clone _ _ _ w3 _ w4 HJ3 I Hrender));
        intros; assumption.
  - intros [= <- <-]. apply Hdone.
    refine (proj1 (inv_cloneNode J _ fuel element None w2 _ w3 HJ2 I Hclone)).
    intros; assumption.
Qed.

Lemma svgElementToPdf_first_calls_witness :
  exists w' rest,
    @svgElementToPdf quarter_math plain_collaborators 4 1%nat
      (mkOptions (Fin 0) NaN (Fin 5)) unresolved_doc
    = Some (Throw TypeError, w')
    /\ w_pdf w'
       = w_pdf unresolved_doc
         ++ Pdf.saveGraphicsState
         :: Pdf.setCurrentTransformationMatrix
              (mkMatrix n1 n0 n0 n1 n0 (Fin 5))
         :: rest.
Proof.
  eexists.
  match goal with
  | |- exists rest, ?A /\ _ =>
      assert (Hrun : A) by (vm_compute; reflexivity)
  end.
  destruct (@svgElementToPdf_first_calls quarter_math plain_collaborators 4 1%nat
              _ unresolved_doc _ _ Hrun) as [rest Hrest].
  exists rest. split; [exact Hrun|exact Hrest].
Defined.
(** ** Lists of natural numbers *)

Lemma append_nil_r (s : string) : s +:+ EmptyString = s.
Proof. induction s as [|c s IH]; [reflexivity|]. rewrite append_cons. now f_equal. Qed.

Lemma rev_onto_twice (s a b : string) :
  Str.rev_onto (Str.rev_onto s a) b = Str.rev_onto a (s +:+ b).
Proof.
  revert a b. induction s as [|c s IH]; intros a b; [reflexivity|].
  cbn [Str.rev_onto]. rewrite IH. reflexivity.
Qed.

Lemma rev_rev_onto (s : string) : Str.rev (Str.rev_onto s EmptyString) = s.
Proof. unfold Str.rev. rewrite rev_onto_twice. cbn. apply append_nil_r. Qed.

Lemma rev_onto_app (a b acc : string) :
  Str.rev_onto (a +:+ b) acc = Str.rev_onto b (Str.rev_onto a acc).
Proof.
  revert acc. induction a as [|c a IH]; intros acc; [reflexivity|].
  rewrite append_cons. cbn [Str.rev_onto]. apply IH.
Qed.

Lemma rev_onto_acc (s acc : string) :
  Str.rev_onto s acc = Str.rev_onto s EmptyString +:+ acc.
Proof.
  revert acc. induction s as [|c s IH]; intros acc; [reflexivity|].
  cbn [Str.rev_onto]. rewrite IH, (IH (String c EmptyString)), append_assoc.
  reflexivity.
Qed.

Lemma digit_plain (c : ascii) :
  Chr.is_digit c = true ->
  Chr.is_space c = false /\ Chr.eqb c "," = false /\ c <> "-"%char.
Proof.
  destruct c as [[] [] [] [] [] [] [] []]; try discriminate; intros _;
    repeat split; discriminate.
Qed.

Lemma separator_plain (c : ascii) :
  Chr.is_space c || Chr.eqb c "," = true -> c <> "-"%char.
Proof.
  destruct c as [[] [] [] [] [] [] [] []]; try discriminate; intros _; discriminate.
Qed.

(** Where no minus sign stands, [replace_minus] changes nothing. *)
Lemma replace_minus_none (s : string) :
  Forall (fun c => c <> "-"%char) (list_ascii_of_string s) -> replace_minus s = s.
Proof.
  induction s as [|c s IH]; [reflexivity|].
  cbn [list_ascii_of_string]. intros [Hc Hs]%Forall_cons.
  specialize (IH Hs). cbn [replace_minus].
  destruct s as [|d s]; [reflexivity|].
  apply Forall_cons in Hs as [Hd _].
  destruct d as [[] [] [] [] [] [] [] []];
    first [now rewrite IH | now contradiction Hd].
Qed.

Lemma chars_append (a b : string) :
  list_ascii_of_string (a +:+ b) = list_ascii_of_string a ++ list_ascii_of_string b.
Proof.
  induction a as [|c a IH]; [reflexivity|].
  rewrite append_cons. cbn. now rewrite IH.
Qed.

Lemma all_digits_no_minus (s : string) :
  all_digits s = true -> Forall (fun c => c <> "-"%char) (list_ascii_of_string s).
Proof.
  induction s as [|c s IH]; cbn; [constructor|].
  intros [Hc Hs]%andb_prop. constructor; [apply digit_plain, Hc|auto].
Qed.

Lemma all_spaces_no_minus (s : string) :
  all_spaces s = true -> Forall (fun c => c <> "-"%char) (list_ascii_of_string s).
Proof.
  induction s as [|c s IH]; cbn; [constructor|].
  intros [Hc Hs]%andb_prop. constructor; [|auto].
  apply separator_plain. now rewrite Hc.
Qed.

Lemma separator_no_minus (sep : string) :
  separator sep = true -> Forall (fun c => c <> "-"%char) (list_ascii_of_string sep).
Proof.
  destruct sep as [|c blanks]; [discriminate|]. cbn.
  intros [Hc Hb]%andb_prop. constructor;
    [now apply separator_plain|now apply all_spaces_no_minus].
Qed.

Lemma join_no_minus (sep : string) (l : list string) :
  separator sep = true ->
  Forall (fun s => all_digits s = true /\ s <> EmptyString) l ->
  Forall (fun c => c <> "-"%char) (list_ascii_of_string (join_with sep l)).
Proof.
  intros Hsep Hl. induction Hl as [|s l [Hs _] Hl IH]; [constructor|].
  cbn [join_with]. destruct l as [|s2 l]; [now apply all_digits_no_minus|].
  rewrite !chars_append, !Forall_app.
  auto using all_digits_no_minus, separator_no_minus.
Qed.

(** The pieces [split] cuts a joined list into. *)
Lemma split_go_digits (ds rest cur : string) (sep : bool) :
  all_digits ds = true -> ds <> EmptyString ->
  split_go (ds +:+ rest) cur sep = split_go rest (Str.rev_onto ds cur) false.
Proof.
  revert cur sep. induction ds as [|d ds IH]; intros cur sep Hds Hne; [done|].
  cbn in Hds. apply andb_prop in Hds as [Hd Hds].
  destruct (digit_plain d Hd) as (Hsp & Hco & _).
  rewrite append_cons. cbn [split_go Str.rev_onto]. rewrite Hsp, Hco.
  destruct ds as [|d' ds]; [reflexivity|]. now apply IH.
Qed.

Lemma split_go_blanks (blanks rest cur : string) :
  all_spaces blanks = true ->
  split_go (blanks +:+ rest) cur true = split_go rest cur true.
Proof.
  induction blanks as [|c blanks IH]; [reflexivity|].
  cbn [all_spaces]. intros [Hc Hb]%andb_prop.
  rewrite append_cons. cbn [split_go]. rewrite Hc. auto.
Qed.

Lemma split_go_separator (sep rest cur : string) :
  separator sep = true ->
  split_go (sep +:+ rest) cur false
  = Str.rev cur :: split_go rest EmptyString true.
Proof.
  destruct sep as [|c blanks]; [discriminate|]. cbn [separator].
  intros [Hc Hb]%andb_prop. rewrite append_cons. cbn [split_go].
  destruct (Chr.is_space c); [now rewrite split_go_blanks|].
  cbn in Hc. rewrite Hc. now rewrite split_go_blanks.
Qed.

Lemma split_go_join (sep : string) (l : list string) (b : bool) :
  separator sep = true ->
  Forall (fun s => all_digits s = true /\ s <> EmptyString) l ->
  l <> [] ->
  split_go (join_with sep l) EmptyString b = l.
Proof.
  intros Hsep Hl. revert b. induction Hl as [|s l [Hs Hne] Hl IH]; intros b Hnil; [done|].
  cbn [join_with]. destruct l as [|s2 l].
  - rewrite <- (append_nil_r s) at 1. rewrite split_go_digits by assumption.
    cbn [split_go]. now rewrite rev_rev_onto.
  - rewrite split_go_digits, split_go_separator by assumption.
    rewrite rev_rev_onto. f_equal. now apply IH.
Qed.

(** A joined list begins and ends with a digit, so [trim] finds nothing. *)
Lemma drop_spaces_head (a b : string) :
  Str.drop_spaces a = a /\ a <> EmptyString ->
  Str.drop_spaces (a +:+ b) = a +:+ b /\ a +:+ b <> EmptyString.
Proof.
  intros [Ha Hne]. destruct a as [|c a]; [done|].
  rewrite append_cons. split; [|discriminate].
  cbn [Str.drop_spaces] in *. destruct (Chr.is_space c); [|reflexivity].
  exfalso. pose proof (f_equal String.length Ha) as Hlen.
  assert (Hle : forall s, (String.length (Str.drop_spaces s) <= String.length s)%nat).
  { induction s as [|x s IHs]; cbn; [lia|]. destruct (Chr.is_space x); cbn; lia. }
  specialize (Hle a). cbn in Hlen. lia.
Qed.

Lemma digits_head (s : string) :
  all_digits s = true -> s <> EmptyString ->
  Str.drop_spaces s = s /\ s <> EmptyString.
Proof.
  destruct s as [|c s]; [done|]. cbn. intros [Hc _]%andb_prop _.
  split; [|discriminate]. now rewrite (proj1 (digit_plain c Hc)).
Qed.

Lemma all_digits_rev_onto (s acc : string) :
  all_digits (Str.rev_onto s acc) = all_digits s && all_digits acc.
Proof.
  revert acc. induction s as [|c s IH]; intros acc; [reflexivity|].
  cbn [Str.rev_onto all_digits]. rewrite IH. cbn [all_digits].
  destruct (Chr.is_digit c), (all_digits s), (all_digits acc); reflexivity.
Qed.

Lemma rev_nonempty (s : string) : s <> EmptyString -> Str.rev s <> EmptyString.
Proof.
  destruct s as [|c s]; [done|]. intros _. unfold Str.rev. cbn [Str.rev_onto].
  rewrite rev_onto_acc. destruct (Str.rev_onto s EmptyString); discriminate.
Qed.

Lemma join_head (sep : string) (l : list string) :
  Forall (fun s => all_digits s = true /\ s <> EmptyString) l -> l <> [] ->
  Str.drop_spaces (join_with sep l) = join_with sep l
  /\ join_with sep l <> EmptyString.
Proof.
  intros Hl Hnil. destruct Hl as [|s l [Hs Hne] Hl]; [done|].
  cbn [join_with]. destruct l as [|s2 l]; [now apply digits_head|].
  apply drop_spaces_head. now apply digits_head.
Qed.

Lemma join_last (sep : string) (l : list string) :
  Forall (fun s => all_digits s = true /\ s <> EmptyString) l -> l <> [] ->
  Str.drop_spaces (Str.rev (join_with sep l)) = Str.rev (join_with sep l)
  /\ Str.rev (join_with sep l) <> EmptyString.
Proof.
  intros Hl. induction Hl as [|s l [Hs Hne] Hl IH]; intros Hnil; [done|].
  cbn [join_with]. destruct l as [|s2 l].
  - apply digits_head; [|now apply rev_nonempty].
    unfold Str.rev. now rewrite all_digits_rev_onto, Hs.
  - unfold Str.rev in *. rewrite !rev_onto_app, rev_onto_acc.
    apply drop_spaces_head. now apply IH.
Qed.

Lemma trim_join (sep : string) (l : list string) :
  Forall (fun s => all_digits s = true /\ s <> EmptyString) l -> l <> [] ->
  Str.trim (join_with sep l) = join_with sep l.
Proof.
  intros Hl Hnil. unfold Str.trim.
  rewrite (proj1 (join_head sep l Hl Hnil)), (proj1 (join_last sep l Hl Hnil)).
  unfold Str.rev at 2. apply rev_rev_onto.
Qed.

(** [parseFloat] reads the decimal numeral of a natural number back. *)
Lemma digits_string_of_uint (d : Decimal.uint) (a : nat) (k : Z) :
  Lit.digits (NilEmpty.string_of_uint d) (Z.of_nat a) k
  = (Z.of_nat (Nat.of_uint_acc d a), k + Z.of_nat (Decimal.nb_digits d), EmptyString).
Proof.
  revert a k.
  induction d as [|d IH|d IH|d IH|d IH|d IH|d IH|d IH|d IH|d IH|d IH];
    intros a k;
    [cbn; do 2 f_equal; lia| ..];
    cbn [NilEmpty.string_of_uint Lit.digits Nat.of_uint_acc Decimal.nb_digits];
    change (Chr.is_digit _) with true; cbn iota;
    match goal with
    | |- Lit.digits _ ?v _ = (Z.of_nat (Nat.of_uint_acc _ ?n), _, _) =>
        replace v with (Z.of_nat n)
          by (rewrite Nat.tail_mul_spec; unfold Chr.digit_val; cbn; lia)
    end;
    rewrite IH; do 2 f_equal; lia.
Qed.

Lemma to_uint_not_nil (n : nat) : Nat.to_uint n <> Decimal.Nil.
Proof.
  rewrite <- (DecimalNat.Unsigned.of_to n) at 1.
  rewrite DecimalNat.Unsigned.to_of. apply DecimalFacts.unorm_nonnil.
Qed.

Lemma parseFloat_nat_to_string (n : nat) :
  parseFloat (nat_to_string n) = Num.of_Z (Z.of_nat n).
Proof.
  destruct (nat_to_string_digits n) as (d & ds & Hs & Hd & Hds).
  assert (Hdig : Lit.digits (nat_to_string n) 0 0
                 = (Z.of_nat n, Z.of_nat (Decimal.nb_digits (Nat.to_uint n)),
                    EmptyString)).
  { unfold nat_to_string, NilZero.string_of_uint in *.
    destruct (Nat.to_uint n) eqn:Hn;
      [now destruct (to_uint_not_nil n)| ..];
      rewrite <- Hn, (digits_string_of_uint _ 0 0);
      change (Nat.of_uint_acc (Nat.to_uint n) 0) with (Nat.of_uint (Nat.to_uint n));
      rewrite DecimalNat.Unsigned.of_to; reflexivity. }
  assert (Hpos : (Z.of_nat (Decimal.nb_digits (Nat.to_uint n)) =? 0) = false).
  { apply Z.eqb_neq. intros Hz.
    pose proof (f_equal (fun t => snd (fst t)) Hdig) as Hcount. cbn in Hcount.
    rewrite Hs in Hcount. cbn [Lit.digits] in Hcount. rewrite Hd in Hcount.
    assert (Hmono : forall s acc k, k <= snd (fst (Lit.digits s acc k))).
    { induction s as [|c s IHs]; intros acc k; cbn; [lia|].
      destruct (Chr.is_digit c); cbn; [|lia].
      specialize (IHs (10 * acc + Chr.digit_val c) (k + 1)). lia. }
    specialize (Hmono ds (10 * 0 + Chr.digit_val d) (0 + 1)). lia. }
  unfold parseFloat.
  assert (Hdrop : Str.drop_spaces (nat_to_string n) = nat_to_string n).
  { rewrite Hs. cbn. now rewrite (proj1 (digit_plain d Hd)). }
  rewrite Hdrop. unfold Lit.str_decimal_literal.
  assert (Hlit : Lit.unsigned_decimal (nat_to_string n)
                 = Some (Z.of_nat n, 0, EmptyString)).
  { unfold Lit.unsigned_decimal. rewrite Hdig, Hpos. reflexivity. }
  rewrite Hs in *.
  assert (Hinf : Str.strip_prefix "Infinity" (String d ds) = None).
  { destruct d as [[] [] [] [] [] [] [] []]; try discriminate Hd; reflexivity. }
  assert (Hsign : match String d ds with
                  | String "+" r => (false, r)
                  | String "-" r => (true, r)
                  | _ => (false, String d ds)
                  end = (false, String d ds)).
  { destruct d as [[] [] [] [] [] [] [] []]; try discriminate Hd; reflexivity. }
  rewrite Hsign, Hinf, Hlit.
  unfold Lit.decimal_value, Num.of_Z. f_equal.
  transitivity (Qred (inject_Z (Z.of_nat n))); [|apply inject_Z_Qred].
  apply Qred_complete. unfold Lit.pow10, Qeq, inject_Z. cbn. lia.
Qed.

(** [parseFloats] reads a list of natural numbers back from their decimal
    numerals, joined by white space or by a comma and white space.  The
    numbers are at most 2^53: up to there every natural number is a
    JavaScript number, and [parseFloat] of its numeral is that number. *)
Theorem parseFloats_naturals (sep : string) (ns : list nat) :
  separator sep = true -> ns <> [] ->
  Forall (fun n => (Z.of_nat n <= 9007199254740992)%Z) ns ->
  parseFloats (join_with sep (map nat_to_string ns))
  = map (fun n => Num.of_Z (Z.of_nat n)) ns.
Proof.
  intros Hsep Hns _.
  assert (Hl : Forall (fun s => all_digits s = true /\ s <> EmptyString)
                 (map nat_to_string ns)).
  { apply Forall_map, Forall_forall. intros n _. cbn.
    destruct (nat_to_string_digits n) as (d & ds & -> & Hd & Hds).
    cbn. now rewrite Hd, Hds. }
  assert (Hnil : map nat_to_string ns <> []) by (destruct ns; [done|discriminate]).
  unfold parseFloats, split_floats.
  rewrite replace_minus_none by now apply join_no_minus.
  rewrite trim_join, split_go_join by assumption.
  rewrite map_map. apply map_ext. intros n. apply parseFloat_nat_to_string.
Qed.

Lemma parseFloats_naturals_witness :
  parseFloats (join_with ", " (map nat_to_string [10; 0; 250]%nat))
  = map (fun n => Num.of_Z (Z.of_nat n)) [10; 0; 250]%nat.
Proof.
  apply (parseFloats_naturals ", " [10; 0; 250]%nat);
    [reflexivity|discriminate|repeat constructor; lia].
Defined.
(** ** The font type of a text *)

Lemma font_weight_not_bold (weight : option string) :
  weight <> Some "bold" ->
  match weight with
  | Some "bold" => Some "bold"
  | _ => None
  end = (None : option string).
Proof.
  intros Hw.
  destruct weight as [[|c1 [|c2 [|c3 [|c4 [|c5 s]]]]]|]; try reflexivity.
  all: destruct c1 as [[] [] [] [] [] [] [] []]; try reflexivity.
  all: destruct c2 as [[] [] [] [] [] [] [] []]; try reflexivity.
  all: destruct c3 as [[] [] [] [] [] [] [] []]; try reflexivity.
  all: destruct c4 as [[] [] [] [] [] [] [] []]; try reflexivity.
  now contradiction Hw.
Qed.

Ltac trace_step :=
  lazymatch goal with
  | |- inv _ (update_node _ _) => apply inv_update_node; assumption
  | |- inv _ (alloc _) => apply inv_alloc; assumption
  | |- inv _ (removeChild _ _) => apply inv_removeChild; assumption
  | |- inv _ (appendChild _ _) => apply inv_appendChild; assumption
  | |- inv _ (emit _) => apply inv_emit; [assumption|reflexivity]
  | |- _ => inv_basic
  end.

(** A text in italics that is not bold asks the PDF for the font type
    ["undefineditalic"]: [fontType += "italic"] finds [fontType] unassigned.
    The call is made whether [text] goes on to return or not. *)
Theorem text_italic_font_type `{Collaborators} (node : loc) (n : Element)
    (tfMatrix : Matrix) (hasFill : bool) (fillRGB : RGBColor_t)
    (w : World) (r : outcome unit) (w' : World) :
  getAttribute n "font-style" = Some "italic" ->
  getAttribute n "font-weight" <> Some "bold" ->
  text node n tfMatrix hasFill fillRGB w = Some (r, w') ->
  Pdf.setFontType (Some "undefineditalic") ∈ w_pdf w'.
Proof.
  intros Hstyle Hweight Hrun. unfold text in Hrun.
  rewrite Hstyle, (font_weight_not_bold _ Hweight) in Hrun.
  change (str_of None +:+ "italic") with "undefineditalic" in Hrun.
  set (J := fun w0 : World => Pdf.setFontType (Some "undefineditalic") ∈ w_pdf w0).
  assert (J_call : forall c w0, neutral c = true -> J w0 -> J (add_call c w0)).
  { intros c w0 _ Hin. unfold J in *. cbn. apply elem_of_app. now left. }
  assert (J_p : forall p w0, J w0 -> J (with_p p w0)) by (intros; assumption).
  assert (J_nodes : forall nodes next w0,
            (w_next w0 <= next)%nat -> J w0 -> J (with_nodes nodes next w0))
    by (intros; assumption).
  apply bind_inv in Hrun as [(e & Hrun & _)|(u1 & w1 & _ & Hrun)];
    [destruct (truthy_str (getAttribute n "font-family")); discriminate Hrun|].
  apply bind_inv in Hrun as [(e & Hrun & _)|(u2 & w2 & _ & Hrun)];
    [destruct hasFill; discriminate Hrun|].
  apply bind_inv in Hrun as [(e & Hrun & _)|(u3 & w3 & Hemit & Hrun)];
    [discriminate Hrun|].
  injection Hemit as _ <-. cbv beta in Hrun.
  match type of Hrun with
  | ?m _ = _ => assert (Hinv : inv J m)
  end.
  { repeat trace_step.
    all: try (apply inv_each; intros c [x y] _; repeat trace_step). }
  refine (proj1 (Hinv _ _ _ _ I Hrun)).
  unfold J. cbn. apply elem_of_app. right. apply list_elem_of_singleton. reflexivity.
Qed.

Lemma text_italic_font_type_witness :
  exists r w',
    @text plain_collaborators 1%nat
      (element_of "text" [("font-style", "italic")] [] (Some 0%nat))
      unitMatrix false (mkRGB false NaN NaN NaN)
      (world_of [(0%nat, element_of "body" [] [1%nat] None);
                 (1%nat, element_of "text" [("font-style", "italic")] []
                           (Some 0%nat))])
    = Some (r, w')
    /\ Pdf.setFontType (Some "undefineditalic") ∈ w_pdf w'.
Proof.
  eexists _, _.
  match goal with
  | |- ?A /\ _ => assert (Hrun : A) by (vm_compute; reflexivity)
  end.
  split; [exact Hrun|].
  refine (@text_italic_font_type plain_collaborators 1%nat
            (element_of "text" [("font-style", "italic")] [] (Some 0%nat))
            unitMatrix false (mkRGB false NaN NaN NaN) _ _ _ eq_refl _ Hrun).
  discriminate.
Defined.
